(** * microrimba: the signal-analysis and tuning-inference core of
      [scripts/build_dataset.py]

    A shallow embedding of the window selector, the pitch tracker, the
    partial analyzer, the octave corrector and the tuning inference, and the
    properties the specification states about them.

    Numbers.  Python [int]s are [Z].  In the signal-processing functions
    Python [float]s are read as real numbers ([R] of the Standard Library):
    there the development reasons about the arithmetic the code writes
    down, not about IEEE-754 rounding, overflow or NaN.  Where these decide
    a property (the totality of the harmonic-grid fit score, the register
    invariant at an octave boundary) the code is embedded a second time
    over binary64 floats, in the module [F64].  Exceptions are values of
    [exn] threaded through the [result] monad; a float division is [fdiv]
    (raises on a zero divisor) and [math.log2] is [math_log2] (raises
    outside its domain). *)

From Stdlib Require Import String.
From Stdlib Require Import Reals Lra Lia ZArith List Bool DecimalString.
From Stdlib Require Import Sorting.Permutation Sorting.Sorted.
Import ListNotations.

Local Open Scope R_scope.

(** ** Python values and exceptions *)

Inductive exn : Type :=
| ZeroDivisionError
| MathDomainError
| IndexError
| KeyError
(* OverflowError("cannot convert float infinity to integer"), or an int too
   large for a float *)
| OverflowError
(* ValueError("cannot convert float NaN to integer") *)
| ValueError
(* TypeError: float() of a value that is not a number *)
| TypeError
(* not a Python exception: the fuel of a loop model ran out *)
| OutOfFuel
(* ValueError("invalid f0 lag search window ...: lmin=, lmax=, frame_size=, sr=, min_hz=, max_hz=") *)
| InvalidLagWindow (context : option string) (lmin lmax frame_size sr : Z) (min_hz max_hz : R)
(* ValueError("unable to estimate f0 from audio ...") *)
| UnableToEstimate (context : option string).

Inductive result (A : Type) : Type :=
| Ok (a : A)
| Raise (e : exn).
Arguments Ok {A} a.
Arguments Raise {A} e.

Definition bind {A B : Type} (m : result A) (k : A -> result B) : result B :=
  match m with
  | Ok a => k a
  | Raise e => Raise e
  end.

Notation "x <- m ;; k" := (bind m (fun x => k))
  (at level 61, m at next level, right associativity).

Fixpoint foldM {A S : Type} (f : S -> A -> result S) (s : S) (l : list A) : result S :=
  match l with
  | [] => Ok s
  | a :: l' => s' <- f s a ;; foldM f s' l'
  end.

Module Py.

Definition ltb (x y : R) : bool := if Rlt_dec x y then true else false.
Definition leb (x y : R) : bool := if Rle_dec x y then true else false.

(** [math.floor], [math.ceil], [int(float)] and the built-in [round]
    (ties go to the even integer). *)
Definition floor (x : R) : Z := (up x - 1)%Z.
Definition ceil (x : R) : Z := (- floor (- x))%Z.
Definition int (x : R) : Z := if Rle_dec 0 x then floor x else ceil x.
Definition round (x : R) : Z :=
  let f := floor x in
  let d := x - IZR f in
  if Rlt_dec d (1 / 2) then f
  else if Rlt_dec (1 / 2) d then (f + 1)%Z
  else if Z.even f then f else (f + 1)%Z.

(** [a / b] on floats (or true division of ints). *)
Definition fdiv (a b : R) : result R :=
  if Req_dec_T b 0 then Raise ZeroDivisionError else Ok (a / b).

Definition log2 (x : R) : R := ln x / ln 2.
Definition log10 (x : R) : R := ln x / ln 10.

(** [math.log2]. *)
Definition math_log2 (x : R) : result R :=
  if Rlt_dec 0 x then Ok (log2 x) else Raise MathDomainError.

(** [np.clip(v, lo, hi)]. *)
Definition clip (v lo hi : R) : R := Rmin (Rmax v lo) hi.

(** [l[a:b]] with Python's treatment of negative and oversized bounds. *)
Definition norm_index (n i : Z) : Z :=
  if (i <? 0)%Z then Z.max 0 (n + i) else Z.min i n.

Definition slice {A : Type} (l : list A) (a b : Z) : list A :=
  let n := Z.of_nat (length l) in
  let a' := norm_index n a in
  let b' := norm_index n b in
  firstn (Z.to_nat (b' - a')) (skipn (Z.to_nat a') l).

(** [range(start, stop, step)] for a positive step. *)
Definition range (start stop step : Z) : list Z :=
  map (fun i => (start + Z.of_nat i * step)%Z)
      (seq 0 (Z.to_nat ((stop - start + step - 1) / step))).

(** [list.sort] / [sorted]: a stable sort; [lt a b] says that the key of
    [a] is strictly below the key of [b]. *)
Fixpoint insert {A : Type} (lt : A -> A -> bool) (x : A) (l : list A) : list A :=
  match l with
  | [] => [x]
  | y :: l' => if lt y x then y :: insert lt x l' else x :: y :: l'
  end.

Fixpoint sort {A : Type} (lt : A -> A -> bool) (l : list A) : list A :=
  match l with
  | [] => []
  | x :: l' => insert lt x (sort lt l')
  end.

Definition sum (l : list R) : R := fold_right Rplus 0 l.
(** [np.mean] and [np.var] of a one-dimensional array. *)
Definition mean (l : list R) : R := sum l / INR (length l).
Definition var (l : list R) : R :=
  let m := mean l in mean (map (fun v => (v - m) * (v - m)) l).

End Py.

(** ** Configuration constants *)

Definition WINDOW_IGNORE_S : R := 0.20.
Definition RMS_FRAME_S : R := 0.05.
Definition WINDOW_TARGET_S : R := 1.00.
Definition WINDOW_MIN_S : R := 0.40.
Definition MIN_F0_HZ : R := 40.0.
Definition MAX_F0_HZ : R := 2000.0.
Definition MAX_FFT : Z := 262144.
Definition PROMINENCE_DB : R := 15.0.
Definition MAX_PEAKS : Z := 60.
Definition SUMMARY_PEAKS : Z := 12.

(** ** Spectral peaks *)

(** A peak dictionary.  [hz] is optional because the harmonic-grid score
    reads it with [peak.get("hz", 0.0)]. *)
Record peak : Type := mkPeak {
  hz : option R;
  rel_amp_db : R;
  peak_confidence : R;
  harmonic_index_guess : option Z
}.

Definition peak_get_hz (p : peak) : R :=
  match hz p with Some h => h | None => 0.0 end.

(** ** Octave corrector: harmonic-grid fit *)

(** One iteration of the loop of [_harmonic_grid_fit_score], in exact
    arithmetic and for peaks whose [hz], when present, is a number: the
    reading under which the octave corrector is studied.  The binary64
    reading, where [round] can raise, is [F64.aligned_step]. *)
Definition aligned_step (f0_hz tol : R) (aligned : Z) (pk : peak) : result Z :=
  let peak_hz := peak_get_hz pk in
  q <- Py.fdiv peak_hz f0_hz ;;
  let harmonic_idx := Py.round q in
  if (harmonic_idx <? 1)%Z then Ok aligned
  else
    let target := IZR harmonic_idx * f0_hz in
    rel_err <- Py.fdiv (Rabs (peak_hz - target)) (Rmax target 1e-9) ;;
    if Rle_dec rel_err tol then Ok (aligned + 1)%Z else Ok aligned.

Definition _harmonic_grid_fit_score
    (summary_peaks : list peak) (f0_hz tol : R) (k_max : Z) : result R :=
  match summary_peaks with
  | [] => Ok 0.0
  | _ :: _ =>
    if Rle_dec f0_hz 0 then Ok 0.0
    else
      let k := Z.min k_max (Z.of_nat (length summary_peaks)) in
      aligned <- foldM (aligned_step f0_hz tol) 0%Z (Py.slice summary_peaks 0 k) ;;
      Py.fdiv (IZR aligned) (IZR (Z.max k 1))
  end.

(** The call sites leave [tol] and [k_max] at their defaults. *)
Definition harmonic_fit (summary_peaks : list peak) (f0_hz : R) : result R :=
  _harmonic_grid_fit_score summary_peaks f0_hz 0.03 SUMMARY_PEAKS.

(** ** Octave corrector *)

(** An element of [scored]: [(cand, fit, cents_shift, in_range)]. *)
Definition scored : Type := (R * R * R * bool)%type.

Definition sc_cand (x : scored) : R := let '(c, _, _, _) := x in c.
Definition sc_fit (x : scored) : R := let '(_, f, _, _) := x in f.
Definition sc_shift (x : scored) : R := let '(_, _, s, _) := x in s.
Definition sc_in_range (x : scored) : bool := let '(_, _, _, r) := x in r.

Definition in_valid_range (f : R) : bool :=
  Py.leb MIN_F0_HZ f && Py.leb f MAX_F0_HZ.

(** The body of the loop over the candidates. *)
Definition score_candidate
    (preliminary_f0_hz : R) (summary_peaks : list peak) (cand : R) : result scored :=
  fit <- harmonic_fit summary_peaks cand ;;
  r <- Py.fdiv (Rmax cand 1e-9) (Rmax preliminary_f0_hz 1e-9) ;;
  l <- Py.math_log2 r ;;
  let cents_shift := Rabs (1200.0 * l) in
  let in_range := in_valid_range cand in
  Ok (cand, fit, cents_shift, in_range).

Fixpoint mapM {A B : Type} (f : A -> result B) (l : list A) : result (list B) :=
  match l with
  | [] => Ok []
  | a :: l' => b <- f a ;; bs <- mapM f l' ;; Ok (b :: bs)
  end.

(** Tuple order on the sort key [(x[1], x[3], -x[2])]; on booleans
    [False < True]. *)
Definition bool_lt (a b : bool) : bool := negb a && b.

Definition key_lt (a b : scored) : bool :=
  Py.ltb (sc_fit a) (sc_fit b)
  || (Py.leb (sc_fit a) (sc_fit b)
      && (bool_lt (sc_in_range a) (sc_in_range b)
          || (Bool.eqb (sc_in_range a) (sc_in_range b)
              && Py.ltb (- sc_shift a) (- sc_shift b)))).

(** [l.sort(key=..., reverse=True)]: descending, equal keys keep their
    original order. *)
Definition sort_reverse {A : Type} (lt : A -> A -> bool) (l : list A) : list A :=
  Py.sort (fun a b => lt b a) l.

Definition candidates_of (preliminary_f0_hz : R) : list R :=
  [preliminary_f0_hz; preliminary_f0_hz / 2.0; preliminary_f0_hz * 2.0].

(** Lines 310-319: [scored[0]] after the sort. *)
Definition choose_candidate
    (preliminary_f0_hz : R) (summary_peaks : list peak) : result scored :=
  sc <- mapM (score_candidate preliminary_f0_hz summary_peaks)
             (candidates_of preliminary_f0_hz) ;;
  match sort_reverse key_lt sc with
  | best :: _ => Ok best
  | [] => Raise IndexError
  end.

Record correction : Type := mkCorrection {
  original_f0_hz : R;
  corrected_f0_hz : R;
  harmonic_fit_before : R;
  harmonic_fit_after : R
}.

Definition _correct_octave_by_harmonic_fit
    (preliminary_f0_hz : R) (summary_peaks : list peak)
    : result (R * R * option correction * bool) :=
  best <- choose_candidate preliminary_f0_hz summary_peaks ;;
  let best_f0 := sc_cand best in
  let best_fit := sc_fit best in
  before_fit <- harmonic_fit summary_peaks preliminary_f0_hz ;;
  ratio <- Py.fdiv (Rmax best_f0 1e-9) (Rmax preliminary_f0_hz 1e-9) ;;
  l <- Py.math_log2 ratio ;;
  let is_octave := Py.ltb 0.9 (Rabs l) && Py.ltb (Rabs l) 1.1 in
  let improved := best_fit - before_fit in
  let accepted := is_octave && Py.leb 0.15 improved && in_valid_range best_f0 in
  let correction :=
    if accepted
    then Some (mkCorrection preliminary_f0_hz best_f0 before_fit best_fit)
    else None in
  Ok (if accepted then best_f0 else preliminary_f0_hz,
      if accepted then best_fit else before_fit,
      correction, accepted).

(** ** Tuning inference: register *)

(** The fields of a bar record that the register pass reads and writes. *)
Record bar : Type := mkBar {
  bar_id : string;
  instrument_id : string;
  position_index : Z;
  f0_hz : R;
  octave_abs : Z;
  within_octave_ratio : R;
  global_order_index : Z
}.

(** Sort key [(f0_hz, instrument_id, position_index)] of [bars_sorted]. *)
Definition bar_key_lt (a b : bar) : bool :=
  Py.ltb (f0_hz a) (f0_hz b)
  || (Py.leb (f0_hz a) (f0_hz b)
      && (String.ltb (instrument_id a) (instrument_id b)
          || (String.eqb (instrument_id a) (instrument_id b)
              && (position_index a <? position_index b)%Z))).

(** Lines 701-705 for one bar in exact arithmetic; [2 ** octave_abs] is
    [powerRZ 2 octave_abs].  The binary64 reading is [F64.assign_register]. *)
Definition assign_register (f_ref : R) (idx : Z) (b : bar) : result bar :=
  let f0 := f0_hz b in
  q <- Py.fdiv f0 f_ref ;;
  l <- Py.math_log2 q ;;
  let octave := Py.floor l in
  within <- Py.fdiv f0 (f_ref * powerRZ 2 octave) ;;
  Ok (mkBar (bar_id b) (instrument_id b) (position_index b) f0 octave within idx).

Fixpoint assign_registers (f_ref : R) (idx : Z) (bars : list bar) : result (list bar) :=
  match bars with
  | [] => Ok []
  | b :: rest =>
    b' <- assign_register f_ref idx b ;;
    rest' <- assign_registers f_ref (idx + 1) rest ;;
    Ok (b' :: rest')
  end.

(** Lines 688-705 of [build_dataset]: sort the bars, take the first one's
    f0 as the reference and assign every register.  The EDO, JI and QC
    fields that the same loop fills in are not part of this record. *)
Definition tuning_registers (bars : list bar) : result (R * list bar) :=
  match Py.sort bar_key_lt bars with
  | [] => Raise IndexError
  | (f_ref_bar :: _) as bars_sorted =>
    let f_ref := f0_hz f_ref_bar in
    out <- assign_registers f_ref 1 bars_sorted ;;
    Ok (f_ref, out)
  end.

(** ** Window selector *)

Definition len {A : Type} (l : list A) : Z := Z.of_nat (length l).

(** [a.reshape(-1, frame)] for an array of [rows * frame] elements. *)
Fixpoint reshape (rows frame : nat) (a : list R) : list (list R) :=
  match rows with
  | O => []
  | S r => firstn frame a :: reshape r frame (skipn frame a)
  end.

(** Lines 212-217: the variance of the short-time RMS energy of the window
    that starts at [s]; [None] when [chunks.size == 0]. *)
Definition window_variance (x : list R) (win frame s : Z) : option R :=
  let segment := Py.slice x s (s + win) in
  let rows := (len segment / frame)%Z in
  let chunks :=
    reshape (Z.to_nat rows) (Z.to_nat frame) (Py.slice segment 0 (rows * frame)) in
  match chunks with
  | [] => None
  | _ :: _ =>
    let rms := map (fun c => sqrt (Py.mean (map (fun v => v * v) c) + 1e-12)) chunks in
    Some (Py.var rms)
  end.

(** Line 218: does a candidate with this variance replace the incumbent? *)
Definition replaces (variance : R) (s : Z) (best_var : option R) (best_start : Z) : bool :=
  match best_var with
  | None => true
  | Some bv =>
    Py.ltb variance (bv - 1e-12)
    || (Py.ltb (Rabs (variance - bv)) 1e-12 && (s >? best_start)%Z)
  end.

(** One iteration of the scan; the state is [(best_start, best_var)]. *)
Definition scan_step (x : list R) (win frame : Z)
    (st : Z * option R) (s : Z) : Z * option R :=
  match window_variance x win frame s with
  | None => st
  | Some variance =>
    if replaces variance s (snd st) (fst st) then (s, Some variance) else st
  end.

Definition window_size (sr available : Z) : Z :=
  let max_win := Py.int (WINDOW_TARGET_S * IZR sr) in
  let min_win := Py.int (WINDOW_MIN_S * IZR sr) in
  let win := Z.min max_win available in
  let win := if (win <? min_win)%Z then Z.max min_win available else win in
  if (win >? available)%Z then available else win.

Definition _pick_stable_window (x : list R) (sr : Z) : result (Z * Z * string) :=
  let n := len x in
  let start_idx := Z.min (Py.int (WINDOW_IGNORE_S * IZR sr)) n in
  let available := (n - start_idx)%Z in
  if (available <=? 0)%Z
  then Ok (0%Z, n, "audio shorter than ignore lead-in; using full signal"%string)
  else
    let win := window_size sr available in
    let frame := Z.max 1 (Py.int (RMS_FRAME_S * IZR sr)) in
    let '(best_start, _) :=
      fold_left (scan_step x win frame)
                (Py.range start_idx (n - win + 1) frame) (start_idx, None) in
    secs <- Py.fdiv (IZR n) (IZR sr) ;;
    let note :=
      if Py.ltb secs 1.2 then "short audio; analysis window reduced"%string
      else ""%string in
    Ok (best_start, (best_start + win)%Z, note).

(** ** Pitch tracker *)

(** [np.hanning(M)]. *)
Definition hanning (M : Z) : list R :=
  if (M <? 1)%Z then []
  else if (M =? 1)%Z then [1]
  else map (fun i => 0.5 - 0.5 * cos (2 * PI * INR i / IZR (M - 1)))
           (seq 0 (Z.to_nat M)).

Definition dot (a b : list R) : R :=
  Py.sum (map (fun uv => fst uv * snd uv) (combine a b)).

(** [np.correlate(f, f, mode="full")[len(f) - 1:]]: the lags 0, 1, ... *)
Definition autocorr (f : list R) : list R :=
  map (fun k => dot f (skipn k f)) (seq 0 (length f)).

(** [np.argmax]: the first position of the largest value. *)
Fixpoint argmax_from (l : list R) (i bi : nat) (bv : R) : nat :=
  match l with
  | [] => bi
  | v :: l' =>
    if Rlt_dec bv v then argmax_from l' (S i) i v
    else argmax_from l' (S i) bi bv
  end.

Definition argmax (l : list R) : nat :=
  match l with
  | [] => O
  | v :: l' => argmax_from l' 1 0 v
  end.

(** Lines 257-271 for the frame that starts at [s]: [(lag, f0, conf)], or
    [None] when the frame is skipped. *)
Definition frame_estimate (x : list R) (sr frame_size lmin lmax : Z)
    (window : list R) (s : Z) : result (option (Z * R * R)) :=
  let frame := map (fun uv => fst uv * snd uv)
                   (combine (Py.slice x s (s + frame_size)) window) in
  let m := Py.mean frame in
  let frame := map (fun v => v - m) frame in
  let ac := autocorr frame in
  if Rle_dec (nth 0 ac 0) 0 then Ok None
  else
    let ac0 := nth 0 ac 0 in
    let ac := map (fun v => v / (ac0 + 1e-12)) ac in
    let search := Py.slice ac lmin lmax in
    match search with
    | [] => Ok None
    | _ :: _ =>
      let lag := (Z.of_nat (argmax search) + lmin)%Z in
      let peak := nth (Z.to_nat lag) ac 0 in
      f0 <- Py.fdiv (IZR sr) (IZR lag) ;;
      Ok (Some (lag, f0, Py.clip peak 0.0 1.0))
    end.

Definition Zltb (a b : Z) : bool := (a <? b)%Z.

(** [int(np.median(lags))]. *)
Definition median_lag_of (lags : list Z) : Z :=
  let sorted := Py.sort Zltb lags in
  let n := length sorted in
  if Nat.even n
  then Py.int ((IZR (nth (n / 2 - 1) sorted 0%Z) + IZR (nth (n / 2) sorted 0%Z)) / 2)
  else Py.int (IZR (nth (n / 2) sorted 0%Z)).

Record f0_meta : Type := mkMeta {
  meta_lmin : Z;
  meta_lmax : Z;
  meta_frame_size : Z;
  meta_hop : Z;
  meta_median_lag : Z;
  meta_notes : list string
}.

Definition frame_size_of (sr : Z) : Z := Z.max 1024 (Py.int (0.046 * IZR sr)).
Definition hop_of (sr : Z) : Z := Z.max 256 (frame_size_of sr / 4).

(** [lmin] and [lmax]; the two divisions are evaluated in this order. *)
Definition lag_bounds (sr : Z) (min_hz max_hz : R) : result (Z * Z) :=
  qa <- Py.fdiv (IZR sr) max_hz ;;
  qb <- Py.fdiv (IZR sr) min_hz ;;
  Ok (Z.max 1 (Py.floor qa), Z.min (frame_size_of sr - 1) (Py.ceil qb)).

(** Line 247-249: zero-padding of a short input. *)
Definition pad_to_frame (x : list R) (frame_size : Z) : list R :=
  if (len x <? frame_size)%Z
  then x ++ repeat 0 (Z.to_nat (frame_size - len x))
  else x.

(** The accumulation of [lags], [f0s] and [confs] over the frames. *)
Definition track_step (x : list R) (sr frame_size lmin lmax : Z) (window : list R)
    (acc : list (Z * R * R)) (s : Z) : result (list (Z * R * R)) :=
  e <- frame_estimate x sr frame_size lmin lmax window s ;;
  match e with
  | None => Ok acc
  | Some t => Ok (acc ++ [t])
  end.

Definition track_frames (x : list R) (sr frame_size hop lmin lmax : Z)
    : result (list (Z * R * R)) :=
  foldM (track_step x sr frame_size lmin lmax (hanning frame_size)) []
        (Py.range 0 (len x - frame_size + 1) hop).

Definition _estimate_f0_acf_with_meta
    (x : list R) (sr : Z) (min_hz max_hz : R) (context : option string)
    : result (list R * list R * f0_meta) :=
  let frame_size := frame_size_of sr in
  let hop := hop_of sr in
  lb <- lag_bounds sr min_hz max_hz ;;
  let '(lmin, lmax) := lb in
  if (lmax <=? lmin)%Z
  then Raise (InvalidLagWindow context lmin lmax frame_size sr min_hz max_hz)
  else
    let notes :=
      if (len x <? frame_size)%Z
      then ["short audio; frame was zero-padded for f0 tracking"%string]
      else [] in
    let x := pad_to_frame x frame_size in
    est <- track_frames x sr frame_size hop lmin lmax ;;
    match est with
    | [] => Raise (UnableToEstimate context)
    | _ :: _ =>
      let lags := map (fun t => fst (fst t)) est in
      let f0s := map (fun t => snd (fst t)) est in
      let confs := map snd est in
      Ok (f0s, confs,
          mkMeta lmin lmax frame_size hop (median_lag_of lags) notes)
    end.

(** ** Partial analyzer *)

(** [np.abs(np.fft.rfft(y))]: the magnitudes of the bins 0 .. N/2 of the
    discrete Fourier transform of the real signal [y] of length N. *)
Definition rfft_mag (y : list R) : list R :=
  let N := length y in
  map (fun j =>
         let angle := fun k : nat => 2 * PI * INR j * INR k / INR N in
         let re := Py.sum (map (fun kv => snd kv * cos (angle (fst kv)))
                               (combine (seq 0 N) y)) in
         let im := Py.sum (map (fun kv => - (snd kv * sin (angle (fst kv))))
                               (combine (seq 0 N) y)) in
         sqrt (re * re + im * im))
      (seq 0 (N / 2 + 1)).

(** [np.fft.rfftfreq(n, d)]. *)
Definition rfftfreq (n : Z) (d : R) : result (list R) :=
  val <- Py.fdiv 1.0 (IZR n * d) ;;
  Ok (map (fun j => INR j * val) (seq 0 (Z.to_nat (n / 2 + 1)))).

(** [np.max] of a non-empty array. *)
Definition np_max (l : list R) : R :=
  match l with
  | [] => 0
  | a :: l' => fold_left Rmax l' a
  end.

(** [v[idx]] for an index array (fancy indexing). *)
Definition take (v : list R) (idx : list nat) : list R :=
  map (fun i => nth i v 0) idx.

Section PartialAnalyzer.

(** [scipy.signal.find_peaks(mag_db, prominence=p)]: the positions of
    the peaks (indices into its argument) and [props["prominences"]]. *)
Variable find_peaks : list R -> R -> list nat * list R.

(** [np.argsort].  numpy's default sort is not stable: which of two
    equal values comes first is left to the implementation. *)
Variable argsort : list R -> list nat.

(** Lines 371-389: the entry built for position [k] of [order]. *)
Definition make_entry (f0_hz : R) (freqs_valid mag_db : list R) (amp_max : R)
    (peaks_idx : list nat) (prominences : list R) (k : nat) : result peak :=
  let idx := nth k peaks_idx O in
  let hz := nth idx freqs_valid 0 in
  let rel_db := nth idx mag_db 0 - amp_max in
  harmonic_ratio <- Py.fdiv hz (Rmax f0_hz 1e-6) ;;
  let harmonic_index := Py.round harmonic_ratio in
  harmonic_guess <-
    (if (harmonic_index <? 1)%Z then Ok None
     else
       d <- Py.fdiv (Rabs (harmonic_ratio - IZR harmonic_index))
                    (IZR harmonic_index) ;;
       if Rlt_dec 0.03 d then Ok None else Ok (Some harmonic_index)) ;;
  let prom :=
    if (k <? length prominences)%nat then nth k prominences 0 else 1.0 in
  q <- Py.fdiv prom (PROMINENCE_DB * 2.0) ;;
  Ok (mkPeak (Some hz) rel_db (Py.clip q 0.0 1.0) harmonic_guess).

(** Lines 360-365: the peak positions and their prominences, with the
    fallback to the top bins when [find_peaks] finds nothing. *)
Definition pick_peaks (mag_valid mag_db : list R) : list nat * list R :=
  let '(peaks_idx, prominences) := find_peaks mag_db PROMINENCE_DB in
  match peaks_idx with
  | [] =>
    let sorted := argsort mag_valid in
    let peaks_idx :=
      Py.slice sorted (- Z.min MAX_PEAKS (len mag_valid)) (len sorted) in
    (peaks_idx, repeat 1.0 (length peaks_idx))
  | _ :: _ => (peaks_idx, prominences)
  end.

Definition mag_db_of (mag_valid : list R) : list R :=
  map (fun m => 20.0 * Py.log10 (Rmax m 1e-12)) mag_valid.

(** Line 368. *)
Definition order_of (mag_db : list R) (peaks_idx : list nat) : list nat :=
  Py.slice (rev (argsort (take mag_db peaks_idx))) 0 MAX_PEAKS.

(** Lines 353-392: from the valid bins to the two peak lists. *)
Definition peaks_from_spectrum (mag_valid freqs_valid : list R) (f0_hz : R)
    : result (list peak * list peak) :=
  match mag_valid with
  | [] => Ok ([], [])
  | _ :: _ =>
    let mag_db := mag_db_of mag_valid in
    let '(peaks_idx, prominences) := pick_peaks mag_valid mag_db in
    let amp_max := np_max mag_db in
    let order := order_of mag_db peaks_idx in
    entries <- mapM (make_entry f0_hz freqs_valid mag_db amp_max
                                peaks_idx prominences) order ;;
    Ok (entries, Py.slice entries 0 SUMMARY_PEAKS)
  end.

(** Lines 337-352: padding, windowing, the spectrum and the bins at or
    above 20 Hz, as [(mag_valid, freqs_valid)]. *)
Definition valid_spectrum (x : list R) (sr : Z) : result (list R * list R) :=
  let n := len x in
  l <- Py.math_log2 (IZR (Z.max 2 n)) ;;
  let fft_n := Z.shiftl 1 (Py.ceil l) in
  let fft_n := Z.min fft_n MAX_FFT in
  let x :=
    if (n <? fft_n)%Z then x ++ repeat 0 (Z.to_nat (fft_n - n))
    else Py.slice x 0 fft_n in
  let win := hanning (len x) in
  let mag := rfft_mag (map (fun uv => fst uv * snd uv) (combine x win)) in
  d <- Py.fdiv 1.0 (IZR sr) ;;
  freqs <- rfftfreq (len x) d ;;
  let valid := filter (fun fm => Py.leb 20.0 (fst fm)) (combine freqs mag) in
  Ok (map snd valid, map fst valid).

Definition _analyze_partials (x : list R) (sr : Z) (f0_hz : R)
    : result (list peak * list peak) :=
  v <- valid_spectrum x sr ;;
  peaks_from_spectrum (fst v) (snd v) f0_hz.

End PartialAnalyzer.

(** A stable [argsort]: one admissible behaviour of [np.argsort]. *)
Definition stable_argsort (v : list R) : list nat :=
  Py.sort (fun i j => Py.ltb (nth i v 0) (nth j v 0)) (seq 0 (length v)).

(** A [find_peaks] that reports no peak. *)
Definition no_peaks (mag_db : list R) (prominence : R) : list nat * list R :=
  ([], []).

(** ** Tuning inference: JI candidates *)

(** The inner [while x % d == 0] loop of [_prime_factors]. *)
Fixpoint divide_out (fuel : nat) (x d : Z) (factors : list Z)
    : option (Z * list Z) :=
  match fuel with
  | O => None
  | S fuel' =>
    if (x mod d =? 0)%Z
    then divide_out fuel' (x / d)%Z d (factors ++ [d])
    else Some (x, factors)
  end.

(** The outer [while d * d <= x] loop. *)
Fixpoint trial_division (fuel : nat) (x d : Z) (factors : list Z)
    : option (Z * list Z) :=
  match fuel with
  | O => None
  | S fuel' =>
    if (d * d <=? x)%Z
    then
      match divide_out (S (Z.to_nat x)) x d factors with
      | None => None
      | Some (x', factors') => trial_division fuel' x' (d + 1)%Z factors'
      end
    else Some (x, factors)
  end.

Definition _prime_factors (n : Z) : option (list Z) :=
  match trial_division (S (Z.to_nat n)) n 2 [] with
  | None => None
  | Some (x, factors) =>
    Some (if (x >? 1)%Z then factors ++ [x] else factors)
  end.

(** [pf and max(pf) > prime_limit]. *)
Definition exceeds (pf : list Z) (prime_limit : Z) : bool :=
  match pf with
  | [] => false
  | a :: l => (fold_left Z.max l a >? prime_limit)%Z
  end.

Record ji_candidate : Type := mkJI {
  ji_p : Z;
  ji_q : Z;
  cents_error : R;
  prime_limit : Z;
  complexity_score : R;
  label : string;
  (* the "_total" entry, which is popped from the returned candidates *)
  ji_total : option R
}.

Definition str (z : Z) : string := NilZero.string_of_int (Z.to_int z).

Definition ji_key : Type := (Z * Z * Z)%type.

Definition key_eqb (a b : ji_key) : bool :=
  let '(a1, a2, a3) := a in
  let '(b1, b2, b3) := b in
  (a1 =? b1)%Z && (a2 =? b2)%Z && (a3 =? b3)%Z.

(** The state of the loops: [(candidates, seen)]. *)
Definition ji_state : Type := (list ji_candidate * list ji_key)%type.

(** Lines 418-441: the body of the loop over [q]. *)
Definition ji_step_q (ratio : R) (limit p : Z) (st : ji_state) (q : Z)
    : result ji_state :=
  match _prime_factors q with
  | None => Raise OutOfFuel
  | Some qf =>
    if exceeds qf limit then Ok st
    else
      let g := Z.gcd p q in
      let pp := (p / g)%Z in
      let qq := (q / g)%Z in
      let key := (pp, qq, limit) in
      if existsb (key_eqb key) (snd st) then Ok st
      else
        rr <- Py.fdiv (IZR pp) (IZR qq) ;;
        e <- Py.fdiv rr ratio ;;
        l <- Py.math_log2 e ;;
        let cents := 1200.0 * l in
        complexity <- Py.math_log2 (IZR (pp * qq)) ;;
        let total := Rabs cents + 6.0 * complexity + 2.0 * IZR (limit - 5) in
        Ok (fst st ++ [mkJI pp qq cents limit complexity
                            (str pp ++ "/" ++ str qq) (Some total)],
            key :: snd st)
  end.

(** Lines 414-417: the body of the loop over [p]. *)
Definition ji_step_p (ratio : R) (limit : Z) (st : ji_state) (p : Z)
    : result ji_state :=
  match _prime_factors p with
  | None => Raise OutOfFuel
  | Some pf =>
    if exceeds pf limit then Ok st
    else foldM (ji_step_q ratio limit p) st (Py.range 1 257 1)
  end.

Definition ji_step_limit (ratio : R) (st : ji_state) (limit : Z) : result ji_state :=
  foldM (ji_step_p ratio limit) st (Py.range 1 257 1).

(** [c["_total"]]. *)
Definition total_of (c : ji_candidate) : result R :=
  match ji_total c with
  | Some t => Ok t
  | None => Raise KeyError
  end.

(** The sort key [(total, abs(cents_error), complexity_score, p, q)]. *)
Definition ji_sort_key : Type := (R * R * R * Z * Z)%type.

Definition sort_key_of (c : ji_candidate) : result ji_sort_key :=
  t <- total_of c ;;
  Ok (t, Rabs (cents_error c), complexity_score c, ji_p c, ji_q c).

Definition lexR (a b : R) (rest : bool) : bool :=
  Py.ltb a b || (Py.leb a b && rest).

Definition lexZ (a b : Z) (rest : bool) : bool :=
  (a <? b)%Z || ((a =? b)%Z && rest).

Definition sort_key_lt (a b : ji_sort_key) : bool :=
  let '(a1, a2, a3, a4, a5) := a in
  let '(b1, b2, b3, b4, b5) := b in
  lexR a1 b1 (lexR a2 b2 (lexR a3 b3 (lexZ a4 b4 (a5 <? b5)%Z))).

(** [c.pop("_total", None)]. *)
Definition pop_total (c : ji_candidate) : ji_candidate :=
  mkJI (ji_p c) (ji_q c) (cents_error c) (prime_limit c)
       (complexity_score c) (label c) None.

Definition _generate_ji_candidates (ratio : R) : result (list ji_candidate) :=
  st <- foldM (ji_step_limit ratio) ([], []) [5; 7; 11; 13]%Z ;;
  keyed <- mapM (fun c => k <- sort_key_of c ;; Ok (k, c)) (fst st) ;;
  let sorted := Py.sort (fun a b => sort_key_lt (fst a) (fst b)) keyed in
  let top := Py.slice (map snd sorted) 0 10 in
  Ok (map pop_total top).

(** ** Vocabulary of the statements *)

(** The strict order of the corrector's sort key [(fit, in_range, -shift)]. *)
Definition Klt (a b : scored) : Prop :=
  sc_fit a < sc_fit b
  \/ (sc_fit a = sc_fit b
      /\ ((sc_in_range a = false /\ sc_in_range b = true)
          \/ (sc_in_range a = sc_in_range b /\ sc_shift b < sc_shift a))).


(** The [cents_shift] of candidate [c] for the preliminary f0 [p]. *)
Definition shift_of (p c : R) : R :=
  Rabs (1200.0 * Py.log2 (Rmax c 1e-9 / Rmax p 1e-9)).

(** What the register pass leaves untouched in a bar. *)
Definition same_bar (b b' : bar) : Prop :=
  bar_id b' = bar_id b
  /\ instrument_id b' = instrument_id b
  /\ position_index b' = position_index b
  /\ f0_hz b' = f0_hz b.

(** The register invariant of one bar for the reference [f_ref]. *)
Definition register_ok (f_ref : R) (b : bar) : Prop :=
  octave_abs b = Py.floor (Py.log2 (f0_hz b / f_ref))
  /\ 1 <= within_octave_ratio b < 2
  /\ f0_hz b = f_ref * powerRZ 2 (octave_abs b) * within_octave_ratio b.

(** The [(start, variance)] pairs that the scan of [_pick_stable_window]
    compares, in scan order (starts whose window has no full RMS frame are
    skipped by the code). *)
Definition scanned (x : list R) (sr : Z) : list (Z * R) :=
  let n := len x in
  let start_idx := Z.min (Py.int (WINDOW_IGNORE_S * IZR sr)) n in
  let available := (n - start_idx)%Z in
  if (available <=? 0)%Z then []
  else
    let win := window_size sr available in
    let frame := Z.max 1 (Py.int (RMS_FRAME_S * IZR sr)) in
    flat_map (fun s => match window_variance x win frame s with
                       | Some v => [(s, v)]
                       | None => []
                       end)
             (Py.range start_idx (n - win + 1) frame).

(** The scan on [(start, variance)] pairs. *)
Definition pair_step (st : Z * option R) (c : Z * R) : Z * option R :=
  if replaces (snd c) (fst c) (snd st) (fst st) then (fst c, Some (snd c)) else st.

(** A two-second recording at [sr = 2] whose three candidate windows have
    the RMS variances 0, 0.64e-12 and 1.500625e-12. *)
Definition drift_wave : list R := [0; 0; 2.4e-6; 4.95e-6].

(** What [make_entry] records for position [k] of [order]. *)
Definition entry_for (freqs_valid mag_db : list R) (amp_max : R)
    (peaks_idx : list nat) (prominences : list R) (k : nat) (e : peak) : Prop :=
  hz e = Some (nth (nth k peaks_idx O) freqs_valid 0)
  /\ rel_amp_db e = nth (nth k peaks_idx O) mag_db 0 - amp_max
  /\ peak_confidence e
     = Py.clip ((if (k <? length prominences)%nat then nth k prominences 0 else 1.0)
                / (PROMINENCE_DB * 2.0)) 0.0 1.0.

(** The deduplication key of a candidate. *)
Definition key_of (c : ji_candidate) : ji_key :=
  (ji_p c, ji_q c, prime_limit c).

(** The composite score, recomputed from the fields that are returned. *)
Definition ji_score (c : ji_candidate) : R :=
  Rabs (cents_error c) + 6.0 * complexity_score c + 2.0 * IZR (prime_limit c - 5).

Definition score_key (c : ji_candidate) : ji_sort_key :=
  (ji_score c, Rabs (cents_error c), complexity_score c, ji_p c, ji_q c).

(** What the loops establish for every candidate they append. *)
Definition ji_wf (ratio : R) (c : ji_candidate) : Prop :=
  (0 < ji_p c)%Z /\ (0 < ji_q c)%Z /\ Z.gcd (ji_p c) (ji_q c) = 1%Z
  /\ In (prime_limit c) [5; 7; 11; 13]%Z
  /\ cents_error c = 1200.0 * Py.log2 (IZR (ji_p c) / IZR (ji_q c) / ratio)
  /\ complexity_score c = Py.log2 (IZR (ji_p c * ji_q c))
  /\ ji_total c = Some (ji_score c).

(** The invariant of the loops on [(candidates, seen)]. *)
Definition ji_inv (ratio : R) (st : ji_state) : Prop :=
  Forall (ji_wf ratio) (fst st)
  /\ (forall k, In k (snd st) -> In k (map key_of (fst st))).

(** [n] passes the prime-limit filter. *)
Definition smoothb (n limit : Z) : bool :=
  match _prime_factors n with
  | Some pf => negb (exceeds pf limit)
  | None => false
  end.

(** Lexicographic order on pairs, and what makes an order strict and total. *)
Definition lexP {A B : Type} (ltA : A -> A -> Prop) (ltB : B -> B -> Prop)
    (x y : A * B) : Prop :=
  ltA (fst x) (fst y) \/ (fst x = fst y /\ ltB (snd x) (snd y)).

Record strict_total {T : Type} (lt : T -> T -> Prop) : Prop := mkStrictTotal {
  st_irrefl : forall a, ~ lt a a;
  st_trans : forall a b c, lt a b -> lt b c -> lt a c;
  st_tri : forall a b, lt a b \/ a = b \/ lt b a
}.

Definition nest (k : ji_sort_key) : R * (R * (R * (Z * Z))) :=
  let '(a1, a2, a3, a4, a5) := k in (a1, (a2, (a3, (a4, a5)))).

(** The tuple order of the JI sort key. *)
Definition key_Lt (a b : ji_sort_key) : Prop :=
  lexP Rlt (lexP Rlt (lexP Rlt (lexP Z.lt Z.lt))) (nest a) (nest b).

(** ** Further vocabulary *)

(** The first analysis frame of [x]: the first [frame_size] samples times
    the Hann window, with their mean removed. *)
Definition first_frame (x : list R) (frame_size : Z) : list R :=
  let fr := map (fun uv => fst uv * snd uv)
                (combine (Py.slice x 0 frame_size) (hanning frame_size)) in
  map (fun v => v - Py.mean fr) fr.

(** The product of a list of factors. *)
Definition product (l : list Z) : Z := fold_right Z.mul 1%Z l.

(** * Binary64 arithmetic

    Where rounding, overflow or NaN decide a property, the code is read
    with Python's floats as what they are: IEEE-754 binary64 numbers, here
    the primitive floats of Rocq, whose operations round to nearest, ties
    to even.  This module embeds the harmonic-grid fit score and the
    register pass of [build_dataset] over them. *)

From Stdlib Require Floats.

Module F64.
Import PrimFloat SpecFloat FloatOps.
Local Set Warnings "-inexact-float".

(** ** Python's operations on floats and ints *)

(** [a / b] on floats. *)
Definition fdiv (a b : float) : result float :=
  if (b =? 0)%float then Raise ZeroDivisionError else Ok (a / b)%float.

(** [max(a, b)]: the second argument is returned only when it is greater. *)
Definition max (a b : float) : float := if (a <? b)%float then b else a.

(** The integer nearest to [m * 2^e], ties to the even one; its floor and
    its ceiling. *)
Definition round_half_even (m : positive) (e : Z) : Z :=
  if (0 <=? e)%Z then (Z.pos m * 2 ^ e)%Z
  else
    let d := (2 ^ (- e))%Z in
    let q := (Z.pos m / d)%Z in
    match (2 * (Z.pos m mod d) ?= d)%Z with
    | Lt => q
    | Gt => (q + 1)%Z
    | Eq => if Z.even q then q else (q + 1)%Z
    end.

Definition floor_pos (m : positive) (e : Z) : Z :=
  if (0 <=? e)%Z then (Z.pos m * 2 ^ e)%Z else (Z.pos m / 2 ^ (- e))%Z.

Definition ceil_pos (m : positive) (e : Z) : Z :=
  if (0 <=? e)%Z then (Z.pos m * 2 ^ e)%Z else (- ((- Z.pos m) / 2 ^ (- e)))%Z.

(** The built-in [round(x)] of a float: an int. *)
Definition round (x : float) : result Z :=
  match Prim2SF x with
  | S754_nan => Raise ValueError
  | S754_infinity _ => Raise OverflowError
  | S754_zero _ => Ok 0%Z
  | S754_finite s m e =>
    Ok (if s then (- round_half_even m e)%Z else round_half_even m e)
  end.

(** [math.floor(x)]. *)
Definition math_floor (x : float) : result Z :=
  match Prim2SF x with
  | S754_nan => Raise ValueError
  | S754_infinity _ => Raise OverflowError
  | S754_zero _ => Ok 0%Z
  | S754_finite s m e => Ok (if s then (- ceil_pos m e)%Z else floor_pos m e)
  end.

(** [float(z)] of an int: the nearest float; an int that rounds beyond the
    largest float raises. *)
Definition int_to_float (z : Z) : result float :=
  if (Z.abs z <? 2 ^ 1024 - 2 ^ 970)%Z
  then Ok (SF2Prim (binary_normalize prec emax z 0 false))
  else Raise OverflowError.

(** [a / b] on ints: the float nearest to the quotient. *)
Definition Z2SF (z : Z) : spec_float :=
  match z with
  | Z0 => S754_zero false
  | Zpos p => S754_finite false p 0
  | Zneg p => S754_finite true p 0
  end.

Definition int_true_div (a b : Z) : result float :=
  if (b =? 0)%Z then Raise ZeroDivisionError
  else
    match SFdiv prec emax (Z2SF a) (Z2SF b) with
    | S754_infinity _ => Raise OverflowError
    | q => Ok (SF2Prim q)
    end.

(** The real number that a finite float stands for. *)
Definition F2R (x : float) : R :=
  match Prim2SF x with
  | S754_finite s m e => (if s then -1 else 1) * IZR (Z.pos m) * powerRZ 2 e
  | _ => 0
  end.

(** The float nearest to a real number, ties to even. *)
Definition R2F (r : R) : float :=
  if Req_dec_T r 0 then zero
  else
    let e := Z.max (Py.floor (Py.log2 (Rabs r))) (-1022) in
    let m := Py.round (Rabs r * powerRZ 2 (52 - e)) in
    let f := SF2Prim (binary_normalize prec emax m (e - 52) false) in
    if Rlt_dec r 0 then (- f)%float else f.

(** [math.log2(x)].  The C library computes it; it is taken to return the
    float nearest to the exact logarithm. *)
Definition math_log2 (x : float) : result float :=
  match Prim2SF x with
  | S754_nan => Ok nan
  | S754_infinity false => Ok infinity
  | S754_finite false _ _ => Ok (R2F (Py.log2 (F2R x)))
  | _ => Raise MathDomainError
  end.

(** [2 ** k] for an int [k]: an int when [k >= 0], else a float. *)
Definition pow2 (k : Z) : result float :=
  if (0 <=? k)%Z then int_to_float (2 ^ k) else Ok (Z.ldexp 1 k).

(** ** Peak dictionaries *)

(** What a dictionary may hold under a key that is read as a number. *)
Inductive pyobj : Type :=
| PyFloat (f : float)
| PyInt (z : Z)
| PyNone.

Definition pydict : Type := list (string * pyobj).

(** [d.get(key, default)]. *)
Fixpoint dict_get (d : pydict) (key : string) (default : pyobj) : pyobj :=
  match d with
  | [] => default
  | (k, v) :: d' => if String.eqb k key then v else dict_get d' key default
  end.

(** [float(v)]. *)
Definition float_of (v : pyobj) : result float :=
  match v with
  | PyFloat f => Ok f
  | PyInt z => int_to_float z
  | PyNone => Raise TypeError
  end.

(** ** Harmonic-grid fit *)

(** One iteration of the loop of [_harmonic_grid_fit_score]. *)
Definition aligned_step (f0_hz tol : float) (aligned : Z) (pk : pydict) : result Z :=
  peak_hz <- float_of (dict_get pk "hz" (PyFloat 0)) ;;
  q <- fdiv peak_hz f0_hz ;;
  harmonic_idx <- round q ;;
  if (harmonic_idx <? 1)%Z then Ok aligned
  else
    h <- int_to_float harmonic_idx ;;
    let target := (h * f0_hz)%float in
    rel_err <- fdiv (abs (peak_hz - target)) (max target 1e-9) ;;
    if (rel_err <=? tol)%float then Ok (aligned + 1)%Z else Ok aligned.

Definition _harmonic_grid_fit_score
    (summary_peaks : list pydict) (f0_hz tol : float) (k_max : Z) : result float :=
  match summary_peaks with
  | [] => Ok 0%float
  | _ :: _ =>
    if (f0_hz <=? 0)%float then Ok 0%float
    else
      let k := Z.min k_max (len summary_peaks) in
      aligned <- foldM (aligned_step f0_hz tol) 0%Z (Py.slice summary_peaks 0 k) ;;
      int_true_div aligned (Z.max k 1)
  end.

(** The exception, if any, that stops the loop at a peak: [float()]
    rejects its [hz], or [hz / f0_hz] is infinite or NaN, which [round]
    rejects. *)
Definition peak_failure (f0_hz : float) (pk : pydict) : option exn :=
  match float_of (dict_get pk "hz" (PyFloat 0)) with
  | Raise e => Some e
  | Ok peak_hz =>
    match Prim2SF (peak_hz / f0_hz) with
    | S754_nan => Some ValueError
    | S754_infinity _ => Some OverflowError
    | _ => None
    end
  end.

Fixpoint first_failure (f0_hz : float) (peaks : list pydict) : option exn :=
  match peaks with
  | [] => None
  | pk :: rest =>
    match peak_failure f0_hz pk with
    | Some e => Some e
    | None => first_failure f0_hz rest
    end
  end.

(** [a / b] is a float between 0 and 1. *)
Definition unit_quotient (a b : Z) : bool :=
  match int_true_div a b with
  | Ok v => ((0 <=? v) && (v <=? 1))%float
  | Raise _ => false
  end.

(** ** Tuning inference: register *)

Record bar : Type := mkBar {
  bar_id : string;
  instrument_id : string;
  position_index : Z;
  f0_hz : float;
  octave_abs : Z;
  within_octave_ratio : float;
  global_order_index : Z
}.

(** Tuple order on the sort key [(f0_hz, instrument_id, position_index)]. *)
Definition bar_key_lt (a b : bar) : bool :=
  if (f0_hz a =? f0_hz b)%float
  then
    if String.eqb (instrument_id a) (instrument_id b)
    then (position_index a <? position_index b)%Z
    else String.ltb (instrument_id a) (instrument_id b)
  else (f0_hz a <? f0_hz b)%float.

(** Lines 701-705 for one bar. *)
Definition assign_register (f_ref : float) (idx : Z) (b : bar) : result bar :=
  let f0 := f0_hz b in
  q <- fdiv f0 f_ref ;;
  l <- math_log2 q ;;
  octave <- math_floor l ;;
  p <- pow2 octave ;;
  within <- fdiv f0 (f_ref * p)%float ;;
  Ok (mkBar (bar_id b) (instrument_id b) (position_index b) f0 octave within idx).

Fixpoint assign_registers (f_ref : float) (idx : Z) (bars : list bar) : result (list bar) :=
  match bars with
  | [] => Ok []
  | b :: rest =>
    b' <- assign_register f_ref idx b ;;
    rest' <- assign_registers f_ref (idx + 1) rest ;;
    Ok (b' :: rest')
  end.

(** Lines 688-705 of [build_dataset]. *)
Definition tuning_registers (bars : list bar) : result (float * list bar) :=
  match Py.sort bar_key_lt bars with
  | [] => Raise IndexError
  | (f_ref_bar :: _) as bars_sorted =>
    let f_ref := f0_hz f_ref_bar in
    out <- assign_registers f_ref 1 bars_sorted ;;
    Ok (f_ref, out)
  end.

End F64.

(** * Properties *)

(** ** Facts about the Python primitives *)

Lemma ltb_true (x y : R) : Py.ltb x y = true <-> x < y.
Proof. unfold Py.ltb. destruct (Rlt_dec x y); split; intros; (assumption || discriminate || reflexivity || contradiction). Qed.

Lemma ltb_false (x y : R) : Py.ltb x y = false <-> y <= x.
Proof.
  unfold Py.ltb. destruct (Rlt_dec x y); split; intros; try discriminate; try reflexivity; lra.
Qed.

Lemma leb_true (x y : R) : Py.leb x y = true <-> x <= y.
Proof. unfold Py.leb. destruct (Rle_dec x y); split; intros; (assumption || discriminate || reflexivity || contradiction). Qed.

Lemma leb_false (x y : R) : Py.leb x y = false <-> y < x.
Proof.
  unfold Py.leb. destruct (Rle_dec x y); split; intros; try discriminate; try reflexivity; lra.
Qed.

Lemma floor_spec (x : R) : IZR (Py.floor x) <= x < IZR (Py.floor x) + 1.
Proof.
  unfold Py.floor. destruct (archimed x) as [H1 H2].
  rewrite minus_IZR. lra.
Qed.

Lemma floor_unique (x : R) (z : Z) : IZR z <= x < IZR z + 1 -> Py.floor x = z.
Proof.
  intros [H1 H2]. unfold Py.floor.
  assert (E : (z + 1)%Z = up x).
  { apply tech_up; rewrite plus_IZR; lra. }
  lia.
Qed.

Lemma floor_IZR (z : Z) : Py.floor (IZR z) = z.
Proof. apply floor_unique. lra. Qed.

Lemma ceil_IZR (z : Z) : Py.ceil (IZR z) = z.
Proof. unfold Py.ceil. rewrite <- opp_IZR, floor_IZR. lia. Qed.

Lemma floor_nonneg (x : R) : 0 <= x -> (0 <= Py.floor x)%Z.
Proof.
  intros H. destruct (floor_spec x) as [_ H2].
  assert (H3 : IZR (-1) < IZR (Py.floor x)) by (simpl; lra).
  apply lt_IZR in H3. lia.
Qed.

Lemma int_nonneg (x : R) : 0 <= x -> (0 <= Py.int x)%Z.
Proof.
  intros H. unfold Py.int. destruct (Rle_dec 0 x); [|contradiction].
  now apply floor_nonneg.
Qed.

Lemma int_IZR (z : Z) : Py.int (IZR z) = z.
Proof.
  unfold Py.int. destruct (Rle_dec 0 (IZR z)); [apply floor_IZR | apply ceil_IZR].
Qed.

Lemma fdiv_ok (a b : R) : b <> 0 -> Py.fdiv a b = Ok (a / b).
Proof. intros H. unfold Py.fdiv. destruct (Req_dec_T b 0); [contradiction | reflexivity]. Qed.

Lemma math_log2_ok (x : R) : 0 < x -> Py.math_log2 x = Ok (Py.log2 x).
Proof. intros H. unfold Py.math_log2. destruct (Rlt_dec 0 x); [reflexivity | contradiction]. Qed.

Lemma ln2_pos : 0 < ln 2.
Proof. rewrite <- ln_1. apply ln_increasing; lra. Qed.

Lemma log2_1 : Py.log2 1 = 0.
Proof. unfold Py.log2. rewrite ln_1. unfold Rdiv. apply Rmult_0_l. Qed.

Lemma log2_2 : Py.log2 2 = 1.
Proof. unfold Py.log2. field. pose proof ln2_pos. lra. Qed.

Lemma log2_inv (x : R) : 0 < x -> Py.log2 (/ x) = - Py.log2 x.
Proof. intros H. unfold Py.log2. rewrite ln_Rinv by assumption. field. pose proof ln2_pos. lra. Qed.

Lemma log2_mult (x y : R) : 0 < x -> 0 < y -> Py.log2 (x * y) = Py.log2 x + Py.log2 y.
Proof. intros. unfold Py.log2. rewrite ln_mult by assumption. field. pose proof ln2_pos. lra. Qed.

Lemma log2_lt (x y : R) : 0 < x -> x < y -> Py.log2 x < Py.log2 y.
Proof.
  intros Hx Hxy. unfold Py.log2. apply Rmult_lt_compat_r.
  - apply Rinv_0_lt_compat, ln2_pos.
  - now apply ln_increasing.
Qed.

Lemma log2_le (x y : R) : 0 < x -> x <= y -> Py.log2 x <= Py.log2 y.
Proof.
  intros Hx [H | ->]; [left; now apply log2_lt | right; reflexivity].
Qed.

Lemma log2_powerRZ (z : Z) : Py.log2 (powerRZ 2 z) = IZR z.
Proof.
  unfold Py.log2. rewrite powerRZ_Rpower by lra. unfold Rpower.
  rewrite ln_exp. field. pose proof ln2_pos. lra.
Qed.

(** Slices that start at 0 are prefixes. *)
Lemma slice_0 {A : Type} (l : list A) (k : Z) :
  (0 <= k)%Z -> Py.slice l 0 k = firstn (Z.to_nat k) l.
Proof.
  intros Hk. unfold Py.slice, Py.norm_index.
  destruct (0 <? 0)%Z eqn:E0; [lia|].
  destruct (k <? 0)%Z eqn:Ek; [lia|].
  replace (Z.to_nat (Z.min 0 (Z.of_nat (length l)))) with O by lia.
  replace (Z.min 0 (Z.of_nat (length l))) with 0%Z by lia.
  rewrite Z.sub_0_r. cbn [skipn].
  destruct (Z.min_spec k (Z.of_nat (length l))) as [[H ->] | [H ->]].
  - reflexivity.
  - rewrite Nat2Z.id. rewrite !firstn_all2; [reflexivity | lia | lia].
Qed.

(** ** The stable sort *)

Section Sorting.
Context {A : Type} (lt : A -> A -> bool).

Lemma insert_perm (x : A) (l : list A) : Permutation (x :: l) (Py.insert lt x l).
Proof.
  induction l as [|y l IH]; simpl; [reflexivity|].
  destruct (lt y x); [|reflexivity].
  rewrite perm_swap. now apply perm_skip.
Qed.

Lemma sort_perm (l : list A) : Permutation l (Py.sort lt l).
Proof.
  induction l as [|x l IH]; simpl; [reflexivity|].
  rewrite <- insert_perm. now apply perm_skip.
Qed.

Lemma sort_length (l : list A) : length (Py.sort lt l) = length l.
Proof. symmetry. apply Permutation_length, sort_perm. Qed.

Lemma sort_In (l : list A) (x : A) : In x (Py.sort lt l) <-> In x l.
Proof.
  split; intros H.
  - eapply Permutation_in; [symmetry; apply sort_perm | exact H].
  - eapply Permutation_in; [apply sort_perm | exact H].
Qed.

(** Stability, as far as the first element goes: whatever stands before
    it in the input is strictly after it in the order. *)
Lemma sort_head_first (l : list A) (b : A) (rest : list A) :
  Py.sort lt l = b :: rest ->
  exists l1 l2, l = l1 ++ b :: l2 /\ Forall (fun x => lt b x = true) l1.
Proof.
  revert b rest. induction l as [|x l IH]; intros b rest E; [discriminate|].
  cbn [Py.sort] in E. destruct (Py.sort lt l) as [|y r] eqn:Es.
  - assert (l = []) as ->.
    { apply length_zero_iff_nil. rewrite <- sort_length, Es. reflexivity. }
    cbn in E. injection E as <- <-. exists [], []. split; [reflexivity | constructor].
  - cbn [Py.insert] in E. destruct (lt y x) eqn:Eyx.
    + injection E as <- <-.
      destruct (IH y r eq_refl) as [l1 [l2 [-> Hall]]].
      exists (x :: l1), l2. split; [reflexivity | now constructor].
    + injection E as <- <-. exists [], l. split; [reflexivity | constructor].
Qed.

(** When [lt] is a strict weak order, the output is sorted: no element
    is strictly below an earlier one. *)
Hypothesis lt_asym : forall a b, lt a b = true -> lt b a = false.
Hypothesis ge_trans : forall a b c, lt b a = false -> lt c b = false -> lt c a = false.

Lemma insert_sorted (x : A) (l : list A) :
  StronglySorted (fun a b => lt b a = false) l ->
  StronglySorted (fun a b => lt b a = false) (Py.insert lt x l).
Proof.
  induction l as [|y l IH]; intros Hs; simpl.
  - constructor; constructor.
  - inversion Hs as [|? ? Hs' Hall]; subst.
    destruct (lt y x) eqn:E.
    + constructor; [now apply IH|].
      rewrite Forall_forall in *. intros z Hz.
      apply (Permutation_in _ (Permutation_sym (insert_perm x l))) in Hz.
      destruct Hz as [<- | Hz]; [now apply lt_asym | now apply Hall].
    + constructor; [exact Hs|].
      constructor; [exact E|].
      rewrite Forall_forall in *. intros z Hz.
      apply (ge_trans x y z); [exact E | now apply Hall].
Qed.

Lemma sort_sorted (l : list A) :
  StronglySorted (fun a b => lt b a = false) (Py.sort lt l).
Proof.
  induction l as [|x l IH]; simpl; [constructor | now apply insert_sorted].
Qed.

(** The first element of the output is not below any element of the input. *)
Lemma sort_head_min (l : list A) (b : A) (rest : list A) :
  Py.sort lt l = b :: rest -> forall x, In x l -> b = x \/ lt x b = false.
Proof.
  intros E x Hx. apply sort_In in Hx. rewrite E in Hx.
  pose proof (sort_sorted l) as Hs. rewrite E in Hs.
  inversion Hs as [|? ? _ Hall]; subst.
  destruct Hx as [-> | Hx]; [now left | right].
  rewrite Forall_forall in Hall. now apply Hall.
Qed.

End Sorting.

(** ** Harmonic-grid fit score *)

Lemma aligned_step_ok (f0 tol : R) (a : Z) (pk : peak) :
  0 < f0 ->
  exists a', aligned_step f0 tol a pk = Ok a' /\ (a <= a' <= a + 1)%Z.
Proof.
  intros Hf. unfold aligned_step.
  rewrite fdiv_ok by lra. cbn [bind].
  destruct (Py.round (peak_get_hz pk / f0) <? 1)%Z.
  - exists a. split; [reflexivity | lia].
  - rewrite fdiv_ok.
    + cbn [bind]. destruct (Rle_dec _ tol).
      * exists (a + 1)%Z. split; [reflexivity | lia].
      * exists a. split; [reflexivity | lia].
    + pose proof (Rmax_r (IZR (Py.round (peak_get_hz pk / f0)) * f0) 1e-9). lra.
Qed.

Lemma aligned_fold_ok (f0 tol : R) (l : list peak) (a : Z) :
  0 < f0 ->
  exists a', foldM (aligned_step f0 tol) a l = Ok a'
             /\ (a <= a' <= a + Z.of_nat (length l))%Z.
Proof.
  intros Hf. revert a. induction l as [|pk l IH]; intros a.
  - exists a. split; [reflexivity | simpl; lia].
  - destruct (aligned_step_ok f0 tol a pk Hf) as [a1 [E1 B1]].
    destruct (IH a1) as [a2 [E2 B2]].
    exists a2. split.
    + cbn [foldM]. rewrite E1. cbn [bind]. exact E2.
    + cbn [length]. lia.
Qed.

(** The score for any [k_max >= 0]: a value between 0 and 1, and 0 on an
    empty peak list or a non-positive fundamental. *)
Lemma fit_score_bounded (peaks : list peak) (f0 tol : R) (k_max : Z) :
  (0 <= k_max)%Z ->
  exists v, _harmonic_grid_fit_score peaks f0 tol k_max = Ok v
            /\ 0 <= v <= 1
            /\ (peaks = [] \/ f0 <= 0 -> v = 0).
Proof.
  intros Hk. unfold _harmonic_grid_fit_score.
  destruct peaks as [|pk peaks].
  - exists 0.0. repeat split; lra.
  - destruct (Rle_dec f0 0) as [Hle | Hgt].
    + exists 0.0. repeat split; lra.
    + set (l := pk :: peaks).
      set (k := Z.min k_max (Z.of_nat (length l))).
      assert (Hk0 : (0 <= k)%Z) by (unfold k; lia).
      assert (Hf : 0 < f0) by lra.
      destruct (aligned_fold_ok f0 tol (Py.slice l 0 k) 0%Z Hf) as [a [E B]].
      rewrite E. cbn [bind].
      assert (Hlen : (Z.of_nat (length (Py.slice l 0 k)) <= Z.max k 1)%Z).
      { rewrite slice_0 by assumption. rewrite length_firstn. lia. }
      assert (Hm : 0 < IZR (Z.max k 1)) by (apply IZR_lt; lia).
      rewrite fdiv_ok by lra.
      exists (IZR a / IZR (Z.max k 1)). split; [reflexivity|]. split.
      * assert (Ha0 : 0 <= IZR a) by (apply IZR_le; lia).
        assert (Ha1 : IZR a <= IZR (Z.max k 1)) by (apply IZR_le; lia).
        split.
        -- apply Rmult_le_pos; [assumption | left; now apply Rinv_0_lt_compat].
        -- apply Rmult_le_reg_r with (IZR (Z.max k 1)); [assumption|].
           unfold Rdiv. rewrite Rmult_assoc, Rinv_l by lra. lra.
      * intros [Habs | Habs]; [discriminate | lra].
Qed.

(** ** Octave corrector *)

Lemma key_lt_true (a b : scored) : key_lt a b = true <-> Klt a b.
Proof.
  unfold key_lt, Klt, bool_lt.
  rewrite !orb_true_iff, !andb_true_iff, !orb_true_iff, !andb_true_iff.
  rewrite !ltb_true, leb_true, negb_true_iff, eqb_true_iff.
  split.
  - intros [H | [H1 H2]]; [now left|].
    destruct (Rle_lt_or_eq_dec _ _ H1) as [Hlt | Heq]; [now left|].
    right. split; [exact Heq|].
    destruct H2 as [H2 | [H2 H3]]; [now left | right; split; [exact H2 | lra]].
  - intros [H | [H1 H2]]; [now left|].
    right. split; [lra|].
    destruct H2 as [H2 | [H2 H3]]; [now left | right; split; [exact H2 | lra]].
Qed.

Lemma key_lt_false (a b : scored) : key_lt a b = false <-> ~ Klt a b.
Proof.
  rewrite <- key_lt_true. destruct (key_lt a b); split; intros H;
    try reflexivity; try discriminate; try (intros ?; discriminate).
  exfalso. now apply H.
Qed.

Lemma Klt_asym (a b : scored) : Klt a b -> ~ Klt b a.
Proof.
  unfold Klt. destruct (sc_in_range a), (sc_in_range b);
    intros [H | [H1 [[H2 H3] | [H2 H3]]]] [G | [G1 [[G2 G3] | [G2 G3]]]];
    try discriminate; lra.
Qed.

Lemma Klt_neg_trans (a b c : scored) : ~ Klt a b -> ~ Klt b c -> ~ Klt a c.
Proof.
  unfold Klt. intros H1 H2 H3.
  destruct (Rtotal_order (sc_fit a) (sc_fit b)) as [F1 | [F1 | F1]];
    [apply H1; now left | |].
  2:{ destruct (Rtotal_order (sc_fit b) (sc_fit c)) as [F2 | [F2 | F2]];
        [apply H2; now left | |]; destruct H3 as [H3 | [H3 _]]; lra. }
  destruct (Rtotal_order (sc_fit b) (sc_fit c)) as [F2 | [F2 | F2]];
    [apply H2; now left | |].
  2:{ destruct H3 as [H3 | [H3 _]]; lra. }
  assert (N1 : ~ (sc_in_range a = false /\ sc_in_range b = true)).
  { intros N. apply H1. right. split; [exact F1 | now left]. }
  assert (M1 : sc_in_range a = sc_in_range b -> sc_shift a <= sc_shift b).
  { intros E. destruct (Rlt_le_dec (sc_shift b) (sc_shift a)); [|assumption].
    exfalso. apply H1. right. split; [exact F1 | right; split; assumption]. }
  assert (N2 : ~ (sc_in_range b = false /\ sc_in_range c = true)).
  { intros N. apply H2. right. split; [exact F2 | now left]. }
  assert (M2 : sc_in_range b = sc_in_range c -> sc_shift b <= sc_shift c).
  { intros E. destruct (Rlt_le_dec (sc_shift c) (sc_shift b)); [|assumption].
    exfalso. apply H2. right. split; [exact F2 | right; split; assumption]. }
  destruct H3 as [H3 | [_ H3]]; [lra|].
  clear H1 H2. revert N1 M1 N2 M2 H3.
  destruct (sc_in_range a), (sc_in_range b), (sc_in_range c);
    intros N1 M1 N2 M2 [[X Y] | [X Y]]; try discriminate;
    try (specialize (M1 eq_refl)); try (specialize (M2 eq_refl)); try lra;
    try (apply N1; split; reflexivity); try (apply N2; split; reflexivity).
Qed.

Lemma harmonic_fit_ok (peaks : list peak) (f : R) :
  exists v, harmonic_fit peaks f = Ok v /\ 0 <= v <= 1.
Proof.
  destruct (fit_score_bounded peaks f 0.03 SUMMARY_PEAKS) as [v [E [B _]]];
    [unfold SUMMARY_PEAKS; lia|].
  exists v. split; assumption.
Qed.

Lemma Rmax_eps_pos (x e : R) : 0 < e -> 0 < Rmax x e.
Proof. intros H. pose proof (Rmax_r x e). lra. Qed.

Lemma clamp_ratio_pos (c p : R) : 0 < Rmax c 1e-9 / Rmax p 1e-9.
Proof.
  apply Rdiv_lt_0_compat; apply Rmax_eps_pos; lra.
Qed.

Lemma score_candidate_ok (p : R) (peaks : list peak) (c : R) :
  exists fit,
    harmonic_fit peaks c = Ok fit
    /\ score_candidate p peaks c = Ok (c, fit, shift_of p c, in_valid_range c).
Proof.
  destruct (harmonic_fit_ok peaks c) as [fit [E _]].
  exists fit. split; [exact E|].
  unfold score_candidate. rewrite E. cbn [bind].
  rewrite fdiv_ok by (pose proof (Rmax_eps_pos p 1e-9); lra). cbn [bind].
  rewrite math_log2_ok by apply clamp_ratio_pos. reflexivity.
Qed.

Lemma scored_ok (p : R) (peaks : list peak) :
  exists f1 f2 f3,
    harmonic_fit peaks p = Ok f1
    /\ harmonic_fit peaks (p / 2.0) = Ok f2
    /\ harmonic_fit peaks (p * 2.0) = Ok f3
    /\ mapM (score_candidate p peaks) (candidates_of p)
       = Ok [(p, f1, shift_of p p, in_valid_range p);
             (p / 2.0, f2, shift_of p (p / 2.0), in_valid_range (p / 2.0));
             (p * 2.0, f3, shift_of p (p * 2.0), in_valid_range (p * 2.0))].
Proof.
  destruct (score_candidate_ok p peaks p) as [f1 [E1 S1]].
  destruct (score_candidate_ok p peaks (p / 2.0)) as [f2 [E2 S2]].
  destruct (score_candidate_ok p peaks (p * 2.0)) as [f3 [E3 S3]].
  exists f1, f2, f3. repeat split; try assumption.
  unfold candidates_of. cbn [mapM]. rewrite S1, S2, S3. reflexivity.
Qed.

Lemma sort_reverse_key_sorted_head (sc : list scored) (b : scored) (rest : list scored) :
  sort_reverse key_lt sc = b :: rest ->
  In b sc
  /\ (forall x, In x sc -> ~ Klt b x)
  /\ exists l1 l2, sc = l1 ++ b :: l2 /\ Forall (fun x => Klt x b) l1.
Proof.
  unfold sort_reverse. intros E. split; [|split].
  - apply (sort_In (fun a b => key_lt b a) sc b). rewrite E. now left.
  - intros x Hx.
    destruct (sort_head_min (fun a b => key_lt b a)) with (l := sc) (b := b) (rest := rest) (x := x)
      as [-> | H]; try assumption.
    + intros a0 b0 H. apply key_lt_false. apply key_lt_true in H. now apply Klt_asym.
    + intros a0 b0 c0 H1 H2. apply key_lt_false.
      apply key_lt_false in H1. apply key_lt_false in H2.
      now apply (Klt_neg_trans a0 b0 c0).
    + intros H. now apply (Klt_asym x x).
    + now apply key_lt_false.
  - destruct (sort_head_first _ sc b rest E) as [l1 [l2 [-> Hall]]].
    exists l1, l2. split; [reflexivity|].
    rewrite Forall_forall in *. intros x Hx. apply key_lt_true. now apply Hall.
Qed.

Lemma choose_candidate_ok (p : R) (peaks : list peak) :
  exists sc best l1 l2,
    mapM (score_candidate p peaks) (candidates_of p) = Ok sc
    /\ choose_candidate p peaks = Ok best
    /\ sc = l1 ++ best :: l2
    /\ (forall x, In x sc -> ~ Klt best x)
    /\ Forall (fun x => Klt x best) l1
    /\ (sc_cand best = p \/ sc_cand best = p / 2.0 \/ sc_cand best = p * 2.0)
    /\ harmonic_fit peaks (sc_cand best) = Ok (sc_fit best)
    /\ sc_shift best = shift_of p (sc_cand best)
    /\ sc_in_range best = in_valid_range (sc_cand best).
Proof.
  destruct (scored_ok p peaks) as [f1 [f2 [f3 [E1 [E2 [E3 Em]]]]]].
  eexists. unfold choose_candidate. rewrite Em. cbn [bind].
  match goal with |- context [sort_reverse key_lt ?l] => set (sc := l) end.
  destruct (sort_reverse key_lt sc) as [|best rest] eqn:Es.
  { exfalso. assert (H : length (sort_reverse key_lt sc) = 3%nat)
      by (unfold sort_reverse; rewrite sort_length; reflexivity).
    rewrite Es in H. discriminate. }
  destruct (sort_reverse_key_sorted_head sc best rest Es) as [Hin [Hmax [l1 [l2 [Hsplit Hpre]]]]].
  exists best, l1, l2.
  split; [reflexivity|]. split; [reflexivity|]. split; [exact Hsplit|].
  split; [exact Hmax|]. split; [exact Hpre|].
  destruct Hin as [<- | [<- | [<- | []]]]; cbn; auto.
Qed.

(** C5 (as the code has it).  The corrector scores [f0], [f0/2] and [f0*2]
    in this order and picks the candidate that maximizes the harmonic-grid
    fit first and membership of the valid range second; among candidates
    tied on both it picks one with the smallest octave shift, so the
    preliminary f0 itself wins such a tie.  Every candidate scored before
    the chosen one is strictly worse in this order: full ties go to the
    earlier candidate. *)
Theorem choose_candidate_prefers_fit_range_smaller_shift (p : R) (peaks : list peak) :
  exists sc best l1 l2,
    mapM (score_candidate p peaks) (candidates_of p) = Ok sc
    /\ map sc_cand sc = candidates_of p
    /\ choose_candidate p peaks = Ok best
    /\ sc = l1 ++ best :: l2
    /\ (forall c, In c sc ->
          sc_fit c < sc_fit best
          \/ (sc_fit c = sc_fit best
              /\ ((sc_in_range c = false /\ sc_in_range best = true)
                  \/ (sc_in_range c = sc_in_range best
                      /\ sc_shift best <= sc_shift c))))
    /\ Forall (fun c => Klt c best) l1.
Proof.
  destruct (choose_candidate_ok p peaks)
    as [sc [best [l1 [l2 [Em [Ec [Hs [Hmax [Hpre _]]]]]]]]].
  exists sc, best, l1, l2.
  split; [exact Em|]. split.
  { destruct (scored_ok p peaks) as [f1 [f2 [f3 [_ [_ [_ Em']]]]]].
    rewrite Em' in Em. injection Em as <-. reflexivity. }
  split; [exact Ec|]. split; [exact Hs|]. split; [|exact Hpre].
  intros c Hc. specialize (Hmax c Hc). unfold Klt in Hmax.
  destruct (Rtotal_order (sc_fit c) (sc_fit best)) as [F | [F | F]].
  - now left.
  - right. split; [exact F|].
    destruct (sc_in_range c) eqn:Rc, (sc_in_range best) eqn:Rb.
    + right. split; [reflexivity|].
      destruct (Rle_lt_dec (sc_shift best) (sc_shift c)) as [S | S]; [exact S|].
      exfalso. apply Hmax. right. split; [lra | right; split; [reflexivity | exact S]].
    + exfalso. apply Hmax. right. split; [lra | left; split; reflexivity].
    + left. split; reflexivity.
    + right. split; [reflexivity|].
      destruct (Rle_lt_dec (sc_shift best) (sc_shift c)) as [S | S]; [exact S|].
      exfalso. apply Hmax. right. split; [lra | right; split; [reflexivity | exact S]].
  - exfalso. apply Hmax. now left.
Qed.

Lemma shift_self (p : R) : shift_of p p = 0.
Proof.
  unfold shift_of.
  replace (Rmax p 1e-9 / Rmax p 1e-9) with 1
    by (field; pose proof (Rmax_eps_pos p 1e-9); lra).
  rewrite log2_1, Rmult_0_r. apply Rabs_R0.
Qed.

Lemma shift_half_100 : shift_of 100 (100 / 2.0) = 1200.
Proof.
  unfold shift_of. rewrite !Rmax_left by lra.
  replace (100 / 2.0 / 100) with (/ 2) by lra.
  rewrite log2_inv by lra.
  replace (1200.0 * - Py.log2 2) with (- (1200)) by (rewrite log2_2; lra).
  rewrite Rabs_Ropp. apply Rabs_right. lra.
Qed.

Lemma in_valid_range_true (f : R) :
  in_valid_range f = true <-> MIN_F0_HZ <= f <= MAX_F0_HZ.
Proof.
  unfold in_valid_range. rewrite andb_true_iff, !leb_true. tauto.
Qed.

(** C5, the claim as stated fails.  For a preliminary f0 of 100 Hz and no
    summary peaks all three candidates have fit 0 and lie in the valid
    range; the corrector picks 100 Hz (shift 0), not the candidate 50 Hz,
    which ties on fit and range and has the larger shift (1200 cents). *)
Lemma larger_shift_does_not_win :
  exists sc best c,
    mapM (score_candidate 100 []) (candidates_of 100) = Ok sc
    /\ choose_candidate 100 [] = Ok best
    /\ sc_cand best = 100
    /\ In c sc /\ sc_cand c = 100 / 2.0
    /\ sc_fit c = sc_fit best
    /\ sc_in_range c = sc_in_range best
    /\ sc_shift best < sc_shift c.
Proof.
  destruct (choose_candidate_ok 100 [])
    as [sc [best [l1 [l2 [Em [Ec [Hs [Hmax [Hpre _]]]]]]]]].
  destruct (scored_ok 100 []) as [f1 [f2 [f3 [E1 [E2 [E3 Em']]]]]].
  cbn in E1, E2, E3. injection E1 as <-. injection E2 as <-. injection E3 as <-.
  assert (R1 : in_valid_range 100 = true)
    by (apply in_valid_range_true; unfold MIN_F0_HZ, MAX_F0_HZ; lra).
  assert (R2 : in_valid_range (100 / 2.0) = true)
    by (apply in_valid_range_true; unfold MIN_F0_HZ, MAX_F0_HZ; lra).
  rewrite R1, R2, shift_self, shift_half_100 in Em'.
  rewrite Em' in Em. injection Em as Esc. subst sc.
  assert (Hb : best = (100, 0.0, 0, true)).
  { destruct l1 as [|x l1].
    - cbn in Hs. now injection Hs as <- _.
    - exfalso. cbn in Hs. injection Hs as <- Hs.
      inversion Hpre as [|? ? Hk _]; subst.
      assert (Hbin : In best [(100 / 2.0, 0.0, 1200, true);
                              (100 * 2.0, 0.0, shift_of 100 (100 * 2.0),
                               in_valid_range (100 * 2.0))])
        by (rewrite Hs; apply in_elt).
      unfold Klt in Hk. cbn in Hk, Hbin.
      destruct Hbin as [<- | [<- | []]]; cbn in Hk.
      + destruct Hk as [Hk | [_ [[Hk _] | [_ Hk]]]]; try discriminate; lra.
      + pose proof (Rabs_pos (1200.0 * Py.log2 (Rmax (100 * 2.0) 1e-9 / Rmax 100 1e-9))).
        unfold shift_of in Hk.
        destruct Hk as [Hk | [_ [[Hk _] | [_ Hk]]]]; try discriminate; lra. }
  eexists. exists best, (100 / 2.0, 0.0, 1200, true).
  split; [exact Em'|].
  split; [exact Ec|]. subst best. cbn.
  split; [reflexivity|]. split; [right; left; reflexivity|].
  repeat split; lra.
Qed.

(** Inside the valid range the two clamps of the octave test do nothing. *)
Lemma clamped_ratio_in_range (p b : R) :
  b = p \/ b = p / 2.0 \/ b = p * 2.0 ->
  MIN_F0_HZ <= b <= MAX_F0_HZ ->
  Rmax b 1e-9 / Rmax p 1e-9 = b / p.
Proof.
  unfold MIN_F0_HZ, MAX_F0_HZ. intros Hb Hr.
  assert (Hp : 1e-9 <= p) by (destruct Hb as [-> | [-> | ->]]; lra).
  rewrite !Rmax_left by lra. reflexivity.
Qed.

(** C3.  The corrector never raises, and it accepts the chosen candidate
    exactly when the three conditions hold together: the magnitude of
    log2(chosen / preliminary) lies strictly between 0.9 and 1.1, the fit
    of the chosen candidate exceeds the fit of the preliminary f0 by at
    least 0.15, and the chosen candidate lies in [40, 2000] Hz.  When it
    accepts, it returns the chosen f0, its fit and the record
    {original, corrected, fit before, fit after}; otherwise it returns the
    preliminary f0 with its own fit and no record. *)
Theorem correct_octave_accepts_iff (p : R) (peaks : list peak) :
  exists best before_fit,
    choose_candidate p peaks = Ok best
    /\ harmonic_fit peaks (sc_cand best) = Ok (sc_fit best)
    /\ harmonic_fit peaks p = Ok before_fit
    /\ ((0.9 < Rabs (Py.log2 (sc_cand best / p)) < 1.1
         /\ 0.15 <= sc_fit best - before_fit
         /\ MIN_F0_HZ <= sc_cand best <= MAX_F0_HZ)
        -> _correct_octave_by_harmonic_fit p peaks
           = Ok (sc_cand best, sc_fit best,
                 Some (mkCorrection p (sc_cand best) before_fit (sc_fit best)),
                 true))
    /\ (~ (0.9 < Rabs (Py.log2 (sc_cand best / p)) < 1.1
           /\ 0.15 <= sc_fit best - before_fit
           /\ MIN_F0_HZ <= sc_cand best <= MAX_F0_HZ)
        -> _correct_octave_by_harmonic_fit p peaks
           = Ok (p, before_fit, None, false)).
Proof.
  destruct (choose_candidate_ok p peaks)
    as [sc [best [l1 [l2 [_ [Ec [_ [_ [_ [Hcand [Hfit _]]]]]]]]]]].
  destruct (harmonic_fit_ok peaks p) as [before_fit [Eb _]].
  exists best, before_fit.
  split; [exact Ec|]. split; [exact Hfit|]. split; [exact Eb|].
  unfold _correct_octave_by_harmonic_fit.
  rewrite Ec. cbn [bind]. rewrite Eb. cbn [bind].
  rewrite fdiv_ok by (pose proof (Rmax_eps_pos p 1e-9); lra). cbn [bind].
  rewrite math_log2_ok by apply clamp_ratio_pos. cbn [bind].
  set (l := Py.log2 (Rmax (sc_cand best) 1e-9 / Rmax p 1e-9)).
  set (acc := Py.ltb 0.9 (Rabs l) && Py.ltb (Rabs l) 1.1
              && Py.leb 0.15 (sc_fit best - before_fit)
              && in_valid_range (sc_cand best)).
  assert (Hacc : acc = true <->
                 (0.9 < Rabs (Py.log2 (sc_cand best / p)) < 1.1
                  /\ 0.15 <= sc_fit best - before_fit
                  /\ MIN_F0_HZ <= sc_cand best <= MAX_F0_HZ)).
  { unfold acc. rewrite !andb_true_iff, !ltb_true, leb_true, in_valid_range_true.
    split.
    - intros [[[H1 H2] H3] H4].
      unfold l in H1, H2. rewrite (clamped_ratio_in_range p _ Hcand H4) in H1, H2.
      tauto.
    - intros [[H1 H2] [H3 H4]].
      unfold l. rewrite (clamped_ratio_in_range p _ Hcand H4). tauto. }
  split; intros H.
  - apply Hacc in H. rewrite H. reflexivity.
  - destruct acc; [exfalso; apply H, Hacc; reflexivity | reflexivity].
Qed.

(** *** The corrector on a single peak *)

Lemma round_half : Py.round (1 / 2) = 0%Z.
Proof.
  unfold Py.round. rewrite (floor_unique (1 / 2) 0) by lra.
  destruct (Rlt_dec (1 / 2 - 0) (1 / 2)); [lra|].
  destruct (Rlt_dec (1 / 2) (1 / 2 - 0)); [lra | reflexivity].
Qed.

Lemma round_quarter : Py.round (1 / 4) = 0%Z.
Proof.
  unfold Py.round. rewrite (floor_unique (1 / 4) 0) by lra.
  destruct (Rlt_dec (1 / 4 - 0) (1 / 2)); [reflexivity | lra].
Qed.

Lemma round_one : Py.round 1 = 1%Z.
Proof.
  unfold Py.round. rewrite (floor_unique 1 1) by lra.
  destruct (Rlt_dec (1 - 1) (1 / 2)); [reflexivity | lra].
Qed.

Lemma round_IZR (k : Z) : Py.round (IZR k) = k.
Proof.
  unfold Py.round. rewrite floor_IZR.
  destruct (Rlt_dec (IZR k - IZR k) (1 / 2)); [reflexivity | lra].
Qed.

(** One summary peak at 100 Hz fits every fundamental that divides it
    (100 Hz, 50 Hz) and does not fit 200 Hz or 400 Hz. *)
Lemma fit_100_on_divisor (f : R) (k : Z) :
  (1 <= k)%Z -> IZR k * f = 100 ->
  harmonic_fit [mkPeak (Some 100) 0 1 None] f = Ok 1.
Proof.
  intros Hk Hf.
  assert (Hk' : 1 <= IZR k) by (apply IZR_le; exact Hk).
  assert (Hf0 : 0 < f) by nra.
  unfold harmonic_fit, _harmonic_grid_fit_score.
  destruct (Rle_dec f 0); [lra|].
  change (Z.min SUMMARY_PEAKS (Z.of_nat (length [mkPeak (Some 100) 0 1 None]))) with 1%Z.
  rewrite slice_0 by lia. change (Z.to_nat 1) with 1%nat.
  cbn [firstn foldM]. unfold aligned_step. cbn [peak_get_hz hz].
  rewrite fdiv_ok by lra. cbn [bind].
  replace (100 / f) with (IZR k) by (rewrite <- Hf; field; lra).
  rewrite round_IZR.
  assert (E : (k <? 1)%Z = false) by lia. rewrite E, Hf.
  rewrite fdiv_ok by (rewrite Rmax_left; lra). cbn [bind].
  destruct (Rle_dec _ 0.03) as [_ | Hn].
  - cbn [bind]. change (0 + 1)%Z with 1%Z. change (Z.max 1 1) with 1%Z.
    rewrite fdiv_ok by lra. f_equal. lra.
  - exfalso. apply Hn. rewrite Rmax_left by lra.
    replace (100 - 100) with 0 by lra. rewrite Rabs_R0. lra.
Qed.

Lemma fit_100_on_multiple (f : R) :
  f = 200 \/ f = 400 -> harmonic_fit [mkPeak (Some 100) 0 1 None] f = Ok 0.
Proof.
  intros Hf. unfold harmonic_fit, _harmonic_grid_fit_score.
  destruct (Rle_dec f 0); [lra|].
  change (Z.min SUMMARY_PEAKS (Z.of_nat (length [mkPeak (Some 100) 0 1 None]))) with 1%Z.
  rewrite slice_0 by lia. change (Z.to_nat 1) with 1%nat.
  cbn [firstn foldM]. unfold aligned_step. cbn [peak_get_hz hz].
  rewrite fdiv_ok by lra. cbn [bind].
  assert (Hr : Py.round (100 / f) = 0%Z).
  { destruct Hf as [-> | ->].
    - replace (100 / 200) with (1 / 2) by lra. apply round_half.
    - replace (100 / 400) with (1 / 4) by lra. apply round_quarter. }
  rewrite Hr. change (0 <? 1)%Z with true. cbv iota. cbn [bind].
  change (Z.max 1 1) with 1%Z. rewrite fdiv_ok by lra. f_equal. lra.
Qed.

(** The corrector on a single summary peak at 100 Hz.  A preliminary f0 of
    200 Hz is corrected one octave down, the fit rising from 0 to 1.  A
    preliminary f0 of 100 Hz is kept: 50 Hz fits as well, but the tie goes
    to the candidate with the smaller shift, which is no octave away. *)
Lemma correct_octave_accepts_iff_witness :
  (exists f0 fit c,
     _correct_octave_by_harmonic_fit 200 [mkPeak (Some 100) 0 1 None]
     = Ok (f0, fit, Some c, true)
     /\ f0 = 100 /\ fit = 1
     /\ original_f0_hz c = 200 /\ corrected_f0_hz c = 100
     /\ harmonic_fit_before c = 0 /\ harmonic_fit_after c = 1)
  /\ _correct_octave_by_harmonic_fit 100 [mkPeak (Some 100) 0 1 None]
     = Ok (100, 1, None, false).
Proof.
  set (peaks := [mkPeak (Some 100) 0 1 None]).
  split.
  - destruct (choose_candidate_ok 200 peaks)
      as [sc [best [l1 [l2 [Em [Ec [Hs [Hmax [_ [Hcand [Hfit _]]]]]]]]]]].
    destruct (scored_ok 200 peaks) as [f1 [f2 [f3 [E1 [E2 [E3 Em']]]]]].
    unfold peaks in E1, E2, E3.
    rewrite fit_100_on_multiple in E1 by (left; reflexivity).
    rewrite (fit_100_on_divisor _ 1) in E2 by (try lia; lra).
    rewrite fit_100_on_multiple in E3 by (right; lra).
    injection E1 as <-. injection E2 as <-. injection E3 as <-.
    rewrite Em' in Em. injection Em as Esc.
    assert (Hbest : sc_cand best = 200 / 2.0 /\ sc_fit best = 1).
    { assert (Hin : In (200 / 2.0, 1, shift_of 200 (200 / 2.0),
                        in_valid_range (200 / 2.0)) sc)
        by (rewrite <- Esc; right; left; reflexivity).
      pose proof (Hmax _ Hin) as Hno. unfold Klt in Hno. cbn [sc_fit] in Hno.
      assert (Hbin : In best sc) by (rewrite Hs; apply in_elt).
      rewrite <- Esc in Hbin. destruct Hbin as [<- | [<- | [<- | []]]]; cbn in *.
      - exfalso. apply Hno. left. lra.
      - split; reflexivity.
      - exfalso. apply Hno. left. lra. }
    destruct Hbest as [Hb1 Hb2].
    destruct (correct_octave_accepts_iff 200 peaks)
      as [best' [before [Ec' [_ [Eb [Hacc _]]]]]].
    rewrite Ec in Ec'. injection Ec' as <-.
    unfold peaks in Eb. rewrite fit_100_on_multiple in Eb by (left; reflexivity).
    injection Eb as <-.
    eexists _, _, _. split.
    + apply Hacc. rewrite Hb1, Hb2. unfold MIN_F0_HZ, MAX_F0_HZ.
      replace (200 / 2.0 / 200) with (/ 2) by lra.
      rewrite log2_inv, log2_2, Rabs_Ropp, Rabs_R1 by lra. lra.
    + cbn. rewrite Hb1, Hb2. repeat split; lra.
  - destruct (correct_octave_accepts_iff 100 peaks)
      as [best [before [Ec [_ [Eb [_ Hrej]]]]]].
    destruct (choose_candidate_ok 100 peaks)
      as [sc [best' [l1 [l2 [Em [Ec' [Hs [Hmax [_ _]]]]]]]]].
    rewrite Ec in Ec'. injection Ec' as <-.
    destruct (scored_ok 100 peaks) as [f1 [f2 [f3 [E1 [E2 [E3 Em']]]]]].
    unfold peaks in E1, E2, E3, Eb.
    rewrite (fit_100_on_divisor _ 1) in E1, Eb by (try lia; lra).
    rewrite (fit_100_on_divisor _ 2) in E2 by (try lia; lra).
    rewrite fit_100_on_multiple in E3 by (left; lra).
    injection E1 as <-. injection E2 as <-. injection E3 as <-. injection Eb as <-.
    rewrite Em' in Em. injection Em as Esc.
    assert (R1 : in_valid_range 100 = true)
      by (apply in_valid_range_true; unfold MIN_F0_HZ, MAX_F0_HZ; lra).
    assert (R2 : in_valid_range (100 / 2.0) = true)
      by (apply in_valid_range_true; unfold MIN_F0_HZ, MAX_F0_HZ; lra).
    rewrite R1, R2, shift_self, shift_half_100 in Esc.
    assert (Hbest : sc_cand best = 100).
    { assert (Hin : In (100, 1, 0, true) sc) by (rewrite <- Esc; left; reflexivity).
      pose proof (Hmax _ Hin) as Hno. unfold Klt in Hno. cbn in Hno.
      assert (Hbin : In best sc) by (rewrite Hs; apply in_elt).
      rewrite <- Esc in Hbin. destruct Hbin as [<- | [<- | [<- | []]]]; cbn in *.
      - reflexivity.
      - exfalso. apply Hno. right. split; [reflexivity|]. right. split; [reflexivity | lra].
      - exfalso. apply Hno. left. lra. }
    apply Hrej. intros [[H _] _]. rewrite Hbest in H.
    replace (100 / 100) with 1 in H by lra.
    rewrite log2_1, Rabs_R0 in H. lra.
Defined.

(** ** Tuning inference: register *)

Section SortHeadLeast.
Context {A : Type} (lt : A -> A -> bool) (f : A -> R).
Hypothesis lt_true_le : forall a b, lt a b = true -> f a <= f b.
Hypothesis lt_false_ge : forall a b, lt a b = false -> f b <= f a.

(** When the first component of the sort key is [f], the first element of
    the sorted list has the least [f]. *)
Lemma sort_head_least (l : list A) (b : A) (rest : list A) :
  Py.sort lt l = b :: rest -> forall x, In x l -> f b <= f x.
Proof.
  revert b rest. induction l as [|a l IH]; intros b rest E x Hx; [destruct Hx|].
  cbn [Py.sort] in E. destruct (Py.sort lt l) as [|y r] eqn:Es.
  - assert (l = []) as ->.
    { apply length_zero_iff_nil. rewrite <- (sort_length lt), Es. reflexivity. }
    cbn in E. injection E as <- _. destruct Hx as [<- | []]. lra.
  - cbn [Py.insert] in E. destruct (lt y a) eqn:Eya.
    + injection E as <- _. destruct Hx as [<- | Hx].
      * now apply lt_true_le.
      * now apply (IH y r eq_refl).
    + injection E as <- _. destruct Hx as [<- | Hx]; [lra|].
      apply Rle_trans with (f y); [now apply lt_false_ge | now apply (IH y r eq_refl)].
Qed.

End SortHeadLeast.

Lemma bar_key_lt_true_le (a b : bar) : bar_key_lt a b = true -> f0_hz a <= f0_hz b.
Proof.
  unfold bar_key_lt. rewrite orb_true_iff, andb_true_iff, ltb_true, leb_true.
  intros [H | [H _]]; lra.
Qed.

Lemma bar_key_lt_false_ge (a b : bar) : bar_key_lt a b = false -> f0_hz b <= f0_hz a.
Proof.
  unfold bar_key_lt. rewrite orb_false_iff, ltb_false. intros [H _]. exact H.
Qed.

Lemma powerRZ_2_pos (k : Z) : 0 < powerRZ 2 k.
Proof. apply powerRZ_lt. lra. Qed.

(** [2^k <= q < 2^(k+1)] for [k = floor(log2 q)]. *)
Lemma floor_log2_bounds (q : R) :
  0 < q ->
  powerRZ 2 (Py.floor (Py.log2 q)) <= q < 2 * powerRZ 2 (Py.floor (Py.log2 q)).
Proof.
  intros Hq. set (k := Py.floor (Py.log2 q)).
  destruct (floor_spec (Py.log2 q)) as [H1 H2]. fold k in H1, H2.
  split.
  - destruct (Rle_lt_dec (powerRZ 2 k) q) as [H | H]; [exact H|].
    exfalso. apply log2_lt in H; [|exact Hq]. rewrite log2_powerRZ in H. lra.
  - destruct (Rle_lt_dec (2 * powerRZ 2 k) q) as [H | H]; [|exact H].
    exfalso. apply log2_le in H.
    + rewrite log2_mult, log2_2, log2_powerRZ in H; try lra. apply powerRZ_2_pos.
    + pose proof (powerRZ_2_pos k). lra.
Qed.

Lemma assign_register_ok (f_ref : R) (idx : Z) (b : bar) :
  0 < f_ref -> f_ref <= f0_hz b ->
  exists b', assign_register f_ref idx b = Ok b'
             /\ same_bar b b' /\ register_ok f_ref b'
             /\ global_order_index b' = idx.
Proof.
  intros Hr Hb. unfold assign_register.
  rewrite fdiv_ok by lra. cbn [bind].
  assert (Hq : 1 <= f0_hz b / f_ref).
  { apply Rmult_le_reg_r with f_ref; [exact Hr|].
    unfold Rdiv. rewrite Rmult_assoc, Rinv_l by lra. lra. }
  rewrite math_log2_ok by lra. cbn [bind].
  set (k := Py.floor (Py.log2 (f0_hz b / f_ref))).
  pose proof (powerRZ_2_pos k) as Hk.
  rewrite fdiv_ok by (apply Rmult_integral_contrapositive_currified; lra).
  cbn [bind]. eexists. split; [reflexivity|].
  split; [unfold same_bar; cbn; auto|]. split; [|reflexivity].
  unfold register_ok. cbn. fold k.
  destruct (floor_log2_bounds (f0_hz b / f_ref)) as [B1 B2]; [lra|]. fold k in B1, B2.
  replace (f0_hz b / (f_ref * powerRZ 2 k)) with (f0_hz b / f_ref / powerRZ 2 k)
    by (field; lra).
  split; [reflexivity|]. split.
  - split.
    + apply Rmult_le_reg_r with (powerRZ 2 k); [exact Hk|].
      unfold Rdiv at 1. rewrite Rmult_assoc, Rinv_l by lra. lra.
    + apply Rmult_lt_reg_r with (powerRZ 2 k); [exact Hk|].
      unfold Rdiv at 1. rewrite Rmult_assoc, Rinv_l by lra. lra.
  - field. lra.
Qed.

Lemma assign_registers_ok (f_ref : R) (bars : list bar) (idx : Z) :
  0 < f_ref -> (forall b, In b bars -> f_ref <= f0_hz b) ->
  exists out, assign_registers f_ref idx bars = Ok out
              /\ Forall2 same_bar bars out
              /\ Forall (register_ok f_ref) out.
Proof.
  intros Hr. revert idx. induction bars as [|b bars IH]; intros idx Hall.
  - exists []. repeat split; constructor.
  - destruct (assign_register_ok f_ref idx b Hr) as [b' [E [Hs [Ho _]]]];
      [apply Hall; now left|].
    destruct (IH (idx + 1)%Z) as [out [E' [Hs' Ho']]];
      [intros; apply Hall; now right|].
    exists (b' :: out). cbn [assign_registers]. rewrite E. cbn [bind].
    rewrite E'. cbn [bind]. repeat split; constructor; assumption.
Qed.

(** The register pass in exact arithmetic.  With the f0 read as real
    numbers, and for a non-empty corpus of bars with positive f0, the pass
    succeeds; its reference [f_ref] is the f0 of one of the bars and the
    least f0 of the corpus; the bars come out in sorted order with their
    identity and f0 untouched; and every one of them satisfies the
    register invariant: [octave_abs = floor(log2(f0 / f_ref))],
    [1 <= within_octave_ratio < 2] and
    [f0 = f_ref * 2^octave_abs * within_octave_ratio].  This is what the
    two lines of the code aim at; in binary64 the rounding of the
    logarithm breaks it next to an octave boundary, see
    [register_ratio_below_one]. *)
Theorem register_invariant (bars : list bar) :
  bars <> [] ->
  (forall b, In b bars -> 0 < f0_hz b) ->
  exists f_ref out,
    tuning_registers bars = Ok (f_ref, out)
    /\ (exists b0, In b0 bars /\ f0_hz b0 = f_ref)
    /\ (forall b, In b bars -> f_ref <= f0_hz b)
    /\ Forall2 same_bar (Py.sort bar_key_lt bars) out
    /\ Forall (register_ok f_ref) out.
Proof.
  intros Hne Hpos. unfold tuning_registers.
  destruct (Py.sort bar_key_lt bars) as [|b0 rest] eqn:Es.
  { exfalso. apply Hne. apply length_zero_iff_nil.
    rewrite <- (sort_length bar_key_lt), Es. reflexivity. }
  assert (Hin : In b0 bars).
  { apply (sort_In bar_key_lt). rewrite Es. now left. }
  assert (Hmin : forall b, In b bars -> f0_hz b0 <= f0_hz b).
  { apply (sort_head_least bar_key_lt f0_hz bar_key_lt_true_le bar_key_lt_false_ge
             bars b0 rest Es). }
  destruct (assign_registers_ok (f0_hz b0) (b0 :: rest) 1) as [out [E [Hs Ho]]].
  - now apply Hpos.
  - intros b Hb. apply Hmin. apply (sort_In bar_key_lt). rewrite Es. exact Hb.
  - exists (f0_hz b0), out. cbv zeta. rewrite E. cbn [bind].
    split; [reflexivity|]. split; [exists b0; split; [exact Hin | reflexivity]|].
    split; [exact Hmin|]. split; assumption.
Qed.

(** The register invariant on a corpus of two bars, 440 Hz and 110 Hz. *)
Lemma register_invariant_witness :
  exists f_ref out,
    tuning_registers [mkBar "a" "edo5" 1 440 0 1.0 0; mkBar "b" "edo5" 2 110 0 1.0 0]
    = Ok (f_ref, out)
    /\ (exists b0, In b0 [mkBar "a" "edo5" 1 440 0 1.0 0; mkBar "b" "edo5" 2 110 0 1.0 0]
                   /\ f0_hz b0 = f_ref)
    /\ (forall b, In b [mkBar "a" "edo5" 1 440 0 1.0 0; mkBar "b" "edo5" 2 110 0 1.0 0]
                  -> f_ref <= f0_hz b)
    /\ Forall2 same_bar
         (Py.sort bar_key_lt [mkBar "a" "edo5" 1 440 0 1.0 0; mkBar "b" "edo5" 2 110 0 1.0 0])
         out
    /\ Forall (register_ok f_ref) out.
Proof.
  apply (register_invariant
           [mkBar "a" "edo5" 1 440 0 1.0 0; mkBar "b" "edo5" 2 110 0 1.0 0]).
  - discriminate.
  - intros b [<- | [<- | []]]; cbn; lra.
Defined.

(** ** Window selector *)

Lemma range_bounds (a b step s : Z) :
  (0 < step)%Z -> In s (Py.range a b step) -> (a <= s < b)%Z.
Proof.
  intros Hstep Hin. unfold Py.range in Hin.
  apply in_map_iff in Hin. destruct Hin as [i [<- Hi]].
  apply in_seq in Hi. destruct Hi as [_ Hi]. cbn in Hi.
  set (c := ((b - a + step - 1) / step)%Z) in *.
  assert (Hc : (Z.of_nat i < c)%Z) by lia.
  assert (Hm : (step * c <= b - a + step - 1)%Z)
    by (apply Z.mul_div_le; exact Hstep).
  split; [nia|]. nia.
Qed.

Lemma range_head (a b step : Z) :
  (0 < step)%Z -> (a < b)%Z -> exists tl, Py.range a b step = a :: tl.
Proof.
  intros Hstep Hab. unfold Py.range.
  assert (Hc : (1 <= (b - a + step - 1) / step)%Z).
  { apply Z.div_le_lower_bound; lia. }
  destruct (Z.to_nat ((b - a + step - 1) / step)) as [|k] eqn:E; [lia|].
  cbn [seq map]. eexists. f_equal. lia.
Qed.

Lemma window_size_bounds (sr available : Z) :
  (0 < sr)%Z -> (0 < available)%Z ->
  (1 <= window_size sr available <= available)%Z.
Proof.
  intros Hsr Hav. unfold window_size, WINDOW_TARGET_S.
  replace (1.00 * IZR sr) with (IZR sr) by lra. rewrite int_IZR.
  destruct (Z.min sr available <? Py.int (WINDOW_MIN_S * IZR sr))%Z eqn:E1.
  - destruct (Z.max (Py.int (WINDOW_MIN_S * IZR sr)) available >? available)%Z eqn:E2; lia.
  - destruct (Z.min sr available >? available)%Z eqn:E2; lia.
Qed.

Lemma scan_fold_bounds (x : list R) (win frame lo hi : Z)
    (l : list Z) (st : Z * option R) :
  (forall s, In s l -> (lo <= s <= hi)%Z) ->
  (lo <= fst st <= hi)%Z ->
  (lo <= fst (fold_left (scan_step x win frame) l st) <= hi)%Z.
Proof.
  revert st. induction l as [|s l IH]; intros st Hl Hst; [exact Hst|].
  cbn [fold_left]. apply IH.
  - intros s' Hs'. apply Hl. now right.
  - unfold scan_step. destruct (window_variance x win frame s); [|exact Hst].
    destruct (replaces r s (snd st) (fst st)); [|exact Hst].
    cbn. apply Hl. now left.
Qed.

(** C10.  For a non-empty waveform of [n] samples and a positive sample
    rate the window selector returns [(start, end)] with
    [0 <= start < end <= n]; when the lead-in of 0.20 s covers the whole
    signal it returns [(0, n)]. *)
Theorem pick_stable_window_in_bounds (x : list R) (sr : Z) :
  x <> [] -> (0 < sr)%Z ->
  exists s e note,
    _pick_stable_window x sr = Ok (s, e, note)
    /\ (0 <= s < e)%Z /\ (e <= len x)%Z
    /\ ((len x <= Py.int (WINDOW_IGNORE_S * IZR sr))%Z -> s = 0%Z /\ e = len x).
Proof.
  intros Hx Hsr.
  assert (Hn : (1 <= len x)%Z).
  { unfold len. destruct x; [contradiction | cbn [length]; lia]. }
  assert (Hsr' : 0 < IZR sr) by (apply IZR_lt; exact Hsr).
  assert (Hig : (0 <= Py.int (WINDOW_IGNORE_S * IZR sr))%Z).
  { apply int_nonneg. unfold WINDOW_IGNORE_S. lra. }
  unfold _pick_stable_window.
  set (n := len x) in *.
  set (start_idx := Z.min (Py.int (WINDOW_IGNORE_S * IZR sr)) n).
  destruct (n - start_idx <=? 0)%Z eqn:Eav.
  - exists 0%Z, n, "audio shorter than ignore lead-in; using full signal"%string.
    split; [reflexivity|]. split; [lia|]. split; [lia|]. auto.
  - assert (Hav : (0 < n - start_idx)%Z) by lia.
    destruct (window_size_bounds sr (n - start_idx) Hsr Hav) as [Hw1 Hw2].
    set (win := window_size sr (n - start_idx)) in *.
    set (frame := Z.max 1 (Py.int (RMS_FRAME_S * IZR sr))).
    assert (Hframe : (0 < frame)%Z) by (unfold frame; lia).
    pose proof (scan_fold_bounds x win frame start_idx (n - win)
                  (Py.range start_idx (n - win + 1) frame) (start_idx, None)) as Hb.
    destruct (fold_left (scan_step x win frame)
                (Py.range start_idx (n - win + 1) frame) (start_idx, None))
      as [best_start best_var].
    cbn [fst] in Hb.
    assert (Hbs : (start_idx <= best_start <= n - win)%Z).
    { apply Hb.
      - intros s Hs. apply range_bounds in Hs; [lia | exact Hframe].
      - lia. }
    rewrite fdiv_ok by lra. cbn [bind].
    eexists best_start, (best_start + win)%Z, _.
    split; [reflexivity|]. split; [unfold start_idx in Hbs; lia|]. split; [lia|].
    intros Hle. exfalso. unfold start_idx in Hav. lia.
Qed.

(** The bounds on a three-sample waveform at [sr = 2]. *)
Lemma pick_stable_window_in_bounds_witness :
  exists s e note,
    _pick_stable_window [0.5; 0.25; 0.5] 2 = Ok (s, e, note)
    /\ (0 <= s < e)%Z /\ (e <= len [0.5; 0.25; 0.5]%R)%Z
    /\ ((len [0.5; 0.25; 0.5]%R <= Py.int (WINDOW_IGNORE_S * IZR 2))%Z
        -> s = 0%Z /\ e = len [0.5; 0.25; 0.5]).
Proof.
  apply (pick_stable_window_in_bounds [0.5; 0.25; 0.5] 2).
  - discriminate.
  - lia.
Defined.

(** *** The scan and its tie-break *)

Lemma scan_as_pairs (x : list R) (win frame : Z) (l : list Z) (st : Z * option R) :
  fold_left (scan_step x win frame) l st
  = fold_left pair_step
      (flat_map (fun s => match window_variance x win frame s with
                          | Some v => [(s, v)]
                          | None => []
                          end) l) st.
Proof.
  revert st. induction l as [|s l IH]; intros st; [reflexivity|].
  cbn [fold_left flat_map]. rewrite fold_left_app, IH. f_equal.
  unfold scan_step. destruct (window_variance x win frame s); reflexivity.
Qed.

(** The rule of line 218 against an incumbent that starts earlier. *)
Lemma replaces_rule (v bv : R) (s bs : Z) :
  (bs < s)%Z ->
  (v < bv - 1e-12 -> replaces v s (Some bv) bs = true)
  /\ (Rabs (v - bv) < 1e-12 -> replaces v s (Some bv) bs = true)
  /\ (replaces v s (Some bv) bs = false ->
      bv - 1e-12 <= v /\ 1e-12 <= Rabs (v - bv)).
Proof.
  intros Hs. unfold replaces.
  assert (Hgt : (s >? bs)%Z = true) by lia. rewrite Hgt, andb_true_r.
  split; [|split].
  - intros H. apply orb_true_iff. left. now apply ltb_true.
  - intros H. apply orb_true_iff. right. now apply ltb_true.
  - intros H. apply orb_false_iff in H. destruct H as [H1 H2].
    apply ltb_false in H1, H2. split; assumption.
Qed.

(** The scan ends on the last candidate that replaced the incumbent, and
    no later candidate replaces it. *)
Lemma pair_scan_split (l : list (Z * R)) (st : Z * option R) :
  (fold_left pair_step l st = st
   /\ Forall (fun c => replaces (snd c) (fst c) (snd st) (fst st) = false) l)
  \/ exists l1 c l2,
       l = l1 ++ c :: l2
       /\ fold_left pair_step l st = (fst c, Some (snd c))
       /\ Forall (fun c' => replaces (snd c') (fst c') (Some (snd c)) (fst c) = false) l2.
Proof.
  revert st. induction l as [|c l IH]; intros st.
  - left. split; [reflexivity | constructor].
  - cbn [fold_left]. unfold pair_step at 2 4.
    destruct (replaces (snd c) (fst c) (snd st) (fst st)) eqn:E.
    + right. destruct (IH (fst c, Some (snd c))) as [[H1 H2] | [l1 [c' [l2 [-> [H1 H2]]]]]].
      * exists [], c, l. split; [reflexivity|]. split; [exact H1 | exact H2].
      * exists (c :: l1), c', l2. split; [reflexivity|]. split; assumption.
    + destruct (IH st) as [[H1 H2] | [l1 [c' [l2 [-> [H1 H2]]]]]].
      * left. split; [exact H1 | now constructor].
      * right. exists (c :: l1), c', l2. split; [reflexivity|]. split; assumption.
Qed.

Lemma pair_scan_keeps (l : list (Z * R)) (st : Z * option R) :
  Forall (fun c => replaces (snd c) (fst c) (snd st) (fst st) = false) l ->
  fold_left pair_step l st = st.
Proof.
  induction 1 as [|c l Hc _ IH]; [reflexivity|].
  cbn [fold_left]. unfold pair_step at 2. rewrite Hc. exact IH.
Qed.

Lemma range_sorted (a b step : Z) :
  (0 < step)%Z -> StronglySorted Z.lt (Py.range a b step).
Proof.
  intros Hstep. unfold Py.range.
  generalize (Z.to_nat ((b - a + step - 1) / step)) as n.
  generalize 0%nat as k. intros k n. revert k.
  induction n as [|n IH]; intros k; cbn [seq map]; constructor.
  - apply IH.
  - apply Forall_forall. intros z Hz. apply in_map_iff in Hz.
    destruct Hz as [i [<- Hi]]. apply in_seq in Hi. nia.
Qed.

Lemma flat_map_sorted (g : Z -> option R) (l : list Z) :
  StronglySorted Z.lt l ->
  StronglySorted (fun a b : Z * R => (fst a < fst b)%Z)
    (flat_map (fun s => match g s with Some v => [(s, v)] | None => [] end) l).
Proof.
  induction 1 as [|s l Hs IH Hall]; cbn [flat_map]; [constructor|].
  destruct (g s) as [v|]; [|exact IH].
  cbn [app]. constructor; [exact IH|].
  apply Forall_forall. intros [m vm] Hm. apply in_flat_map in Hm.
  destruct Hm as [s' [Hs' Hm]]. destruct (g s'); [|destruct Hm].
  destruct Hm as [Hm | []]. injection Hm as <- <-. cbn.
  rewrite Forall_forall in Hall. now apply Hall.
Qed.

Lemma sorted_app_lt (l1 l2 : list (Z * R)) (c : Z * R) :
  StronglySorted (fun a b : Z * R => (fst a < fst b)%Z) (l1 ++ c :: l2) ->
  (forall a, In a l1 -> (fst a < fst c)%Z)
  /\ (forall b, In b l2 -> (fst c < fst b)%Z).
Proof.
  induction l1 as [|a l1 IH]; cbn [app]; intros H.
  - inversion H as [|? ? _ Hall]; subst. split; [intros ? []|].
    rewrite Forall_forall in Hall. exact Hall.
  - inversion H as [|? ? H' Hall]; subst. destruct (IH H') as [I1 I2].
    split; [|exact I2]. intros a' [<- | Ha]; [|now apply I1].
    rewrite Forall_forall in Hall. apply Hall. apply in_elt.
Qed.

(** The outcome of the scan over candidates with increasing starts. *)
Lemma pair_scan_outcome (cands : list (Z * R)) (s0 : Z) :
  cands <> [] ->
  StronglySorted (fun a b : Z * R => (fst a < fst b)%Z) cands ->
  exists s v,
    fold_left pair_step cands (s0, None) = (s, Some v)
    /\ In (s, v) cands
    /\ (forall m vm, In (m, vm) cands -> (s < m)%Z ->
          v - 1e-12 <= vm /\ 1e-12 <= Rabs (vm - v))
    /\ (forall m vm, In (m, vm) cands ->
          (forall m' v', In (m', v') cands -> m' <> m -> vm < v' - 1e-12) ->
          s = m)
    /\ ((forall c c', In c cands -> In c' cands -> Rabs (snd c - snd c') < 1e-12) ->
        forall m vm, In (m, vm) cands -> (m <= s)%Z).
Proof.
  intros Hne Hsorted.
  destruct (pair_scan_split cands (s0, None)) as [[_ H] | [l1 [[s v] [l2 [Hsplit [Hfold Hkeep]]]]]].
  { destruct cands as [|c l]; [contradiction|]. inversion H as [|? ? Hc _]; subst.
    cbn in Hc. discriminate. }
  cbn [fst snd] in Hfold, Hkeep.
  assert (Hord := Hsorted). rewrite Hsplit in Hord.
  apply sorted_app_lt in Hord. destruct Hord as [Hbefore Hafter]. cbn [fst] in *.
  assert (Hin : In (s, v) cands) by (rewrite Hsplit; apply in_elt).
  assert (Hlater : forall m vm, In (m, vm) cands -> (s < m)%Z -> In (m, vm) l2).
  { intros m vm Hm Hlt. rewrite Hsplit in Hm. apply in_app_or in Hm.
    destruct Hm as [Hm | [Hm | Hm]]; [| |exact Hm].
    - apply Hbefore in Hm. cbn in Hm. lia.
    - injection Hm as -> _. lia. }
  exists s, v. split; [exact Hfold|]. split; [exact Hin|]. split; [|split].
  - intros m vm Hm Hlt. apply (replaces_rule vm v m s Hlt).
    rewrite Forall_forall in Hkeep. apply (Hkeep (m, vm)). now apply Hlater.
  - intros m vm Hm Hmin.
    destruct (Z.eq_dec s m) as [E | Hneq]; [exact E | exfalso].
    (* split the list at the clear minimum *)
    destruct (in_split _ _ Hm) as [la [lb Hab]].
    assert (Hord := Hsorted). rewrite Hab in Hord.
    apply sorted_app_lt in Hord. destruct Hord as [Ha Hb]. cbn [fst] in *.
    assert (Hstep : fold_left pair_step (la ++ [(m, vm)]) (s0, None) = (m, Some vm)).
    { rewrite fold_left_app. cbn [fold_left].
      destruct (pair_scan_split la (s0, None)) as [[E _] | [l1' [[sa va] [l2' [Hla [E _]]]]]];
        rewrite E; unfold pair_step; cbn [fst snd].
      - reflexivity.
      - assert (Hina : In (sa, va) cands)
          by (rewrite Hab; apply in_or_app; left; rewrite Hla; apply in_elt).
        assert (Hsa : (sa < m)%Z).
        { apply (Ha (sa, va)). rewrite Hla. apply in_elt. }
        destruct (replaces_rule vm va m sa Hsa) as [R1 _].
        rewrite R1; [reflexivity|]. apply (Hmin sa va Hina). lia. }
    assert (Hfinal : fold_left pair_step cands (s0, None) = (m, Some vm)).
    { rewrite Hab. replace (la ++ (m, vm) :: lb) with ((la ++ [(m, vm)]) ++ lb)
        by (rewrite <- app_assoc; reflexivity).
      rewrite fold_left_app, Hstep. apply pair_scan_keeps.
      apply Forall_forall. intros [m' v'] Hc. cbn [fst snd].
      assert (Hlt : (m < m')%Z) by (apply (Hb (m', v')); exact Hc).
      assert (Hv : vm < v' - 1e-12).
      { apply (Hmin m' v'); [|lia]. rewrite Hab. apply in_or_app. right. now right. }
      unfold replaces. apply orb_false_iff. split.
      - apply ltb_false. lra.
      - apply andb_false_iff. left. apply ltb_false.
        rewrite Rabs_right by lra. lra. }
    rewrite Hfinal in Hfold. injection Hfold as E _. lia.
  - intros Htied m vm Hm.
    destruct (Z_le_gt_dec m s) as [Hle | Hgt]; [exact Hle | exfalso].
    assert (Hl2 : In (m, vm) l2) by (apply Hlater; [exact Hm | lia]).
    rewrite Forall_forall in Hkeep. specialize (Hkeep (m, vm) Hl2). cbn [fst snd] in Hkeep.
    destruct (replaces_rule vm v m s ltac:(lia)) as [_ [R2 _]].
    rewrite R2 in Hkeep; [discriminate|].
    apply (Htied (m, vm) (s, v)); assumption.
Qed.

(** The scan ends on the last candidate that replaced the running best:
    it did replace the best of the candidates before it, and no later
    candidate replaced it. *)
Lemma pair_scan_last (l : list (Z * R)) (st : Z * option R) :
  (fold_left pair_step l st = st
   /\ Forall (fun c => replaces (snd c) (fst c) (snd st) (fst st) = false) l)
  \/ exists l1 c l2,
       l = l1 ++ c :: l2
       /\ fold_left pair_step l st = (fst c, Some (snd c))
       /\ (let best := fold_left pair_step l1 st in
           replaces (snd c) (fst c) (snd best) (fst best) = true)
       /\ Forall (fun c' => replaces (snd c') (fst c') (Some (snd c)) (fst c) = false) l2.
Proof.
  revert st. induction l as [|c l IH]; intros st.
  - left. split; [reflexivity | constructor].
  - cbn [fold_left]. unfold pair_step at 2 4.
    destruct (replaces (snd c) (fst c) (snd st) (fst st)) eqn:E.
    + right. destruct (IH (fst c, Some (snd c)))
        as [[H1 H2] | [l1 [c' [l2 [-> [H1 [H2 H3]]]]]]].
      * exists [], c, l. split; [reflexivity|]. split; [exact H1|].
        split; [exact E | exact H2].
      * exists (c :: l1), c', l2. split; [reflexivity|]. split; [exact H1|].
        split; [|exact H3]. cbn [fold_left]. unfold pair_step at 2 4.
        rewrite E. exact H2.
    + destruct (IH st) as [[H1 H2] | [l1 [c' [l2 [-> [H1 [H2 H3]]]]]]].
      * left. split; [exact H1 | now constructor].
      * right. exists (c :: l1), c', l2. split; [reflexivity|]. split; [exact H1|].
        split; [|exact H3]. cbn [fold_left]. unfold pair_step at 2 4.
        rewrite E. exact H2.
Qed.

(** C8 (as the code has it).  The selector scans the candidate starts in
    increasing order, keeping a running best, and returns the last
    candidate that replaced the running best: the scanned candidates
    split into those before the returned one, the returned one, which
    replaced the running best of those before it, and those after it, none
    of which replaced it.  A candidate replaces the running best when its
    variance is lower by more than 1e-12, or within 1e-12 of it (the
    candidate starts later).  So: no candidate after the returned one is
    lower by more than 1e-12 or within 1e-12 of it; a candidate whose
    variance is lower than every other candidate's by more than 1e-12 is
    the one returned; and when all variances are within 1e-12 of each
    other the latest start is returned.  The returned start need not have
    the least variance. *)
Theorem pick_stable_window_tiebreak (x : list R) (sr : Z) :
  (0 < sr)%Z -> scanned x sr <> [] ->
  let start_idx := Z.min (Py.int (WINDOW_IGNORE_S * IZR sr)) (len x) in
  exists s e note v,
    _pick_stable_window x sr = Ok (s, e, note)
    /\ e = (s + window_size sr (len x - start_idx))%Z
    /\ (exists before after,
          scanned x sr = before ++ (s, v) :: after
          /\ (let best := fold_left pair_step before (start_idx, None) in
              replaces v s (snd best) (fst best) = true)
          /\ Forall (fun c => replaces (snd c) (fst c) (Some v) s = false) after)
    /\ In (s, v) (scanned x sr)
    /\ (forall m vm, In (m, vm) (scanned x sr) -> (s < m)%Z ->
          v - 1e-12 <= vm /\ 1e-12 <= Rabs (vm - v))
    /\ (forall m vm, In (m, vm) (scanned x sr) ->
          (forall m' v', In (m', v') (scanned x sr) -> m' <> m -> vm < v' - 1e-12) ->
          s = m)
    /\ ((forall c c', In c (scanned x sr) -> In c' (scanned x sr) ->
           Rabs (snd c - snd c') < 1e-12) ->
        forall m vm, In (m, vm) (scanned x sr) -> (m <= s)%Z).
Proof.
  intros Hsr Hne start_idx. unfold _pick_stable_window. unfold scanned in *.
  set (n := len x) in *. fold start_idx in Hne |- *.
  destruct (n - start_idx <=? 0)%Z; [contradiction|].
  set (win := window_size sr (n - start_idx)) in *.
  set (frame := Z.max 1 (Py.int (RMS_FRAME_S * IZR sr))) in *.
  rewrite scan_as_pairs.
  match type of Hne with ?l <> [] => set (cands := l) in * end.
  destruct (pair_scan_outcome cands start_idx Hne) as [s [v [E [Hin [P1 [P2 P3]]]]]].
  { apply flat_map_sorted with (g := window_variance x win frame).
    apply range_sorted. unfold frame. lia. }
  rewrite E.
  rewrite fdiv_ok by (apply Rgt_not_eq, IZR_lt; exact Hsr). cbn [bind].
  eexists s, (s + win)%Z, _, v. split; [reflexivity|].
  split; [reflexivity|]. split.
  { destruct (pair_scan_last cands (start_idx, None))
      as [[E' _] | [l1 [[s' v'] [l2 [Hsplit [E' [Hrep Hkeep]]]]]]].
    - rewrite E in E'. discriminate E'.
    - rewrite E in E'. cbn [fst snd] in E', Hrep, Hkeep.
      injection E' as <- <-. exists l1, l2.
      split; [exact Hsplit|]. split; [exact Hrep | exact Hkeep]. }
  split; [exact Hin|]. split; [exact P1|]. split; [exact P2 | exact P3].
Qed.

Lemma int_val (x : R) (z : Z) : 0 <= x -> IZR z <= x < IZR z + 1 -> Py.int x = z.
Proof.
  intros H0 H. unfold Py.int. destruct (Rle_dec 0 x); [|contradiction].
  now apply floor_unique.
Qed.

Lemma rms_val (a r : R) :
  0 <= r -> r * r = a * a + 1e-12 ->
  sqrt (Py.mean (map (fun v => v * v) [a]) + 1e-12) = r.
Proof.
  intros Hr H. unfold Py.mean, Py.sum. cbn [map fold_right length INR].
  apply sqrt_lem_1; [|exact Hr|].
  - assert (0 <= a * a) by apply Rle_0_sqr || nra. nra.
  - rewrite H. field.
Qed.

Lemma var_pair (r1 r2 : R) :
  Py.var [r1; r2] = (r1 - r2) / 2 * ((r1 - r2) / 2).
Proof.
  unfold Py.var, Py.mean, Py.sum. cbn [map fold_right length INR]. field.
Qed.

Lemma drift_scanned :
  scanned drift_wave 2 = [(0%Z, 0); (1%Z, 0.64e-12); (2%Z, 1.500625e-12)].
Proof.
  unfold scanned.
  assert (E1 : Py.int (WINDOW_IGNORE_S * IZR 2) = 0%Z)
    by (apply int_val; unfold WINDOW_IGNORE_S; simpl; lra).
  assert (E2 : Py.int (RMS_FRAME_S * IZR 2) = 0%Z)
    by (apply int_val; unfold RMS_FRAME_S; simpl; lra).
  assert (E3 : window_size 2 4 = 2%Z).
  { unfold window_size.
    replace (Py.int (WINDOW_TARGET_S * IZR 2)) with 2%Z
      by (symmetry; apply int_val; unfold WINDOW_TARGET_S; simpl; lra).
    replace (Py.int (WINDOW_MIN_S * IZR 2)) with 0%Z
      by (symmetry; apply int_val; unfold WINDOW_MIN_S; simpl; lra).
    reflexivity. }
  rewrite E1, E2.
  change (len drift_wave) with 4%Z.
  change (Z.min 0 4) with 0%Z. change (4 - 0)%Z with 4%Z.
  change (4 <=? 0)%Z with false. cbv iota. rewrite E3.
  change (Z.max 1 0) with 1%Z. change (4 - 2 + 1)%Z with 3%Z.
  change (Py.range 0 3 1) with [0; 1; 2]%Z.
  cbn [flat_map].
  change (window_variance drift_wave 2 1 0)
    with (Some (Py.var [sqrt (Py.mean (map (fun v => v * v) [0]) + 1e-12);
                        sqrt (Py.mean (map (fun v => v * v) [0]) + 1e-12)])).
  change (window_variance drift_wave 2 1 1)
    with (Some (Py.var [sqrt (Py.mean (map (fun v => v * v) [0]) + 1e-12);
                        sqrt (Py.mean (map (fun v => v * v) [2.4e-6]) + 1e-12)])).
  change (window_variance drift_wave 2 1 2)
    with (Some (Py.var [sqrt (Py.mean (map (fun v => v * v) [2.4e-6]) + 1e-12);
                        sqrt (Py.mean (map (fun v => v * v) [4.95e-6]) + 1e-12)])).
  rewrite (rms_val 0 1e-6) by lra.
  rewrite (rms_val 2.4e-6 2.6e-6) by lra.
  rewrite (rms_val 4.95e-6 5.05e-6) by lra.
  rewrite !var_pair. cbn [app].
  replace ((1e-6 - 1e-6) / 2 * ((1e-6 - 1e-6) / 2)) with 0 by lra.
  replace ((1e-6 - 2.6e-6) / 2 * ((1e-6 - 2.6e-6) / 2)) with 0.64e-12 by lra.
  replace ((2.6e-6 - 5.05e-6) / 2 * ((2.6e-6 - 5.05e-6) / 2)) with 1.500625e-12 by lra.
  reflexivity.
Qed.

Lemma pick_stable_window_scanned (x : list R) (sr : Z) :
  scanned x sr <> [] ->
  _pick_stable_window x sr
  = (let n := len x in
     let start_idx := Z.min (Py.int (WINDOW_IGNORE_S * IZR sr)) n in
     let win := window_size sr (n - start_idx) in
     let '(best_start, _) :=
       fold_left pair_step (scanned x sr) (start_idx, None) in
     secs <- Py.fdiv (IZR n) (IZR sr) ;;
     let note :=
       if Py.ltb secs 1.2 then "short audio; analysis window reduced"%string
       else ""%string in
     Ok (best_start, (best_start + win)%Z, note)).
Proof.
  unfold _pick_stable_window, scanned. cbv zeta.
  destruct (len x - Z.min (Py.int (WINDOW_IGNORE_S * IZR sr)) (len x) <=? 0)%Z;
    [intros H; now contradiction H|].
  intros _. rewrite scan_as_pairs. reflexivity.
Qed.

(** C8, the claim as stated fails.  On [drift_wave] at [sr = 2] the three
    candidate starts 0, 1, 2 have the variances 0, 0.64e-12 and
    1.500625e-12.  Each is within 1e-12 of the one before, so each replaces
    the running best, and the selector returns start 2, although start 0
    has a variance that is lower by more than 1e-12. *)
Lemma later_start_beats_lower_variance :
  scanned drift_wave 2 = [(0%Z, 0); (1%Z, 0.64e-12); (2%Z, 1.500625e-12)]
  /\ _pick_stable_window drift_wave 2 = Ok (2%Z, 4%Z, ""%string).
Proof.
  split; [exact drift_scanned|].
  rewrite pick_stable_window_scanned by (rewrite drift_scanned; discriminate).
  rewrite drift_scanned. cbv zeta.
  assert (E1 : Py.int (WINDOW_IGNORE_S * IZR 2) = 0%Z)
    by (apply int_val; unfold WINDOW_IGNORE_S; simpl; lra).
  rewrite E1. change (len drift_wave) with 4%Z.
  change (Z.min 0 4) with 0%Z. change (4 - 0)%Z with 4%Z.
  assert (E3 : window_size 2 4 = 2%Z).
  { unfold window_size.
    replace (Py.int (WINDOW_TARGET_S * IZR 2)) with 2%Z
      by (symmetry; apply int_val; unfold WINDOW_TARGET_S; simpl; lra).
    replace (Py.int (WINDOW_MIN_S * IZR 2)) with 0%Z
      by (symmetry; apply int_val; unfold WINDOW_MIN_S; simpl; lra).
    reflexivity. }
  rewrite E3.
  cbn [fold_left]. unfold pair_step at 3. cbn [fst snd replaces].
  unfold pair_step at 2. cbn [fst snd].
  destruct (replaces_rule 0.64e-12 0 1 0 ltac:(lia)) as [_ [R2 _]].
  rewrite R2 by (rewrite Rabs_right; lra).
  unfold pair_step. cbn [fst snd].
  destruct (replaces_rule 1.500625e-12 0.64e-12 2 1 ltac:(lia)) as [_ [R2' _]].
  rewrite R2' by (rewrite Rabs_right; lra).
  rewrite fdiv_ok by lra. cbn [bind].
  rewrite (proj2 (ltb_false (4 / 2) 1.2)) by lra.
  reflexivity.
Qed.

(** The tie-break on [drift_wave], whose scan has three candidates. *)
Lemma pick_stable_window_tiebreak_witness :
  let start_idx := Z.min (Py.int (WINDOW_IGNORE_S * IZR 2)) (len drift_wave) in
  exists s e note v,
    _pick_stable_window drift_wave 2 = Ok (s, e, note)
    /\ e = (s + window_size 2 (len drift_wave - start_idx))%Z
    /\ (exists before after,
          scanned drift_wave 2 = before ++ (s, v) :: after
          /\ (let best := fold_left pair_step before (start_idx, None) in
              replaces v s (snd best) (fst best) = true)
          /\ Forall (fun c => replaces (snd c) (fst c) (Some v) s = false) after)
    /\ In (s, v) (scanned drift_wave 2)
    /\ (forall m vm, In (m, vm) (scanned drift_wave 2) -> (s < m)%Z ->
          v - 1e-12 <= vm /\ 1e-12 <= Rabs (vm - v))
    /\ (forall m vm, In (m, vm) (scanned drift_wave 2) ->
          (forall m' v', In (m', v') (scanned drift_wave 2) -> m' <> m ->
             vm < v' - 1e-12) ->
          s = m)
    /\ ((forall c c', In c (scanned drift_wave 2) -> In c' (scanned drift_wave 2) ->
           Rabs (snd c - snd c') < 1e-12) ->
        forall m vm, In (m, vm) (scanned drift_wave 2) -> (m <= s)%Z).
Proof.
  apply (pick_stable_window_tiebreak drift_wave 2).
  - lia.
  - rewrite drift_scanned. discriminate.
Defined.

(** ** Pitch tracker *)

Lemma frame_estimate_ok (x : list R) (sr frame_size lmin lmax : Z)
    (window : list R) (s : Z) :
  (1 <= lmin)%Z ->
  exists e, frame_estimate x sr frame_size lmin lmax window s = Ok e.
Proof.
  intros Hl. unfold frame_estimate.
  destruct (Rle_dec _ 0); [eexists; reflexivity|].
  match goal with |- context [Py.slice ?a lmin lmax] => destruct (Py.slice a lmin lmax) as [|v search] end;
    [eexists; reflexivity|].
  rewrite fdiv_ok; [cbn [bind]; eexists; reflexivity|].
  apply Rgt_not_eq, IZR_lt. lia.
Qed.

Lemma track_fold_ok (x : list R) (sr frame_size lmin lmax : Z) (window : list R)
    (l : list Z) (acc : list (Z * R * R)) :
  (1 <= lmin)%Z ->
  exists est, foldM (track_step x sr frame_size lmin lmax window) acc l = Ok est.
Proof.
  intros Hl. revert acc. induction l as [|s l IH]; intros acc.
  - exists acc. reflexivity.
  - cbn [foldM]. unfold track_step at 1.
    destruct (frame_estimate_ok x sr frame_size lmin lmax window s Hl) as [e E].
    rewrite E. cbn [bind]. destruct e as [t|]; cbn [bind]; apply IH.
Qed.

Lemma frame_size_ge (sr : Z) : (1024 <= frame_size_of sr)%Z.
Proof. unfold frame_size_of. lia. Qed.

Lemma hop_ge (sr : Z) : (256 <= hop_of sr)%Z.
Proof. unfold hop_of. lia. Qed.

Lemma len_app {A : Type} (l1 l2 : list A) : len (l1 ++ l2) = (len l1 + len l2)%Z.
Proof. unfold len. rewrite length_app. lia. Qed.

Lemma pad_short_len (x : list R) (frame_size : Z) :
  (len x < frame_size)%Z -> len (pad_to_frame x frame_size) = frame_size.
Proof.
  intros H. unfold pad_to_frame.
  assert (E : (len x <? frame_size)%Z = true) by lia. rewrite E.
  rewrite len_app. unfold len at 2. rewrite repeat_length.
  unfold len in *. lia.
Qed.

Lemma range_single (hop : Z) : (1 <= hop)%Z -> Py.range 0 1 hop = [0%Z].
Proof.
  intros H. unfold Py.range.
  replace ((1 - 0 + hop - 1) / hop)%Z with 1%Z
    by (replace (1 - 0 + hop - 1)%Z with hop by lia; symmetry; apply Z.div_same; lia).
  reflexivity.
Qed.

Lemma hanning_length (M : Z) : (2 <= M)%Z -> length (hanning M) = Z.to_nat M.
Proof.
  intros H. unfold hanning.
  assert (E1 : (M <? 1)%Z = false) by lia. assert (E2 : (M =? 1)%Z = false) by lia.
  rewrite E1, E2. now rewrite length_map, length_seq.
Qed.

Lemma autocorr_length (f : list R) : length (autocorr f) = length f.
Proof. unfold autocorr. now rewrite length_map, length_seq. Qed.

Lemma first_frame_length (x : list R) (M : Z) :
  (2 <= M)%Z -> len x = M -> length (first_frame x M) = Z.to_nat M.
Proof.
  intros HM Hx. unfold first_frame. rewrite !length_map, length_combine.
  rewrite slice_0 by lia. rewrite length_firstn, hanning_length by exact HM.
  unfold len in Hx. lia.
Qed.

Lemma slice_length {A : Type} (l : list A) (a b : Z) :
  (0 <= a <= b)%Z -> (b <= len l)%Z ->
  length (Py.slice l a b) = Z.to_nat (b - a).
Proof.
  intros Hab Hb. unfold Py.slice, Py.norm_index, len in *.
  assert (E1 : (a <? 0)%Z = false) by lia. assert (E2 : (b <? 0)%Z = false) by lia.
  rewrite E1, E2. rewrite length_firstn, length_skipn. lia.
Qed.

Lemma median_lag_single (lag : Z) : median_lag_of [lag] = lag.
Proof. unfold median_lag_of. cbn. apply int_IZR. Qed.

(** What [frame_estimate] computes on the first frame. *)
Lemma frame_estimate_first (x : list R) (sr frame_size lmin lmax : Z) :
  let ac := autocorr (first_frame x frame_size) in
  let ac0 := nth 0 ac 0 in
  let acn := map (fun v => v / (ac0 + 1e-12)) ac in
  let lag := (Z.of_nat (argmax (Py.slice acn lmin lmax)) + lmin)%Z in
  (2 <= frame_size)%Z -> len x = frame_size ->
  (1 <= lmin < lmax)%Z -> (lmax <= frame_size - 1)%Z ->
  frame_estimate x sr frame_size lmin lmax (hanning frame_size) 0
  = if Rle_dec ac0 0 then Ok None
    else Ok (Some (lag, IZR sr / IZR lag, Py.clip (nth (Z.to_nat lag) acn 0) 0.0 1.0)).
Proof.
  intros ac ac0 acn lag HM Hx Hl Hu. unfold frame_estimate.
  change (0 + frame_size)%Z with frame_size.
  fold (first_frame x frame_size). fold ac. fold ac0.
  destruct (Rle_dec ac0 0); [reflexivity|]. fold acn.
  assert (Hlen : length (Py.slice acn lmin lmax) = Z.to_nat (lmax - lmin)).
  { apply slice_length; [lia|]. unfold len, acn, ac.
    rewrite length_map, autocorr_length, first_frame_length by assumption. lia. }
  destruct (Py.slice acn lmin lmax) as [|v search] eqn:Es; [cbn in Hlen; lia|].
  rewrite fdiv_ok; [reflexivity|].
  apply Rgt_not_eq, IZR_lt. unfold lag. lia.
Qed.

(** C6.  With non-zero frequency bounds the pitch tracker raises the
    lag-window error, which carries [lmin], [lmax], [frame_size], [sr] and
    the two bounds, exactly when [lmax <= lmin].  Otherwise the frame
    loop always finishes; when no frame gave an estimate the tracker
    raises "unable to estimate f0" and else it returns the per-frame
    arrays.  An input shorter than one frame is not rejected: it is
    extended by zeros to exactly one frame, and that frame is analyzed.
    With [ac] the autocorrelation of the windowed, mean-removed frame:
    when [ac[0] <= 0] the tracker raises "unable to estimate f0";
    otherwise it returns the single estimate [sr / lag], where [lag] is
    the first position of the largest normalized autocorrelation among
    the lags [lmin .. lmax - 1], with the clipped autocorrelation at that
    lag as confidence, and it notes the zero-padding. *)
Theorem estimate_f0_errors
    (x : list R) (sr : Z) (min_hz max_hz : R) (context : option string) :
  min_hz <> 0 -> max_hz <> 0 ->
  let frame_size := frame_size_of sr in
  let lmin := Z.max 1 (Py.floor (IZR sr / max_hz)) in
  let lmax := Z.min (frame_size - 1) (Py.ceil (IZR sr / min_hz)) in
  let padded := pad_to_frame x frame_size in
  let r := _estimate_f0_acf_with_meta x sr min_hz max_hz context in
  ((lmax <= lmin)%Z <->
   r = Raise (InvalidLagWindow context lmin lmax frame_size sr min_hz max_hz))
  /\ ((lmin < lmax)%Z ->
      exists est,
        track_frames padded sr frame_size (hop_of sr) lmin lmax = Ok est
        /\ (est = [] -> r = Raise (UnableToEstimate context))
        /\ (est <> [] ->
            exists meta,
              r = Ok (map (fun t => snd (fst t)) est, map snd est, meta)
              /\ meta_lmin meta = lmin /\ meta_lmax meta = lmax
              /\ meta_frame_size meta = frame_size)
        /\ ((len x < frame_size)%Z ->
            len padded = frame_size
            /\ (exists e,
                  frame_estimate padded sr frame_size lmin lmax
                                 (hanning frame_size) 0 = Ok e
                  /\ est = match e with Some t => [t] | None => [] end)
            /\ padded = x ++ repeat 0 (Z.to_nat (frame_size - len x))
            /\ (let ac := autocorr (first_frame padded frame_size) in
                let ac0 := nth 0 ac 0 in
                let acn := map (fun v => v / (ac0 + 1e-12)) ac in
                let lag := (Z.of_nat (argmax (Py.slice acn lmin lmax)) + lmin)%Z in
                (ac0 <= 0 -> r = Raise (UnableToEstimate context))
                /\ (0 < ac0 ->
                    r = Ok ([IZR sr / IZR lag],
                            [Py.clip (nth (Z.to_nat lag) acn 0) 0.0 1.0],
                            mkMeta lmin lmax frame_size (hop_of sr) lag
                              ["short audio; frame was zero-padded for f0 tracking"%string]))))).
Proof.
  intros Hmin Hmax frame_size lmin lmax padded r.
  assert (Hlb : lag_bounds sr min_hz max_hz = Ok (lmin, lmax)).
  { unfold lag_bounds. rewrite !fdiv_ok by assumption. reflexivity. }
  assert (Hl1 : (1 <= lmin)%Z) by (unfold lmin; lia).
  destruct (track_fold_ok padded sr frame_size lmin lmax (hanning frame_size)
              (Py.range 0 (len padded - frame_size + 1) (hop_of sr)) [] Hl1)
    as [est Hest].
  assert (Hr : r = if (lmax <=? lmin)%Z
                   then Raise (InvalidLagWindow context lmin lmax frame_size sr min_hz max_hz)
                   else match est with
                        | [] => Raise (UnableToEstimate context)
                        | _ :: _ =>
                          Ok (map (fun t => snd (fst t)) est, map snd est,
                              mkMeta lmin lmax frame_size (hop_of sr)
                                (median_lag_of (map (fun t => fst (fst t)) est))
                                (if (len x <? frame_size)%Z
                                 then ["short audio; frame was zero-padded for f0 tracking"%string]
                                 else []))
                        end).
  { unfold r, _estimate_f0_acf_with_meta. rewrite Hlb. cbn [bind].
    fold frame_size. destruct (lmax <=? lmin)%Z; [reflexivity|].
    fold padded. unfold track_frames. rewrite Hest. cbn [bind].
    destruct est; reflexivity. }
  split.
  - split; intros H.
    + rewrite Hr. assert (E : (lmax <=? lmin)%Z = true) by lia. rewrite E. reflexivity.
    + destruct (lmax <=? lmin)%Z eqn:E; [lia|].
      rewrite Hr in H. destruct est; discriminate.
  - intros Hlt. assert (E : (lmax <=? lmin)%Z = false) by lia. rewrite E in Hr.
    exists est. split; [exact Hest|]. split; [|split].
    + intros ->. exact Hr.
    + intros Hne. destruct est as [|t est]; [contradiction|].
      eexists. split; [exact Hr|]. repeat split.
    + intros Hshort. pose proof (pad_short_len x frame_size Hshort) as Hlen.
      fold padded in Hlen.
      split; [exact Hlen|].
      rewrite Hlen in Hest.
      replace (frame_size - frame_size + 1)%Z with 1%Z in Hest by lia.
      rewrite range_single in Hest by (pose proof (hop_ge sr); lia).
      cbn [foldM] in Hest. unfold track_step in Hest.
      destruct (frame_estimate_ok padded sr frame_size lmin lmax (hanning frame_size) 0 Hl1)
        as [e He].
      rewrite He in Hest. cbn [bind] in Hest.
      assert (Eest : est = match e with Some t => [t] | None => [] end)
        by (destruct e; cbn in Hest; now injection Hest as <-).
      split; [exists e; split; [exact He | exact Eest]|].
      split.
      { unfold padded, pad_to_frame.
        assert (E' : (len x <? frame_size)%Z = true) by lia. now rewrite E'. }
      pose proof (frame_size_ge sr) as Hfs. fold frame_size in Hfs.
      rewrite (frame_estimate_first padded sr frame_size lmin lmax) in He
        by (try exact Hlen; unfold lmax; lia).
      assert (Es : (len x <? frame_size)%Z = true) by lia. rewrite Es in Hr.
      cbv zeta. split.
      * intros Hac. destruct (Rle_dec _ 0) as [_|n] in He; [|contradiction].
        injection He as <-. rewrite Eest in Hr. exact Hr.
      * intros Hac. destruct (Rle_dec _ 0) as [Hle|_] in He; [lra|].
        injection He as <-. rewrite Eest in Hr. rewrite Hr.
        cbn [map fst snd]. rewrite median_lag_single. reflexivity.
Qed.

(** *** A two-sample input: one frame, one estimate *)

Lemma sum_repeat (a : R) (n : nat) : Py.sum (repeat a n) = INR n * a.
Proof.
  induction n as [|n IH]; [cbn; ring|].
  cbn [repeat Py.sum fold_right]. fold (Py.sum (repeat a n)).
  rewrite IH, S_INR. ring.
Qed.

Lemma mul_combine_zeros (n : nat) (w : list R) :
  length w = n ->
  map (fun uv : R * R => fst uv * snd uv) (combine (repeat 0 n) w) = repeat 0 n.
Proof.
  revert w. induction n as [|n IH]; intros [|v w] H; try discriminate; [reflexivity|].
  cbn [repeat combine map fst snd]. rewrite IH by (injection H; auto).
  f_equal. ring.
Qed.

Lemma dot_cons (a b : R) (l l' : list R) : dot (a :: l) (b :: l') = a * b + dot l l'.
Proof. reflexivity. Qed.

Lemma dot_repeat (l : list R) (a : R) (n : nat) :
  dot l (repeat a n) = a * Py.sum (firstn n l).
Proof.
  revert l. induction n as [|n IH]; intros l.
  - destruct l; cbn; ring.
  - destruct l as [|v l]; [cbn; ring|].
    cbn [repeat firstn]. rewrite dot_cons, IH.
    cbn [Py.sum fold_right]. fold (Py.sum (firstn n l)). ring.
Qed.

Lemma dot_self_nonneg (l : list R) : 0 <= dot l l.
Proof.
  induction l as [|v l IH]; [cbn; lra|].
  rewrite dot_cons. nra.
Qed.

(** The frame of a single spike: [c] at position 1, minus the mean [m]. *)
Lemma spike_first_frame (a b : R) (n : nat) :
  let M := Z.of_nat (S (S n)) in
  let c := b * (0.5 - 0.5 * cos (2 * PI * INR 1 / IZR (M - 1))) in
  let m := c / INR (S (S n)) in
  first_frame ([a; b] ++ repeat 0 n) M = (- m) :: (c - m) :: repeat (- m) n.
Proof.
  intros M c m. unfold first_frame.
  rewrite slice_0 by (unfold M; lia).
  rewrite firstn_all2
    by (rewrite length_app, repeat_length; unfold M; cbn [length]; lia).
  unfold hanning.
  assert (E1 : (M <? 1)%Z = false) by (apply Z.ltb_ge; unfold M; lia).
  assert (E2 : (M =? 1)%Z = false) by (apply Z.eqb_neq; unfold M; lia).
  rewrite E1, E2. replace (Z.to_nat M) with (S (S n)) by (unfold M; lia).
  cbn [seq map combine app fst snd].
  rewrite mul_combine_zeros by (now rewrite length_map, length_seq).
  replace (a * (0.5 - 0.5 * cos (2 * PI * INR 0 / IZR (M - 1)))) with 0.
  2:{ replace (2 * PI * INR 0 / IZR (M - 1)) with 0 by (cbn [INR]; unfold Rdiv; ring).
      rewrite cos_0. lra. }
  fold c.
  assert (Hmean : Py.mean (0 :: c :: repeat 0 n) = m).
  { unfold Py.mean. cbn [Py.sum fold_right length]. fold (Py.sum (repeat 0 n)).
    rewrite sum_repeat, repeat_length. unfold m. f_equal. ring. }
  rewrite Hmean. cbn [map]. rewrite map_repeat.
  f_equal; [ring|]. f_equal. f_equal. ring.
Qed.

Lemma nth_map_seq {B : Type} (g : nat -> B) (N k : nat) (d : B) :
  (k < N)%nat -> nth k (map g (seq 0 N)) d = g k.
Proof.
  intros H. rewrite (nth_indep _ d (g 0%nat)) by (now rewrite length_map, length_seq).
  rewrite map_nth, seq_nth by exact H. reflexivity.
Qed.

Lemma skipn_repeat {A : Type} (a : A) (k n : nat) :
  skipn k (repeat a n) = repeat a (n - k).
Proof.
  revert n. induction k as [|k IH]; intros n.
  - now rewrite Nat.sub_0_r.
  - destruct n as [|n]; [reflexivity|]. cbn [repeat skipn]. apply IH.
Qed.

Lemma firstn_repeat {A : Type} (a : A) (k n : nat) :
  (k <= n)%nat -> firstn k (repeat a n) = repeat a k.
Proof.
  revert n. induction k as [|k IH]; intros n H; [reflexivity|].
  destruct n as [|n]; [lia|]. cbn [repeat firstn]. f_equal. apply IH. lia.
Qed.

(** The autocorrelation of the spike frame at the lags 2, 3, ... *)
Lemma spike_autocorr (m c : R) (n k : nat) :
  c = INR (S (S n)) * m -> (2 <= k <= n)%nat ->
  dot ((- m) :: (c - m) :: repeat (- m) n)
      (skipn k ((- m) :: (c - m) :: repeat (- m) n))
  = - (INR k * (m * m)).
Proof.
  intros Hc Hk. destruct k as [|[|k]]; try lia. cbn [skipn].
  rewrite skipn_repeat, dot_repeat.
  assert (Hf : firstn (n - k) ((- m) :: (c - m) :: repeat (- m) n)
               = (- m) :: (c - m) :: repeat (- m) (n - k - 2)).
  { destruct (n - k)%nat as [|[|j]] eqn:E; try lia. cbn [firstn].
    rewrite firstn_repeat by lia. do 3 f_equal. lia. }
  rewrite Hf. cbn [Py.sum fold_right]. fold (Py.sum (repeat (- m) (n - k - 2))).
  rewrite sum_repeat, Hc.
  replace (INR (n - k - 2)) with (INR n - INR k - 2).
  2:{ rewrite !minus_INR by lia. rewrite !S_INR. cbn [INR]. lra. }
  rewrite !S_INR. ring.
Qed.

Lemma argmax_from_keeps (l : list R) (i bi : nat) (bv : R) :
  Forall (fun u => u <= bv) l -> argmax_from l i bi bv = bi.
Proof.
  revert i. induction l as [|v l IH]; intros i H; [reflexivity|].
  inversion H; subst. cbn [argmax_from].
  destruct (Rlt_dec bv v); [lra | now apply IH].
Qed.

Lemma argmax_head (g : nat -> R) (a L : nat) :
  (forall k, (a < k < a + S L)%nat -> g k <= g a) ->
  argmax (map g (seq a (S L))) = 0%nat.
Proof.
  intros H. cbn [seq map argmax]. apply argmax_from_keeps.
  apply Forall_forall. intros u Hu. apply in_map_iff in Hu.
  destruct Hu as [k [<- Hk]]. apply in_seq in Hk. apply H. lia.
Qed.

Lemma slice_inner {A : Type} (l : list A) (a b : Z) :
  (0 <= a <= b)%Z -> (b <= len l)%Z ->
  Py.slice l a b = firstn (Z.to_nat (b - a)) (skipn (Z.to_nat a) l).
Proof.
  intros Hab Hb. unfold Py.slice, Py.norm_index, len in *.
  assert (E1 : (a <? 0)%Z = false) by lia. assert (E2 : (b <? 0)%Z = false) by lia.
  rewrite E1, E2. now rewrite !Z.min_l by lia.
Qed.

Lemma firstn_seq (k start n : nat) : firstn k (seq start n) = seq start (Nat.min k n).
Proof.
  revert start n. induction k as [|k IH]; intros start n; [reflexivity|].
  destruct n as [|n]; [reflexivity|]. cbn [seq firstn Nat.min]. f_equal. apply IH.
Qed.

Lemma slice_map_seq {B : Type} (g : nat -> B) (N : nat) (a b : Z) :
  (0 <= a <= b)%Z -> (b <= Z.of_nat N)%Z ->
  Py.slice (map g (seq 0 N)) a b = map g (seq (Z.to_nat a) (Z.to_nat (b - a))).
Proof.
  intros Hab Hb. rewrite slice_inner by (unfold len; rewrite ?length_map, ?length_seq; lia).
  rewrite skipn_map, firstn_map, skipn_seq, firstn_seq.
  f_equal. f_equal. lia.
Qed.

Lemma cos_lt_1 (x : R) : 0 < x < PI -> cos (2 * x) < 1.
Proof.
  intros H. rewrite cos_2a_sin. pose proof (sin_gt_0 x (proj1 H) (proj2 H)). nra.
Qed.

(** A two-sample input at 48 kHz with the default bounds: the input is
    extended by zeros to one frame of 2208 samples, the frame is analyzed
    and the tracker returns the single estimate 48000 / 24 = 2000 Hz, with
    confidence 0 and the note on the zero-padding. *)
Lemma estimate_f0_errors_witness :
  _estimate_f0_acf_with_meta [0.5; 0.25] 48000 MIN_F0_HZ MAX_F0_HZ None
  = Ok ([2000], [0],
        mkMeta 24 1200 2208 552 24
          ["short audio; frame was zero-padded for f0 tracking"%string]).
Proof.
  assert (Hmin : MIN_F0_HZ <> 0) by (unfold MIN_F0_HZ; lra).
  assert (Hmax : MAX_F0_HZ <> 0) by (unfold MAX_F0_HZ; lra).
  destruct (estimate_f0_errors [0.5; 0.25] 48000 MIN_F0_HZ MAX_F0_HZ None Hmin Hmax)
    as [_ H].
  assert (Efs : frame_size_of 48000 = 2208%Z).
  { unfold frame_size_of. rewrite (int_val _ 2208); [reflexivity | lra | lra]. }
  assert (Elmin : Py.floor (IZR 48000 / MAX_F0_HZ) = 24%Z)
    by (apply floor_unique; unfold MAX_F0_HZ; lra).
  assert (Eceil : Py.ceil (IZR 48000 / MIN_F0_HZ) = 1200%Z).
  { unfold Py.ceil. rewrite (floor_unique _ (-1200)); [reflexivity|].
    unfold MIN_F0_HZ. lra. }
  assert (Ehop : hop_of 48000 = 552%Z) by (unfold hop_of; rewrite Efs; reflexivity).
  rewrite Efs, Elmin, Eceil, Ehop in H.
  change (Z.max 1 24) with 24%Z in H. change (Z.min (2208 - 1) 1200) with 1200%Z in H.
  destruct (H ltac:(lia)) as [est [_ [_ [_ Hshort]]]]. clear H.
  destruct (Hshort ltac:(unfold len; cbn [length]; lia)) as [_ [_ [Hpad Hout]]].
  clear Hshort. rewrite Hpad in Hout. clear Hpad.
  change (Z.to_nat (2208 - len [0.5; 0.25])) with 2206%nat in Hout.
  pose proof (spike_first_frame 0.5 0.25 2206) as Hf. cbv zeta in Hf.
  change (Z.of_nat 2208) with 2208%Z in Hf. rewrite Hf in Hout. clear Hf.
  change (2208 - 1)%Z with 2207%Z in Hout.
  set (c := 0.25 * (0.5 - 0.5 * cos (2 * PI * INR 1 / 2207))) in *.
  set (m := c / INR 2208) in *.
  set (f := (- m) :: (c - m) :: repeat (- m) 2206) in *.
  assert (Hc0 : 0 < c).
  { unfold c. replace (2 * PI * INR 1 / 2207) with (2 * (PI / 2207))
      by (cbn [INR]; lra).
    assert (cos (2 * (PI / 2207)) < 1)
      by (apply cos_lt_1; pose proof PI_RGT_0; lra).
    lra. }
  assert (HN : INR 2208 = 2208) by (rewrite INR_IZR_INZ; reflexivity).
  assert (Hcm : c = INR 2208 * m) by (unfold m; rewrite HN; field).
  assert (Hm0 : 0 < m) by (unfold m; rewrite HN; lra).
  assert (Hlen : length f = 2208%nat) by (unfold f; cbn [length]; now rewrite repeat_length).
  assert (Hac : autocorr f = map (fun k => dot f (skipn k f)) (seq 0 2208))
    by (unfold autocorr; now rewrite Hlen).
  rewrite Hac in Hout. cbv zeta in Hout.
  rewrite nth_map_seq in Hout by lia. cbn [skipn] in Hout.
  set (ac0 := dot f f) in *.
  assert (Hpos : 0 < ac0).
  { unfold ac0, f. rewrite !dot_cons.
    pose proof (dot_self_nonneg (repeat (- m) 2206)).
    assert (0 < (c - m) * (c - m)) by (rewrite Hcm, HN; nra). nra. }
  destruct Hout as [_ Hout]. specialize (Hout Hpos).
  rewrite map_map in Hout.
  set (g := fun k : nat => dot f (skipn k f) / (ac0 + 1e-12)) in *.
  assert (Hg : forall k, (2 <= k <= 2206)%nat -> g k = - (INR k * (m * m)) / (ac0 + 1e-12)).
  { intros k Hk. unfold g, f. rewrite (spike_autocorr m c 2206 k Hcm Hk). reflexivity. }
  rewrite (slice_map_seq g 2208 24 1200) in Hout by lia.
  change (Z.to_nat 24) with 24%nat in Hout.
  change (Z.to_nat (1200 - 24)) with (S 1175) in Hout.
  rewrite (argmax_head g 24 1175) in Hout.
  2:{ intros k Hk. rewrite !Hg by lia.
      assert (INR 24 <= INR k) by (apply le_INR; lia).
      unfold Rdiv. apply Rmult_le_compat_r; [left; apply Rinv_0_lt_compat; lra|].
      nra. }
  change (Z.of_nat 0 + 24)%Z with 24%Z in Hout.
  change (Z.to_nat 24) with 24%nat in Hout.
  rewrite nth_map_seq in Hout by lia.
  rewrite Hout. repeat f_equal.
  - lra.
  - rewrite Hg by lia. unfold Py.clip.
    assert (Hneg : - (INR 24 * (m * m)) / (ac0 + 1e-12) <= 0).
    { unfold Rdiv. rewrite <- (Rmult_0_l (/ (ac0 + 1e-12))).
      apply Rmult_le_compat_r; [left; apply Rinv_0_lt_compat; lra|].
      assert (0 <= INR 24) by apply pos_INR. nra. }
    rewrite Rmax_right by lra. rewrite Rmin_left by lra. lra.
Defined.

(** ** Lists: sortedness under the list operations of the analyzer *)

Section SortedLists.
Context {A : Type}.

Lemma ss_app (R : A -> A -> Prop) (l1 l2 : list A) :
  StronglySorted R l1 -> StronglySorted R l2 ->
  (forall a b, In a l1 -> In b l2 -> R a b) ->
  StronglySorted R (l1 ++ l2).
Proof.
  induction 1 as [|a l1 Hs IH Hall]; intros H2 Hc; cbn [app]; [exact H2|].
  constructor.
  - apply IH; [exact H2|]. intros x y Hx Hy. apply Hc; [now right | exact Hy].
  - apply Forall_app. split; [exact Hall|].
    apply Forall_forall. intros y Hy. apply Hc; [now left | exact Hy].
Qed.

Lemma ss_app_inv (R : A -> A -> Prop) (l1 l2 : list A) :
  StronglySorted R (l1 ++ l2) ->
  StronglySorted R l1 /\ StronglySorted R l2
  /\ (forall a b, In a l1 -> In b l2 -> R a b).
Proof.
  induction l1 as [|a l1 IH]; cbn [app]; intros H.
  - split; [constructor|]. split; [exact H|]. intros ? ? [].
  - inversion H as [|? ? Hs Hall]; subst. destruct (IH Hs) as [I1 [I2 I3]].
    apply Forall_app in Hall. destruct Hall as [Ha1 Ha2].
    split; [now constructor|]. split; [exact I2|].
    intros x y [<- | Hx] Hy.
    + rewrite Forall_forall in Ha2. now apply Ha2.
    + now apply I3.
Qed.

Lemma ss_rev (R : A -> A -> Prop) (l : list A) :
  StronglySorted R l -> StronglySorted (fun a b => R b a) (rev l).
Proof.
  induction 1 as [|a l Hs IH Hall]; cbn [rev]; [constructor|].
  apply ss_app; [exact IH | repeat constructor|].
  intros x y Hx [<- | []]. apply in_rev in Hx.
  rewrite Forall_forall in Hall. now apply Hall.
Qed.

Lemma ss_firstn (R : A -> A -> Prop) (n : nat) (l : list A) :
  StronglySorted R l -> StronglySorted R (firstn n l).
Proof.
  intros H. rewrite <- (firstn_skipn n l) in H.
  now apply ss_app_inv in H.
Qed.

Lemma ss_weaken (R R' : A -> A -> Prop) (l : list A) :
  (forall a b, In a l -> In b l -> R a b -> R' a b) ->
  StronglySorted R l -> StronglySorted R' l.
Proof.
  intros Hw H. induction H as [|a l Hs IH Hall]; constructor.
  - apply IH. intros x y Hx Hy. apply Hw; now right.
  - rewrite Forall_forall in *. intros y Hy.
    apply Hw; [now left | now right | now apply Hall].
Qed.

Lemma ss_Forall2 {B : Type} (R : A -> A -> Prop) (R' : B -> B -> Prop)
    (P : A -> B -> Prop) (l : list A) (l' : list B) :
  Forall2 P l l' ->
  (forall a b a' b', P a a' -> P b b' -> R a b -> R' a' b') ->
  StronglySorted R l -> StronglySorted R' l'.
Proof.
  intros HF Hw. induction HF as [|a a' l l' Hp HF IH]; intros Hs; [constructor|].
  inversion Hs as [|? ? Hs' Hall]; subst. constructor; [now apply IH|].
  clear IH Hs Hs'. induction HF as [|b b' l l' Hq HF IH]; [constructor|].
  inversion Hall; subst. constructor; [now apply (Hw a b) | now apply IH].
Qed.

Lemma in_firstn (n : nat) (l : list A) (x : A) : In x (firstn n l) -> In x l.
Proof.
  intros H. rewrite <- (firstn_skipn n l). apply in_or_app. now left.
Qed.

Lemma in_skipn (n : nat) (l : list A) (x : A) : In x (skipn n l) -> In x l.
Proof.
  intros H. rewrite <- (firstn_skipn n l). apply in_or_app. now right.
Qed.

Lemma map_nth_seq (l : list A) (d : A) :
  map (fun k => nth k l d) (seq 0 (length l)) = l.
Proof.
  induction l as [|a l IH]; [reflexivity|].
  cbn [length seq map nth]. f_equal.
  rewrite <- seq_shift, map_map. exact IH.
Qed.

End SortedLists.

Lemma mapM_ok {A B : Type} (f : A -> result B) (P : A -> B -> Prop) (l : list A) :
  (forall a, In a l -> exists b, f a = Ok b /\ P a b) ->
  exists bs, mapM f l = Ok bs /\ Forall2 P l bs.
Proof.
  induction l as [|a l IH]; intros H.
  - exists []. split; [reflexivity | constructor].
  - destruct (H a (or_introl eq_refl)) as [b [E Hp]].
    destruct IH as [bs [E' HF]]; [intros; apply H; now right|].
    exists (b :: bs). cbn [mapM]. rewrite E. cbn [bind]. rewrite E'. cbn [bind].
    split; [reflexivity | now constructor].
Qed.

(** ** The stable argsort is an argsort *)

Lemma stable_argsort_perm (v : list R) :
  Permutation (stable_argsort v) (seq 0 (length v)).
Proof. unfold stable_argsort. symmetry. apply sort_perm. Qed.

Lemma stable_argsort_sorted (v : list R) :
  StronglySorted (fun i j => nth i v 0 <= nth j v 0) (stable_argsort v).
Proof.
  unfold stable_argsort.
  eapply ss_weaken; [|apply sort_sorted].
  - intros a b _ _ H. cbv beta in H. now apply ltb_false in H.
  - intros a b H. apply ltb_false. apply ltb_true in H. lra.
  - intros a b c H1 H2. apply ltb_false. apply ltb_false in H1, H2. lra.
Qed.

(** ** Partial analyzer *)

Lemma ceil_nonneg (x : R) : 0 <= x -> (0 <= Py.ceil x)%Z.
Proof.
  intros H. unfold Py.ceil. destruct (floor_spec (- x)) as [H1 _].
  assert (H2 : IZR (Py.floor (- x)) < IZR 1) by (simpl; lra).
  apply lt_IZR in H2.
  assert (H3 : IZR (Py.floor (- x)) <= IZR 0) by (simpl; lra).
  apply le_IZR in H3. lia.
Qed.

Lemma valid_spectrum_ok (x : list R) (sr : Z) :
  sr <> 0%Z ->
  exists mag_valid freqs_valid,
    valid_spectrum x sr = Ok (mag_valid, freqs_valid)
    /\ length mag_valid = length freqs_valid
    /\ Forall (fun f => 20.0 <= f) freqs_valid.
Proof.
  intros Hsr. unfold valid_spectrum.
  assert (Hn : 1 <= IZR (Z.max 2 (len x))) by (apply IZR_le; lia).
  rewrite math_log2_ok by lra. cbn [bind].
  set (l := Py.log2 (IZR (Z.max 2 (len x)))).
  assert (Hl : 0 <= l).
  { unfold l. rewrite <- log2_1. apply log2_le; lra. }
  set (fft_n := Z.min (Z.shiftl 1 (Py.ceil l)) MAX_FFT).
  assert (Hfft : (0 < fft_n)%Z).
  { unfold fft_n, MAX_FFT. pose proof (ceil_nonneg l Hl) as Hc.
    rewrite Z.shiftl_1_l. pose proof (Z.pow_pos_nonneg 2 (Py.ceil l)). lia. }
  set (x' := if (len x <? fft_n)%Z then x ++ repeat 0 (Z.to_nat (fft_n - len x))
             else Py.slice x 0 fft_n).
  assert (Hlen : len x' = fft_n).
  { unfold x'. destruct (len x <? fft_n)%Z eqn:E.
    - rewrite len_app. unfold len at 2. rewrite repeat_length. unfold len in *. lia.
    - rewrite slice_0 by lia. unfold len in *. rewrite length_firstn. lia. }
  assert (Hsr' : IZR sr <> 0) by (intros H; apply eq_IZR in H; contradiction).
  rewrite fdiv_ok by exact Hsr'. cbn [bind].
  unfold rfftfreq. rewrite fdiv_ok.
  - cbn [bind]. eexists _, _. split; [reflexivity|]. split.
    + now rewrite !length_map.
    + apply Forall_forall. intros f Hf. apply in_map_iff in Hf.
      destruct Hf as [[f' m] [<- Hfm]]. apply filter_In in Hfm.
      destruct Hfm as [_ Hfm]. cbn [fst] in *. now apply leb_true in Hfm.
  - rewrite Hlen. apply Rmult_integral_contrapositive_currified.
    + apply Rgt_not_eq, IZR_lt. exact Hfft.
    + unfold Rdiv. apply Rmult_integral_contrapositive_currified; [lra|].
      now apply Rinv_neq_0_compat.
Qed.

Section PartialAnalyzerFacts.

Variable find_peaks : list R -> R -> list nat * list R.
Variable argsort : list R -> list nat.

Hypothesis argsort_perm :
  forall v, Permutation (argsort v) (seq 0 (length v)).
Hypothesis argsort_sorted :
  forall v, StronglySorted (fun i j => nth i v 0 <= nth j v 0) (argsort v).

Lemma make_entry_ok (f0_hz : R) (freqs_valid mag_db : list R) (amp_max : R)
    (peaks_idx : list nat) (prominences : list R) (k : nat) :
  exists e,
    make_entry f0_hz freqs_valid mag_db amp_max peaks_idx prominences k = Ok e
    /\ entry_for freqs_valid mag_db amp_max peaks_idx prominences k e.
Proof.
  unfold make_entry.
  rewrite fdiv_ok by (pose proof (Rmax_eps_pos f0_hz 1e-6); lra). cbn [bind].
  set (ratio := nth (nth k peaks_idx O) freqs_valid 0 / Rmax f0_hz 1e-6).
  assert (Hq : Py.fdiv (if (k <? length prominences)%nat then nth k prominences 0 else 1.0)
                       (PROMINENCE_DB * 2.0)
               = Ok ((if (k <? length prominences)%nat then nth k prominences 0 else 1.0)
                     / (PROMINENCE_DB * 2.0)))
    by (apply fdiv_ok; unfold PROMINENCE_DB; lra).
  destruct (Py.round ratio <? 1)%Z eqn:E.
  - cbn [bind]. rewrite Hq. cbn [bind]. eexists. split; [reflexivity|].
    unfold entry_for. cbn. auto.
  - rewrite fdiv_ok by (apply Rgt_not_eq, IZR_lt; lia). cbn [bind].
    destruct (Rlt_dec 0.03 _); cbn [bind]; rewrite Hq; cbn [bind];
      (eexists; split; [reflexivity | unfold entry_for; cbn; auto]).
Qed.

Lemma order_in_range (mag_db : list R) (peaks_idx : list nat) (k : nat) :
  In k (order_of argsort mag_db peaks_idx) -> (k < length peaks_idx)%nat.
Proof.
  unfold order_of. rewrite slice_0 by (unfold MAX_PEAKS; lia).
  intros H. apply in_firstn in H. apply in_rev in H.
  apply (Permutation_in _ (argsort_perm _)) in H.
  apply in_seq in H. unfold take in H. rewrite length_map in H. lia.
Qed.

Lemma order_sorted (mag_db : list R) (peaks_idx : list nat) :
  StronglySorted
    (fun k1 k2 => nth (nth k2 peaks_idx O) mag_db 0 <= nth (nth k1 peaks_idx O) mag_db 0)
    (order_of argsort mag_db peaks_idx).
Proof.
  assert (Hnth : forall k, (k < length peaks_idx)%nat ->
                 nth k (take mag_db peaks_idx) 0 = nth (nth k peaks_idx O) mag_db 0).
  { intros k Hk. unfold take.
    rewrite (nth_indep _ 0 (nth O mag_db 0)) by (rewrite length_map; exact Hk).
    apply (map_nth (fun i => nth i mag_db 0)). }
  eapply ss_weaken with
    (R := fun k1 k2 => nth k2 (take mag_db peaks_idx) 0 <= nth k1 (take mag_db peaks_idx) 0).
  - intros a b Ha Hb H. apply order_in_range in Ha, Hb.
    rewrite <- !Hnth by assumption. exact H.
  - unfold order_of. rewrite slice_0 by (unfold MAX_PEAKS; lia).
    apply ss_firstn. apply ss_rev with (R := fun i j => nth i (take mag_db peaks_idx) 0
                                                      <= nth j (take mag_db peaks_idx) 0).
    apply argsort_sorted.
Qed.

Lemma order_length (mag_db : list R) (peaks_idx : list nat) :
  (length (order_of argsort mag_db peaks_idx) <= 60)%nat.
Proof.
  unfold order_of. rewrite slice_0 by (unfold MAX_PEAKS; lia).
  rewrite length_firstn. unfold MAX_PEAKS. lia.
Qed.

(** Lines 353-392 never raise; the entries follow [order]. *)
Lemma peaks_from_spectrum_ok (mag_valid freqs_valid : list R) (f0_hz : R) :
  mag_valid <> [] ->
  exists entries,
    peaks_from_spectrum find_peaks argsort mag_valid freqs_valid f0_hz
    = Ok (entries, firstn 12 entries)
    /\ Forall2 (entry_for freqs_valid (mag_db_of mag_valid)
                          (np_max (mag_db_of mag_valid))
                          (fst (pick_peaks find_peaks argsort mag_valid (mag_db_of mag_valid)))
                          (snd (pick_peaks find_peaks argsort mag_valid (mag_db_of mag_valid))))
               (order_of argsort (mag_db_of mag_valid)
                  (fst (pick_peaks find_peaks argsort mag_valid (mag_db_of mag_valid))))
               entries.
Proof.
  intros Hne. unfold peaks_from_spectrum.
  destruct mag_valid as [|m0 rest] eqn:Em; [contradiction|]. rewrite <- Em. clear Hne.
  destruct (pick_peaks find_peaks argsort mag_valid (mag_db_of mag_valid))
    as [peaks_idx prominences]. cbn [fst snd].
  destruct (mapM_ok
              (make_entry f0_hz freqs_valid (mag_db_of mag_valid)
                 (np_max (mag_db_of mag_valid)) peaks_idx prominences)
              (entry_for freqs_valid (mag_db_of mag_valid)
                 (np_max (mag_db_of mag_valid)) peaks_idx prominences)
              (order_of argsort (mag_db_of mag_valid) peaks_idx))
    as [entries [E HF]].
  { intros k _. apply make_entry_ok. }
  exists entries. rewrite E. cbn [bind].
  rewrite slice_0 by (unfold SUMMARY_PEAKS; lia).
  split; [reflexivity | exact HF].
Qed.

(** C7.  For a non-zero sample rate the partial analyzer returns two
    lists; the full list is in descending order of spectral magnitude (its
    [rel_amp_db] values, the dB magnitudes of the chosen bins relative to
    the loudest valid bin, never increase), it has at most 60 entries, and
    the summary is its first 12 entries (all of them when there are fewer).
    This holds for every [find_peaks] and for every [argsort] that returns
    a sorting permutation of the indices. *)
Theorem analyze_partials_sorted_capped_prefix (x : list R) (sr : Z) (f0_hz : R) :
  sr <> 0%Z ->
  exists peaks summary,
    _analyze_partials find_peaks argsort x sr f0_hz = Ok (peaks, summary)
    /\ StronglySorted (fun a b => rel_amp_db b <= rel_amp_db a) peaks
    /\ (length peaks <= 60)%nat
    /\ summary = firstn 12 peaks
    /\ exists mag_valid freqs_valid bins,
         valid_spectrum x sr = Ok (mag_valid, freqs_valid)
         /\ map rel_amp_db peaks
            = map (fun i => nth i (mag_db_of mag_valid) 0 - np_max (mag_db_of mag_valid))
                  bins.
Proof.
  intros Hsr.
  destruct (valid_spectrum_ok x sr Hsr) as [mv [fv [Ev _]]].
  unfold _analyze_partials. rewrite Ev. cbn [bind fst snd].
  destruct mv as [|m0 rest] eqn:Em.
  - exists [], []. cbn. split; [reflexivity|]. split; [constructor|].
    split; [lia|]. split; [reflexivity|].
    exists [], fv, []. split; reflexivity.
  - rewrite <- Em in *.
    destruct (peaks_from_spectrum_ok mv fv f0_hz) as [entries [E HF]];
      [rewrite Em; discriminate|].
    exists entries, (firstn 12 entries). split; [exact E|].
    set (pidx := fst (pick_peaks find_peaks argsort mv (mag_db_of mv))) in *.
    split; [|split; [|split; [reflexivity|]]].
    + eapply ss_Forall2; [exact HF | | apply (order_sorted (mag_db_of mv) pidx)].
      intros a b a' b' [_ [Ha _]] [_ [Hb _]] H. cbv beta in H.
      rewrite Ha, Hb. lra.
    + rewrite <- (Forall2_length HF). apply order_length.
    + exists mv, fv, (map (fun k => nth k pidx O) (order_of argsort (mag_db_of mv) pidx)).
      split; [reflexivity|]. rewrite map_map.
      clear E. induction HF as [|k e l l' [_ [He _]] _ IH]; [reflexivity|].
      cbn [map]. rewrite He, IH. reflexivity.
Qed.

End PartialAnalyzerFacts.

(** The peak lists of a two-sample input, with the stable argsort and a
    [find_peaks] that finds nothing. *)
Lemma analyze_partials_sorted_capped_prefix_witness :
  exists peaks summary,
    _analyze_partials no_peaks stable_argsort [0.5; 0.25] 48000 100 = Ok (peaks, summary)
    /\ StronglySorted (fun a b => rel_amp_db b <= rel_amp_db a) peaks
    /\ (length peaks <= 60)%nat
    /\ summary = firstn 12 peaks
    /\ exists mag_valid freqs_valid bins,
         valid_spectrum [0.5; 0.25] 48000 = Ok (mag_valid, freqs_valid)
         /\ map rel_amp_db peaks
            = map (fun i => nth i (mag_db_of mag_valid) 0 - np_max (mag_db_of mag_valid))
                  bins.
Proof.
  apply (analyze_partials_sorted_capped_prefix no_peaks stable_argsort
           stable_argsort_perm stable_argsort_sorted [0.5; 0.25] 48000 100).
  discriminate.
Defined.

Lemma slice_tail {A : Type} (l : list A) (m : Z) :
  (1 <= m <= len l)%Z ->
  Py.slice l (- m) (len l) = skipn (length l - Z.to_nat m) l.
Proof.
  intros Hm. unfold Py.slice, Py.norm_index, len in *.
  assert (E1 : (- m <? 0)%Z = true) by lia. rewrite E1.
  assert (E2 : (Z.of_nat (length l) <? 0)%Z = false) by lia. rewrite E2.
  rewrite Z.min_id.
  replace (Z.to_nat (Z.max 0 (Z.of_nat (length l) + - m)))
    with (length l - Z.to_nat m)%nat by lia.
  apply firstn_all2. rewrite length_skipn. lia.
Qed.

Lemma clip_fallback : Py.clip (1.0 / (PROMINENCE_DB * 2.0)) 0.0 1.0 = 1 / 30.
Proof.
  unfold Py.clip, PROMINENCE_DB.
  rewrite Rmax_left by lra. rewrite Rmin_left by lra. lra.
Qed.

Lemma nth_repeat_lt {A : Type} (a d : A) (n k : nat) :
  (k < n)%nat -> nth k (repeat a n) d = a.
Proof.
  revert k. induction n as [|n IH]; intros k H; [lia|].
  destruct k as [|k]; [reflexivity|]. cbn. apply IH. lia.
Qed.

Section PartialAnalyzerFallback.

Variable find_peaks : list R -> R -> list nat * list R.
Variable argsort : list R -> list nat.

Hypothesis argsort_perm :
  forall v, Permutation (argsort v) (seq 0 (length v)).
Hypothesis argsort_sorted :
  forall v, StronglySorted (fun i j => nth i v 0 <= nth j v 0) (argsort v).

Lemma argsort_length (v : list R) : length (argsort v) = length v.
Proof. rewrite (Permutation_length (argsort_perm v)). apply length_seq. Qed.

(** The fallback of lines 360-363: the top bins and unit prominences. *)
Lemma pick_peaks_fallback (mag_valid : list R) :
  mag_valid <> [] ->
  fst (find_peaks (mag_db_of mag_valid) PROMINENCE_DB) = [] ->
  exists bins,
    pick_peaks find_peaks argsort mag_valid (mag_db_of mag_valid)
    = (bins, repeat 1.0 (length bins))
    /\ bins = skipn (length mag_valid - Nat.min 60 (length mag_valid)) (argsort mag_valid)
    /\ length bins = Nat.min 60 (length mag_valid)
    /\ NoDup bins
    /\ (forall i, In i bins -> (i < length mag_valid)%nat)
    /\ (forall i j, In i bins -> (j < length mag_valid)%nat -> ~ In j bins ->
          nth j mag_valid 0 <= nth i mag_valid 0).
Proof.
  intros Hne Hnone. unfold pick_peaks.
  destruct (find_peaks (mag_db_of mag_valid) PROMINENCE_DB) as [pidx proms].
  cbn [fst] in Hnone. subst pidx.
  assert (HL : (1 <= length mag_valid)%nat).
  { destruct mag_valid; [contradiction | cbn; lia]. }
  pose proof (argsort_length mag_valid) as Hlen.
  set (sorted := argsort mag_valid) in *.
  assert (Eb : Py.slice sorted (- Z.min MAX_PEAKS (len mag_valid)) (len sorted)
               = skipn (length mag_valid - Nat.min 60 (length mag_valid)) sorted).
  { rewrite slice_tail by (unfold len, MAX_PEAKS; lia).
    f_equal. unfold len, MAX_PEAKS. lia. }
  rewrite Eb.
  set (d := (length mag_valid - Nat.min 60 (length mag_valid))%nat) in *.
  exists (skipn d sorted). split; [reflexivity|]. split; [reflexivity|].
  assert (Hnd : NoDup sorted).
  { apply (Permutation_NoDup (Permutation_sym (argsort_perm mag_valid))), seq_NoDup. }
  assert (Hin : forall i, In i sorted <-> (i < length mag_valid)%nat).
  { intros i. split; intros H.
    - apply (Permutation_in _ (argsort_perm mag_valid)) in H. apply in_seq in H. lia.
    - apply (Permutation_in _ (Permutation_sym (argsort_perm mag_valid))).
      apply in_seq. lia. }
  split; [rewrite length_skipn; unfold d; lia|].
  split; [rewrite <- (firstn_skipn d sorted) in Hnd; now apply NoDup_app_remove_l in Hnd|].
  split; [intros i Hi; apply Hin; now apply in_skipn in Hi|].
  intros i j Hi Hj Hnj.
  pose proof (argsort_sorted mag_valid) as Hs. fold sorted in Hs.
  rewrite <- (firstn_skipn d sorted) in Hs. apply ss_app_inv in Hs.
  destruct Hs as [_ [_ Hs]]. apply Hs; [|exact Hi].
  apply Hin in Hj. rewrite <- (firstn_skipn d sorted) in Hj.
  apply in_app_or in Hj. destruct Hj as [Hj | Hj]; [exact Hj | contradiction].
Qed.

(** With at most 60 peak positions, [order] is a permutation of them. *)
Lemma order_perm_small (mag_db : list R) (peaks_idx : list nat) :
  (length peaks_idx <= 60)%nat ->
  Permutation (order_of argsort mag_db peaks_idx) (seq 0 (length peaks_idx)).
Proof.
  intros H. unfold order_of. rewrite slice_0 by (unfold MAX_PEAKS; lia).
  rewrite firstn_all2.
  - rewrite <- Permutation_rev.
    replace (length peaks_idx) with (length (take mag_db peaks_idx))
      by (unfold take; apply length_map).
    apply argsort_perm.
  - rewrite length_rev, argsort_length. unfold take. rewrite length_map.
    unfold MAX_PEAKS. lia.
Qed.

Lemma fallback_entries (mag_valid freqs_valid : list R) (f0_hz : R) :
  fst (find_peaks (mag_db_of mag_valid) PROMINENCE_DB) = [] ->
  exists peaks summary bins,
    peaks_from_spectrum find_peaks argsort mag_valid freqs_valid f0_hz
    = Ok (peaks, summary)
    /\ length peaks = Nat.min 60 (length mag_valid)
    /\ NoDup bins /\ length bins = Nat.min 60 (length mag_valid)
    /\ (forall i, In i bins -> (i < length mag_valid)%nat)
    /\ (forall i j, In i bins -> (j < length mag_valid)%nat -> ~ In j bins ->
          nth j mag_valid 0 <= nth i mag_valid 0)
    /\ Permutation (map hz peaks) (map (fun i => Some (nth i freqs_valid 0)) bins)
    /\ Forall (fun p => peak_confidence p = 1 / 30) peaks.
Proof.
  intros Hnone. destruct mag_valid as [|m0 rest] eqn:Em.
  { exists [], [], []. cbn. repeat split; try constructor; intros; contradiction. }
  rewrite <- Em in *.
  assert (Hne : mag_valid <> []) by (rewrite Em; discriminate).
  destruct (pick_peaks_fallback mag_valid Hne Hnone)
    as [bins [Ep [_ [Hlen [Hnd [Hrange Htop]]]]]].
  destruct (peaks_from_spectrum_ok find_peaks argsort mag_valid freqs_valid f0_hz Hne)
    as [entries [E HF]].
  rewrite Ep in HF. cbn [fst snd] in HF.
  assert (Hperm : Permutation (order_of argsort (mag_db_of mag_valid) bins)
                              (seq 0 (length bins)))
    by (apply order_perm_small; lia).
  exists entries, (firstn 12 entries), bins.
  split; [exact E|].
  split; [rewrite <- (Forall2_length HF), (Permutation_length Hperm), length_seq; exact Hlen|].
  split; [exact Hnd|]. split; [exact Hlen|]. split; [exact Hrange|]. split; [exact Htop|].
  split.
  - assert (Hmap : map hz entries
                   = map (fun i => Some (nth i freqs_valid 0))
                         (map (fun k => nth k bins O)
                              (order_of argsort (mag_db_of mag_valid) bins))).
    { rewrite map_map. clear E Hperm.
      induction HF as [|k e l l' [He _] _ IH]; [reflexivity|].
      cbn [map]. rewrite He, IH. reflexivity. }
    rewrite Hmap. apply Permutation_map.
    rewrite <- (map_nth_seq bins O) at 2. now apply Permutation_map.
  - assert (Hk : Forall (fun k => (k < length bins)%nat)
                        (order_of argsort (mag_db_of mag_valid) bins)).
    { apply Forall_forall. intros k Hk.
      apply (Permutation_in _ Hperm) in Hk. apply in_seq in Hk. lia. }
    clear E Hperm. induction HF as [|k e l l' [_ [_ He]] _ IH]; [constructor|].
    inversion Hk as [|? ? Hk1 Hk2]; subst. constructor; [|now apply IH].
    rewrite He. rewrite repeat_length.
    assert (Ek : (k <? length bins)%nat = true) by (apply Nat.ltb_lt; exact Hk1).
    rewrite Ek. rewrite nth_repeat_lt by exact Hk1. apply clip_fallback.
Qed.

(** C4 (as the code has it).  When [find_peaks] reports no peak at the
    15 dB prominence, the analyzer falls back to N = min(60, number of
    valid bins) distinct bins of largest raw magnitude among the valid
    bins (those at or above 20 Hz, so never DC), reports one peak per such
    bin, and gives each a prominence of 1.0, hence a [peak_confidence] of
    clip(1.0 / 30) = 1/30. *)
Theorem fallback_takes_top_bins_with_unit_prominence
    (x : list R) (sr : Z) (f0_hz : R) :
  sr <> 0%Z ->
  exists mag_valid freqs_valid,
    valid_spectrum x sr = Ok (mag_valid, freqs_valid)
    /\ length mag_valid = length freqs_valid
    /\ Forall (fun f => 20.0 <= f) freqs_valid
    /\ (fst (find_peaks (mag_db_of mag_valid) PROMINENCE_DB) = [] ->
        exists peaks summary bins,
          _analyze_partials find_peaks argsort x sr f0_hz = Ok (peaks, summary)
          /\ length peaks = Nat.min 60 (length mag_valid)
          /\ NoDup bins /\ length bins = Nat.min 60 (length mag_valid)
          /\ (forall i, In i bins -> (i < length mag_valid)%nat)
          /\ (forall i j, In i bins -> (j < length mag_valid)%nat -> ~ In j bins ->
                nth j mag_valid 0 <= nth i mag_valid 0)
          /\ Permutation (map hz peaks)
                         (map (fun i => Some (nth i freqs_valid 0)) bins)
          /\ Forall (fun p => peak_confidence p = 1 / 30) peaks).
Proof.
  intros Hsr.
  destruct (valid_spectrum_ok x sr Hsr) as [mv [fv [Ev [Hl Hf]]]].
  exists mv, fv. split; [exact Ev|]. split; [exact Hl|]. split; [exact Hf|].
  intros Hnone. unfold _analyze_partials. rewrite Ev. cbn [bind fst snd].
  now apply fallback_entries.
Qed.

End PartialAnalyzerFallback.

Lemma impulse_spectrum : exists m f, valid_spectrum [0] 48000 = Ok ([m], [f]).
Proof.
  unfold valid_spectrum.
  change (len [0]) with 1%Z. change (Z.max 2 1) with 2%Z.
  rewrite math_log2_ok by lra. cbn [bind].
  rewrite log2_2.
  replace (Py.ceil 1) with 1%Z by (symmetry; apply (ceil_IZR 1)).
  change (Z.shiftl 1 1) with 2%Z. change (Z.min 2 MAX_FFT) with 2%Z.
  change (1 <? 2)%Z with true. cbv iota.
  change (Z.to_nat (2 - 1)) with 1%nat. cbn [repeat app].
  change (len [0; 0]) with 2%Z.
  rewrite fdiv_ok by lra. cbn [bind]. unfold rfftfreq.
  rewrite fdiv_ok by lra. cbn [bind].
  change (Z.to_nat (2 / 2 + 1)) with 2%nat.
  unfold hanning. change (2 <? 1)%Z with false. change (2 =? 1)%Z with false. cbv iota.
  change (Z.to_nat 2) with 2%nat.
  unfold rfft_mag. cbn [seq map combine length fst snd].
  change (2 / 2 + 1)%nat with 2%nat. cbn [seq map combine filter fst snd].
  rewrite (proj2 (leb_false 20.0 (INR 0 * (1.0 / (2 * (1.0 / 48000)))))) by (simpl; lra).
  rewrite (proj2 (leb_true 20.0 (INR 1 * (1.0 / (2 * (1.0 / 48000)))))) by (simpl; lra).
  cbn [map fst snd]. eexists _, _. reflexivity.
Qed.

(** C4, the claim as stated fails.  A single zero sample at 48 kHz has
    one valid bin (24 kHz) and no peak, so the analyzer falls back to that
    bin; the peak it reports has [peak_confidence] 1/30, not 1.0. *)
Lemma fallback_confidence_is_not_one :
  exists peaks summary p,
    _analyze_partials no_peaks stable_argsort [0] 48000 100 = Ok (peaks, summary)
    /\ peaks = [p]
    /\ peak_confidence p = 1 / 30
    /\ peak_confidence p <> 1.0.
Proof.
  destruct impulse_spectrum as [m [f Ev]].
  destruct (fallback_entries no_peaks stable_argsort
              stable_argsort_perm stable_argsort_sorted [m] [f] 100 eq_refl)
    as [peaks [summary [bins [E [Hlen [_ [_ [_ [_ [_ Hconf]]]]]]]]]].
  destruct peaks as [|p [|p' peaks]]; try discriminate.
  exists [p], summary, p.
  split; [unfold _analyze_partials; rewrite Ev; exact E|].
  split; [reflexivity|].
  inversion Hconf as [|? ? Hp _]; subst.
  split; [exact Hp | rewrite Hp; lra].
Qed.

(** The fallback on a single zero sample at 48 kHz, with the stable
    argsort and a [find_peaks] that finds nothing. *)
Lemma fallback_takes_top_bins_with_unit_prominence_witness :
  exists mag_valid freqs_valid,
    valid_spectrum [0] 48000 = Ok (mag_valid, freqs_valid)
    /\ length mag_valid = length freqs_valid
    /\ Forall (fun f => 20.0 <= f) freqs_valid
    /\ (fst (no_peaks (mag_db_of mag_valid) PROMINENCE_DB) = [] ->
        exists peaks summary bins,
          _analyze_partials no_peaks stable_argsort [0] 48000 100 = Ok (peaks, summary)
          /\ length peaks = Nat.min 60 (length mag_valid)
          /\ NoDup bins /\ length bins = Nat.min 60 (length mag_valid)
          /\ (forall i, In i bins -> (i < length mag_valid)%nat)
          /\ (forall i j, In i bins -> (j < length mag_valid)%nat -> ~ In j bins ->
                nth j mag_valid 0 <= nth i mag_valid 0)
          /\ Permutation (map hz peaks)
                         (map (fun i => Some (nth i freqs_valid 0)) bins)
          /\ Forall (fun p => peak_confidence p = 1 / 30) peaks).
Proof.
  apply (fallback_takes_top_bins_with_unit_prominence no_peaks stable_argsort
           stable_argsort_perm stable_argsort_sorted [0] 48000 100).
  discriminate.
Defined.

(** ** Tuning inference: JI candidates *)

Lemma foldM_track {A S : Type} (f : S -> A -> result S)
    (I P : S -> Prop) (l : list A) (a0 : A) :
  (forall s a, In a l -> I s ->
     exists s', f s a = Ok s' /\ I s' /\ (P s -> P s') /\ (a = a0 -> P s')) ->
  forall s0, I s0 ->
    exists s', foldM f s0 l = Ok s' /\ I s' /\ (P s0 -> P s') /\ (In a0 l -> P s').
Proof.
  induction l as [|a l IH]; intros Hstep s0 H0.
  - exists s0. split; [reflexivity|]. split; [exact H0|]. split; [auto | intros []].
  - destruct (Hstep s0 a (or_introl eq_refl) H0) as [s1 [E1 [I1 [P1 Q1]]]].
    destruct (IH (fun s a' Ha => Hstep s a' (or_intror Ha)) s1 I1)
      as [s2 [E2 [I2 [P2 Q2]]]].
    exists s2. cbn [foldM]. rewrite E1. cbn [bind].
    split; [exact E2|]. split; [exact I2|]. split; [auto|].
    intros [-> | Hin]; auto.
Qed.

Lemma prime_factors_total :
  forall n, In n (Py.range 1 257 1) -> exists pf, _prime_factors n = Some pf.
Proof.
  assert (H : forallb (fun n => match _prime_factors n with
                                | Some _ => true
                                | None => false
                                end) (Py.range 1 257 1) = true)
    by (vm_compute; reflexivity).
  intros n Hn. rewrite forallb_forall in H. specialize (H n Hn).
  destruct (_prime_factors n) as [pf|]; [now exists pf | discriminate].
Qed.

Lemma key_eqb_eq (a b : ji_key) : key_eqb a b = true <-> a = b.
Proof.
  destruct a as [[a1 a2] a3], b as [[b1 b2] b3]. unfold key_eqb.
  rewrite !andb_true_iff, !Z.eqb_eq. split.
  - intros [[-> ->] ->]. reflexivity.
  - intros H. injection H as -> -> ->. auto.
Qed.

Lemma seen_spec (k : ji_key) (seen : list ji_key) :
  existsb (key_eqb k) seen = true <-> In k seen.
Proof.
  rewrite existsb_exists. split.
  - intros [x [Hx E]]. apply key_eqb_eq in E. now subst.
  - intros H. exists k. split; [exact H | now apply key_eqb_eq].
Qed.

Lemma reduced_fraction (p q : Z) :
  (0 < p)%Z -> (0 < q)%Z ->
  (0 < p / Z.gcd p q)%Z /\ (0 < q / Z.gcd p q)%Z
  /\ Z.gcd (p / Z.gcd p q) (q / Z.gcd p q) = 1%Z.
Proof.
  intros Hp Hq.
  assert (Hg : (0 < Z.gcd p q)%Z).
  { pose proof (Z.gcd_nonneg p q). assert (Z.gcd p q <> 0)%Z; [|lia].
    intros E. apply Z.gcd_eq_0_l in E. lia. }
  pose proof (Z.gcd_divide_l p q) as [a Ha].
  pose proof (Z.gcd_divide_r p q) as [b Hb].
  split; [|split].
  - rewrite Ha at 1. rewrite Z.div_mul by lia. nia.
  - rewrite Hb at 1. rewrite Z.div_mul by lia. nia.
  - apply Z.gcd_div_gcd; [lia | reflexivity].
Qed.

(** The body of the innermost loop keeps the invariant, only appends, and
    leaves the key of a pair that passes the filter in [seen]. *)
Lemma ji_step_q_ok (ratio : R) (limit p q : Z) (st : ji_state) :
  0 < ratio -> In limit [5; 7; 11; 13]%Z -> (0 < p)%Z ->
  In q (Py.range 1 257 1) -> ji_inv ratio st ->
  exists st',
    ji_step_q ratio limit p st q = Ok st'
    /\ ji_inv ratio st'
    /\ (forall k, In k (snd st) -> In k (snd st'))
    /\ (smoothb q limit = true ->
        In ((p / Z.gcd p q)%Z, (q / Z.gcd p q)%Z, limit) (snd st')).
Proof.
  intros Hr Hlim Hp Hq [Hwf Hseen].
  assert (Hq0 : (0 < q)%Z) by (apply range_bounds in Hq; lia).
  unfold ji_step_q, smoothb.
  destruct (prime_factors_total q Hq) as [qf ->].
  destruct (exceeds qf limit).
  { exists st. split; [reflexivity|]. split; [split; assumption|].
    split; [auto | discriminate]. }
  destruct (reduced_fraction p q Hp Hq0) as [Hpp [Hqq Hg]].
  set (pp := (p / Z.gcd p q)%Z) in *. set (qq := (q / Z.gcd p q)%Z) in *.
  destruct (existsb (key_eqb (pp, qq, limit)) (snd st)) eqn:Ek.
  { exists st. split; [reflexivity|]. split; [split; assumption|].
    split; [auto|]. intros _. now apply seen_spec. }
  assert (Hqq' : 0 < IZR qq) by (apply IZR_lt; exact Hqq).
  assert (Hpp' : 0 < IZR pp) by (apply IZR_lt; exact Hpp).
  rewrite fdiv_ok by lra. cbn [bind].
  rewrite fdiv_ok by lra. cbn [bind].
  assert (Hrr : 0 < IZR pp / IZR qq / ratio).
  { apply Rdiv_lt_0_compat; [apply Rdiv_lt_0_compat|]; assumption. }
  rewrite math_log2_ok by exact Hrr. cbn [bind].
  rewrite math_log2_ok by (apply IZR_lt; nia). cbn [bind].
  eexists. split; [reflexivity|]. unfold ji_inv. cbn [fst snd]. split; [split|split].
  - apply Forall_app. split; [exact Hwf|]. constructor; [|constructor].
    unfold ji_wf, ji_score. cbn. repeat split; auto.
  - intros k [<- | Hk].
    + rewrite map_app. apply in_or_app. right. now left.
    + rewrite map_app. apply in_or_app. left. now apply Hseen.
  - intros k Hk. now right.
  - intros _. now left.
Qed.

Lemma ji_loop_q (ratio : R) (limit p q0 : Z) (st : ji_state) :
  0 < ratio -> In limit [5; 7; 11; 13]%Z -> (0 < p)%Z -> ji_inv ratio st ->
  exists st',
    foldM (ji_step_q ratio limit p) st (Py.range 1 257 1) = Ok st'
    /\ ji_inv ratio st'
    /\ (forall k, In k (snd st) -> In k (snd st'))
    /\ (In q0 (Py.range 1 257 1) -> smoothb q0 limit = true ->
        In ((p / Z.gcd p q0)%Z, (q0 / Z.gcd p q0)%Z, limit) (snd st')).
Proof.
  intros Hr Hlim Hp Hinv.
  destruct (foldM_track (ji_step_q ratio limit p)
              (fun s => ji_inv ratio s /\ (forall k, In k (snd st) -> In k (snd s)))
              (fun s => smoothb q0 limit = true ->
                        In ((p / Z.gcd p q0)%Z, (q0 / Z.gcd p q0)%Z, limit) (snd s))
              (Py.range 1 257 1) q0) with (s0 := st)
    as [st' [E [[I1 I2] [_ Q]]]].
  - intros s q Hq [Hs Hmono].
    destruct (ji_step_q_ok ratio limit p q s Hr Hlim Hp Hq Hs) as [s' [E [I' [M S]]]].
    exists s'. split; [exact E|]. split; [split; [exact I' | auto]|].
    split; [auto|]. intros ->. exact S.
  - split; [exact Hinv | auto].
  - exists st'. repeat split; auto; apply I1.
Qed.

Lemma ji_step_p_ok (ratio : R) (limit p q0 : Z) (st : ji_state) :
  0 < ratio -> In limit [5; 7; 11; 13]%Z -> In p (Py.range 1 257 1) ->
  ji_inv ratio st ->
  exists st',
    ji_step_p ratio limit st p = Ok st'
    /\ ji_inv ratio st'
    /\ (forall k, In k (snd st) -> In k (snd st'))
    /\ (In q0 (Py.range 1 257 1) ->
        smoothb p limit = true -> smoothb q0 limit = true ->
        In ((p / Z.gcd p q0)%Z, (q0 / Z.gcd p q0)%Z, limit) (snd st')).
Proof.
  intros Hr Hlim Hp Hinv.
  assert (Hp0 : (0 < p)%Z) by (apply range_bounds in Hp; lia).
  unfold ji_step_p, smoothb at 1.
  destruct (prime_factors_total p Hp) as [pf ->].
  destruct (exceeds pf limit).
  - exists st. split; [reflexivity|]. split; [exact Hinv|]. split; [auto|].
    intros _ H. discriminate.
  - destruct (ji_loop_q ratio limit p q0 st Hr Hlim Hp0 Hinv) as [st' [E [I' [M S]]]].
    exists st'. repeat split; auto; apply I'.
Qed.

Lemma ji_step_limit_ok (ratio : R) (limit p0 q0 : Z) (st : ji_state) :
  0 < ratio -> In limit [5; 7; 11; 13]%Z -> ji_inv ratio st ->
  exists st',
    ji_step_limit ratio st limit = Ok st'
    /\ ji_inv ratio st'
    /\ (forall k, In k (snd st) -> In k (snd st'))
    /\ (In p0 (Py.range 1 257 1) -> In q0 (Py.range 1 257 1) ->
        smoothb p0 limit = true -> smoothb q0 limit = true ->
        In ((p0 / Z.gcd p0 q0)%Z, (q0 / Z.gcd p0 q0)%Z, limit) (snd st')).
Proof.
  intros Hr Hlim Hinv. unfold ji_step_limit.
  destruct (foldM_track (ji_step_p ratio limit)
              (fun s => ji_inv ratio s /\ (forall k, In k (snd st) -> In k (snd s)))
              (fun s => In q0 (Py.range 1 257 1) ->
                        smoothb p0 limit = true -> smoothb q0 limit = true ->
                        In ((p0 / Z.gcd p0 q0)%Z, (q0 / Z.gcd p0 q0)%Z, limit) (snd s))
              (Py.range 1 257 1) p0) with (s0 := st)
    as [st' [E [[I1 I2] [_ Q]]]].
  - intros s p Hp [Hs Hmono].
    destruct (ji_step_p_ok ratio limit p q0 s Hr Hlim Hp Hs) as [s' [E [I' [M S]]]].
    exists s'. split; [exact E|]. split; [split; [exact I' | auto]|].
    split; [auto|]. intros ->. exact S.
  - split; [exact Hinv | auto].
  - exists st'. repeat split; auto; apply I1.
Qed.

(** The three loops never raise, keep the invariant, and see the reduced
    form of every pair that passes the filter. *)
Lemma ji_loops_ok (ratio : R) (limit0 p0 q0 : Z) :
  0 < ratio ->
  exists st,
    foldM (ji_step_limit ratio) ([], []) [5; 7; 11; 13]%Z = Ok st
    /\ ji_inv ratio st
    /\ (In limit0 [5; 7; 11; 13]%Z ->
        In p0 (Py.range 1 257 1) -> In q0 (Py.range 1 257 1) ->
        smoothb p0 limit0 = true -> smoothb q0 limit0 = true ->
        In ((p0 / Z.gcd p0 q0)%Z, (q0 / Z.gcd p0 q0)%Z, limit0) (snd st)).
Proof.
  intros Hr.
  destruct (foldM_track (ji_step_limit ratio)
              (fun s => ji_inv ratio s)
              (fun s => In p0 (Py.range 1 257 1) -> In q0 (Py.range 1 257 1) ->
                        smoothb p0 limit0 = true -> smoothb q0 limit0 = true ->
                        In ((p0 / Z.gcd p0 q0)%Z, (q0 / Z.gcd p0 q0)%Z, limit0) (snd s))
              [5; 7; 11; 13]%Z limit0) with (s0 := (@nil ji_candidate, @nil ji_key))
    as [st [E [I1 [_ Q]]]].
  - intros s limit Hlim Hs.
    destruct (ji_step_limit_ok ratio limit p0 q0 s Hr Hlim Hs) as [s' [E [I' [M S]]]].
    exists s'. split; [exact E|]. split; [exact I'|].
    split; [auto|]. intros ->. exact S.
  - split; [constructor | intros k []].
  - exists st. split; [exact E|]. split; [exact I1 | exact Q].
Qed.

(** *** The order of the sort key *)

Lemma lexP_strict_total {A B : Type} (ltA : A -> A -> Prop) (ltB : B -> B -> Prop) :
  strict_total ltA -> strict_total ltB -> strict_total (lexP ltA ltB).
Proof.
  intros [IA TA CA] [IB TB CB]. constructor; unfold lexP.
  - intros [a b] [H | [_ H]]; [now apply (IA a) | now apply (IB b)].
  - intros [a1 a2] [b1 b2] [c1 c2]. cbn [fst snd].
    intros [H1 | [E1 H1]] [H2 | [E2 H2]].
    + left. now apply (TA a1 b1 c1).
    + left. now subst.
    + left. now subst.
    + right. split; [congruence | now apply (TB a2 b2 c2)].
  - intros [a1 a2] [b1 b2]. cbn [fst snd].
    destruct (CA a1 b1) as [H | [-> | H]]; [left; left; exact H | | right; right; left; exact H].
    destruct (CB a2 b2) as [H | [-> | H]].
    + left. right. split; [reflexivity | exact H].
    + right. left. reflexivity.
    + right. right. right. split; [reflexivity | exact H].
Qed.

Lemma Rlt_strict_total : strict_total Rlt.
Proof.
  constructor.
  - intros a. apply Rlt_irrefl.
  - intros a b c. apply Rlt_trans.
  - intros a b. destruct (Rtotal_order a b) as [H | [H | H]]; auto.
Qed.

Lemma Zlt_strict_total : strict_total Z.lt.
Proof. constructor; intros; lia. Qed.

Lemma strict_total_asym {T : Type} (lt : T -> T -> Prop) :
  strict_total lt -> forall a b, lt a b -> ~ lt b a.
Proof. intros [I Tr _] a b H1 H2. apply (I a). now apply (Tr a b a). Qed.

Lemma strict_total_neg_trans {T : Type} (lt : T -> T -> Prop) :
  strict_total lt -> forall a b c, ~ lt a b -> ~ lt b c -> ~ lt a c.
Proof.
  intros [I Tr C] a b c H1 H2 H3.
  destruct (C a b) as [H | [-> | H]]; [contradiction | contradiction |].
  destruct (C b c) as [G | [-> | G]]; [contradiction | |].
  - apply (I c). now apply (Tr c a c).
  - apply (I a). apply (Tr a c a); [exact H3|]. now apply (Tr c b a).
Qed.

Lemma nested_strict_total :
  strict_total (lexP Rlt (lexP Rlt (lexP Rlt (lexP Z.lt Z.lt)))).
Proof.
  repeat apply lexP_strict_total;
    try apply Rlt_strict_total; apply Zlt_strict_total.
Qed.

Lemma lexR_true (a b : R) (rest : bool) :
  lexR a b rest = true <-> a < b \/ (a = b /\ rest = true).
Proof.
  unfold lexR. rewrite orb_true_iff, andb_true_iff, ltb_true, leb_true. split.
  - intros [H | [H1 H2]]; [now left|].
    destruct (Rle_lt_or_eq_dec _ _ H1); [now left | now right].
  - intros [H | [-> H]]; [now left | right; split; [lra | exact H]].
Qed.

Lemma lexZ_true (a b : Z) (rest : bool) :
  lexZ a b rest = true <-> (a < b)%Z \/ (a = b /\ rest = true).
Proof.
  unfold lexZ. rewrite orb_true_iff, andb_true_iff, Z.ltb_lt, Z.eqb_eq. tauto.
Qed.

Lemma sort_key_lt_true (a b : ji_sort_key) : sort_key_lt a b = true <-> key_Lt a b.
Proof.
  destruct a as [[[[a1 a2] a3] a4] a5], b as [[[[b1 b2] b3] b4] b5].
  unfold sort_key_lt, key_Lt, lexP. cbn [nest fst snd].
  rewrite !lexR_true, lexZ_true, Z.ltb_lt. tauto.
Qed.

Lemma sort_key_lt_false (a b : ji_sort_key) : sort_key_lt a b = false <-> ~ key_Lt a b.
Proof.
  rewrite <- sort_key_lt_true. destruct (sort_key_lt a b); split; intros H;
    try reflexivity; try discriminate; try (intros ?; discriminate).
  exfalso. now apply H.
Qed.

Lemma key_Lt_asym (a b : ji_sort_key) : key_Lt a b -> ~ key_Lt b a.
Proof. apply (strict_total_asym _ nested_strict_total). Qed.

Lemma key_Lt_neg_trans (a b c : ji_sort_key) :
  ~ key_Lt a b -> ~ key_Lt b c -> ~ key_Lt a c.
Proof. apply (strict_total_neg_trans _ nested_strict_total). Qed.

(** *** The perfect fifth has the least score *)

Lemma log2_6_lt_3 : Py.log2 6 < 3.
Proof.
  assert (E : powerRZ 2 3 = 8).
  { unfold powerRZ. change (Pos.to_nat 3) with 3%nat. unfold pow. lra. }
  replace 3 with (Py.log2 8) by (rewrite <- E; apply (log2_powerRZ 3)).
  apply log2_lt; lra.
Qed.

Lemma log2_four_thirds : 1 / 3 < Py.log2 (4 / 3).
Proof.
  assert (H : Py.log2 2 < Py.log2 (4 / 3 * (4 / 3) * (4 / 3)))
    by (apply log2_lt; lra).
  rewrite !log2_mult, log2_2 in H by lra. lra.
Qed.

Lemma log2_far (x : R) : 0 < x -> x <= 3 / 4 \/ 4 / 3 <= x -> 1 / 3 < Rabs (Py.log2 x).
Proof.
  intros Hx [H | H].
  - assert (G : Py.log2 x <= Py.log2 (/ (4 / 3))) by (apply log2_le; lra).
    rewrite log2_inv in G by lra. pose proof log2_four_thirds.
    rewrite Rabs_left by lra. lra.
  - assert (G : Py.log2 (4 / 3) <= Py.log2 x) by (apply log2_le; lra).
    pose proof log2_four_thirds. rewrite Rabs_right by lra. lra.
Qed.

Lemma small_ratios_far_from_fifth (p q : Z) :
  (0 < p)%Z -> (0 < q)%Z -> (p * q <= 6)%Z -> (p, q) <> (3, 2)%Z ->
  IZR p / IZR q / (3 / 2) <= 3 / 4 \/ 4 / 3 <= IZR p / IZR q / (3 / 2).
Proof.
  intros Hp Hq Hpq Hne.
  assert (Hp6 : (p <= 6)%Z) by nia. assert (Hq6 : (q <= 6)%Z) by nia.
  assert (Ep : (p = 1 \/ p = 2 \/ p = 3 \/ p = 4 \/ p = 5 \/ p = 6)%Z) by lia.
  assert (Eq : (q = 1 \/ q = 2 \/ q = 3 \/ q = 4 \/ q = 5 \/ q = 6)%Z) by lia.
  destruct Ep as [-> | [-> | [-> | [-> | [-> | ->]]]]];
    destruct Eq as [-> | [-> | [-> | [-> | [-> | ->]]]]];
    try (exfalso; lia); try (exfalso; apply Hne; reflexivity);
    first [left; lra | right; lra].
Qed.

Lemma limit_offset_nonneg (limit : Z) :
  In limit [5; 7; 11; 13]%Z -> 0 <= IZR (limit - 5).
Proof.
  intros H. apply IZR_le. cbn in H. lia.
Qed.

Lemma fifth_score (c0 : ji_candidate) :
  ji_wf (3 / 2) c0 -> key_of c0 = (3, 2, 5)%Z ->
  cents_error c0 = 0 /\ ji_score c0 = 6.0 * Py.log2 6.
Proof.
  intros [_ [_ [_ [_ [Hc [Hx _]]]]]] Hk. unfold key_of in Hk.
  injection Hk as Hp Hq Hl. unfold ji_score.
  rewrite Hc, Hx, Hp, Hq, Hl.
  replace (IZR 3 / IZR 2 / (3 / 2)) with 1 by lra.
  rewrite log2_1. replace (1200.0 * 0) with 0 by lra. rewrite Rabs_R0.
  split; [reflexivity|]. change (3 * 2)%Z with 6%Z. change (5 - 5)%Z with 0%Z. lra.
Qed.

Lemma fifth_is_strictly_best (c0 c : ji_candidate) :
  ji_wf (3 / 2) c0 -> key_of c0 = (3, 2, 5)%Z ->
  ji_wf (3 / 2) c -> key_of c <> (3, 2, 5)%Z ->
  ji_score c0 < ji_score c.
Proof.
  intros H0 K0 [Hp [Hq [_ [Hl [Hc [Hx _]]]]]] Hne.
  destruct (fifth_score c0 H0 K0) as [_ ->].
  unfold ji_score. rewrite Hc, Hx.
  pose proof (limit_offset_nonneg _ Hl) as Hoff.
  pose proof log2_6_lt_3 as H63.
  assert (Hpos : 0 < IZR (ji_p c) / IZR (ji_q c) / (3 / 2)).
  { apply Rdiv_lt_0_compat; [apply Rdiv_lt_0_compat; apply IZR_lt; assumption | lra]. }
  rewrite Rabs_mult, (Rabs_right 1200.0) by lra.
  pose proof (Rabs_pos (Py.log2 (IZR (ji_p c) / IZR (ji_q c) / (3 / 2)))) as Habs.
  destruct (Z_le_gt_dec (ji_p c * ji_q c) 6) as [Hle | Hgt].
  - assert (Hc0 : 0 <= Py.log2 (IZR (ji_p c * ji_q c))).
    { rewrite <- log2_1. apply log2_le; [lra|]. apply IZR_le. nia. }
    destruct (Z.eq_dec (ji_p c) 3) as [E3 | N3];
      [destruct (Z.eq_dec (ji_q c) 2) as [E2 | N2]|].
    + (* the same ratio under a higher prime limit *)
      assert (Hlim : (prime_limit c <> 5)%Z).
      { intros E. apply Hne. unfold key_of. now rewrite E3, E2, E. }
      assert (H4 : 2 <= IZR (prime_limit c - 5)) by (apply IZR_le; cbn in Hl; lia).
      rewrite E3, E2 in Habs |- *. change (3 * 2)%Z with 6%Z. lra.
    + pose proof (log2_far _ Hpos
                    (small_ratios_far_from_fifth _ _ Hp Hq Hle
                       ltac:(intros E; injection E; intros; contradiction))).
      lra.
    + pose proof (log2_far _ Hpos
                    (small_ratios_far_from_fifth _ _ Hp Hq Hle
                       ltac:(intros E; injection E; intros; contradiction))).
      lra.
  - assert (H7 : Py.log2 6 < Py.log2 (IZR (ji_p c * ji_q c))).
    { apply log2_lt; [lra|]. apply IZR_lt. lia. }
    lra.
Qed.

(** *** The ten best candidates for 3/2 *)

Lemma range_in (n : Z) : (1 <= n <= 256)%Z -> In n (Py.range 1 257 1).
Proof.
  intros H. unfold Py.range. apply in_map_iff.
  exists (Z.to_nat (n - 1)). split; [lia|].
  apply in_seq. change ((257 - 1 + 1 - 1) / 1)%Z with 256%Z. lia.
Qed.

Lemma ji_seen (ratio : R) (limit0 p0 q0 : Z) (st : ji_state) :
  0 < ratio ->
  foldM (ji_step_limit ratio) ([], []) [5; 7; 11; 13]%Z = Ok st ->
  In limit0 [5; 7; 11; 13]%Z -> (1 <= p0 <= 256)%Z -> (1 <= q0 <= 256)%Z ->
  smoothb p0 limit0 = true -> smoothb q0 limit0 = true ->
  In ((p0 / Z.gcd p0 q0)%Z, (q0 / Z.gcd p0 q0)%Z, limit0) (map key_of (fst st)).
Proof.
  intros Hr E Hl Hp Hq Sp Sq.
  destruct (ji_loops_ok ratio limit0 p0 q0 Hr) as [st' [E' [[_ Hseen] Hin]]].
  rewrite E in E'. injection E' as <-.
  apply Hseen. apply Hin; auto using range_in.
Qed.

Lemma ji_seen_unit (ratio : R) (q0 : Z) (st : ji_state) :
  0 < ratio ->
  foldM (ji_step_limit ratio) ([], []) [5; 7; 11; 13]%Z = Ok st ->
  (1 <= q0 <= 256)%Z -> smoothb q0 5 = true ->
  In (1, q0, 5)%Z (map key_of (fst st)).
Proof.
  intros Hr E Hq Sq.
  pose proof (ji_seen ratio 5 1 q0 st Hr E) as H.
  rewrite Z.gcd_1_l, !Z.div_1_r in H.
  apply H; try lia; [now left | reflexivity | exact Sq].
Qed.

Lemma mapM_map {A B : Type} (f : A -> result B) (g : A -> B) (l : list A) :
  (forall a, In a l -> f a = Ok (g a)) -> mapM f l = Ok (map g l).
Proof.
  induction l as [|a l IH]; intros H; [reflexivity|].
  cbn [mapM map]. rewrite (H a (or_introl eq_refl)). cbn [bind].
  rewrite IH by (intros; apply H; now right). reflexivity.
Qed.

Lemma ss_map {A B : Type} (R : B -> B -> Prop) (f : A -> B) (l : list A) :
  StronglySorted (fun a b => R (f a) (f b)) l -> StronglySorted R (map f l).
Proof.
  induction 1 as [|a l _ IH Hall]; cbn [map]; constructor; [exact IH|].
  apply Forall_forall. intros b Hb. apply in_map_iff in Hb.
  destruct Hb as [x [<- Hx]]. rewrite Forall_forall in Hall. now apply Hall.
Qed.

Lemma score_key_pop (c : ji_candidate) : score_key (pop_total c) = score_key c.
Proof. reflexivity. Qed.

Lemma keyed_ok (ratio : R) (cands : list ji_candidate) :
  Forall (ji_wf ratio) cands ->
  mapM (fun c => k <- sort_key_of c ;; Ok (k, c)) cands
  = Ok (map (fun c => (score_key c, c)) cands).
Proof.
  intros H. apply mapM_map. intros c Hc. rewrite Forall_forall in H.
  destruct (H c Hc) as [_ [_ [_ [_ [_ [_ Ht]]]]]].
  unfold sort_key_of, total_of. rewrite Ht. reflexivity.
Qed.

Lemma ten_keys_distinct :
  NoDup (map (fun q => (1, q, 5)%Z) [1; 2; 3; 4; 5; 6; 8; 9; 10; 12]%Z).
Proof.
  cbn [map]. repeat constructor; cbn [In]; intros H;
    repeat (destruct H as [H | H]; [discriminate H|]); exact H.
Qed.

(** C2.  For the ratio 3/2 the generator returns exactly ten candidates;
    each has positive coprime [p] and [q]; the list is in ascending order
    of the key (score, |cents_error|, complexity, p, q), the score being
    |cents_error| + 6 log2(p q) + 2 (prime_limit - 5); and the first
    candidate is 3/2 at prime limit 5 with a cents error of exactly 0 (so
    within 5 cents). *)
Theorem ji_candidates_of_fifth :
  exists top rest,
    _generate_ji_candidates (3 / 2) = Ok (top :: rest)
    /\ length (top :: rest) = 10%nat
    /\ Forall (fun c => (0 < ji_p c)%Z /\ (0 < ji_q c)%Z
                        /\ Z.gcd (ji_p c) (ji_q c) = 1%Z) (top :: rest)
    /\ StronglySorted
         (fun a b => sort_key_lt (score_key b) (score_key a) = false) (top :: rest)
    /\ ji_p top = 3%Z /\ ji_q top = 2%Z /\ prime_limit top = 5%Z
    /\ cents_error top = 0 /\ Rabs (cents_error top) < 5.
Proof.
  assert (Hr : 0 < 3 / 2) by lra.
  destruct (ji_loops_ok (3 / 2) 5 3 2 Hr) as [st [E [[Hwf Hseen] _]]].
  set (cands := fst st) in *.
  (* the fifth is among the candidates *)
  assert (H32 : In (3, 2, 5)%Z (map key_of cands)).
  { apply (ji_seen (3 / 2) 5 3 2 st Hr E); try lia; [now left | reflexivity | reflexivity]. }
  apply in_map_iff in H32. destruct H32 as [c0 [K0 Hc0]].
  (* at least ten candidates *)
  assert (Hten : (10 <= length cands)%nat).
  { rewrite <- (length_map key_of).
    change 10%nat with
      (length (map (fun q => (1, q, 5)%Z) [1; 2; 3; 4; 5; 6; 8; 9; 10; 12]%Z)).
    apply NoDup_incl_length; [exact ten_keys_distinct|].
    intros k Hk. apply in_map_iff in Hk. destruct Hk as [q [<- Hq]].
    cbn [In] in Hq.
    repeat (destruct Hq as [<- | Hq];
            [apply (ji_seen_unit (3 / 2) _ st Hr E); [lia | reflexivity]|]).
    destruct Hq. }
  unfold _generate_ji_candidates. rewrite E. cbn [bind]. fold cands.
  rewrite (keyed_ok (3 / 2) cands Hwf). cbn [bind].
  set (keyed := map (fun c => (score_key c, c)) cands).
  set (lt' := fun a b : ji_sort_key * ji_candidate => sort_key_lt (fst a) (fst b)).
  assert (Hkeyed : forall x, In x keyed -> fst x = score_key (snd x) /\ In (snd x) cands).
  { intros x Hx. apply in_map_iff in Hx. destruct Hx as [c [<- Hc]]. now split. }
  assert (Hasym : forall a b, lt' a b = true -> lt' b a = false).
  { intros a b H. apply sort_key_lt_false. apply sort_key_lt_true in H.
    now apply key_Lt_asym. }
  assert (Htr : forall a b c, lt' b a = false -> lt' c b = false -> lt' c a = false).
  { intros a b c H1 H2. apply sort_key_lt_false.
    apply sort_key_lt_false in H1, H2. now apply (key_Lt_neg_trans _ (fst b)). }
  pose proof (sort_sorted lt' Hasym Htr keyed) as Hsorted.
  assert (Hsin : forall x, In x (Py.sort lt' keyed) -> In x keyed)
    by (intros x; apply sort_In).
  assert (Hlen : length (Py.sort lt' keyed) = length cands)
    by (rewrite sort_length; unfold keyed; apply length_map).
  rewrite slice_0 by lia. change (Z.to_nat 10) with 10%nat.
  destruct (Py.sort lt' keyed) as [|h tl] eqn:Es; [cbn in Hlen; lia|].
  (* the head is the fifth *)
  assert (Hh : key_of (snd h) = (3, 2, 5)%Z).
  { destruct (Hkeyed h (Hsin h (or_introl eq_refl))) as [Fh Ch].
    destruct (sort_head_min lt' Hasym Htr keyed h tl Es (score_key c0, c0)) as [-> | Hmin].
    - apply in_map_iff. now exists c0.
    - exact K0.
    - destruct (Z.eq_dec (ji_p (snd h)) 3) as [E1 | N];
        [destruct (Z.eq_dec (ji_q (snd h)) 2) as [E2 | N];
         [destruct (Z.eq_dec (prime_limit (snd h)) 5) as [E3 | N]|]|];
        try (unfold key_of; now rewrite E1, E2, E3);
        exfalso; unfold lt' in Hmin; cbn [fst] in Hmin; rewrite Fh in Hmin;
        apply sort_key_lt_false in Hmin; apply Hmin;
        assert (Hlt : ji_score c0 < ji_score (snd h))
          by (apply fifth_is_strictly_best; auto;
              [rewrite Forall_forall in Hwf; now apply Hwf
              | rewrite Forall_forall in Hwf; now apply Hwf
              | unfold key_of; intros K; injection K; intros; contradiction]);
        unfold key_Lt, lexP, score_key; cbn [nest fst snd]; now left. }
  assert (Hwf0 : ji_wf (3 / 2) (snd h)).
  { rewrite Forall_forall in Hwf. apply Hwf.
    apply (Hkeyed h). apply Hsin. now left. }
  destruct (fifth_score (snd h) Hwf0 Hh) as [Hc _].
  set (out := map pop_total (firstn 10 (map snd (h :: tl)))).
  assert (Eout : out = pop_total (snd h) :: map pop_total (firstn 9 (map snd tl)))
    by reflexivity.
  exists (pop_total (snd h)), (map pop_total (firstn 9 (map snd tl))).
  rewrite <- Eout. split; [reflexivity|]. split; [|split; [|split]].
  - unfold out. rewrite length_map, length_firstn, length_map. lia.
  - apply Forall_forall. intros c' Hc'. apply in_map_iff in Hc'.
    destruct Hc' as [c [<- Hcin]]. apply in_firstn in Hcin.
    apply in_map_iff in Hcin. destruct Hcin as [x [<- Hx]].
    apply Hsin, Hkeyed in Hx. destruct Hx as [_ Hx].
    rewrite Forall_forall in Hwf. destruct (Hwf _ Hx) as [P1 [P2 [P3 _]]].
    cbn. auto.
  - apply ss_map. apply ss_firstn. apply ss_map.
    eapply ss_weaken; [|exact Hsorted].
    intros a b Ha Hb H.
    destruct (Hkeyed a (Hsin a Ha)) as [Fa _].
    destruct (Hkeyed b (Hsin b Hb)) as [Fb _].
    unfold lt' in H. rewrite Fa, Fb in H. rewrite !score_key_pop. exact H.
  - unfold key_of in Hh. injection Hh as H1 H2 H3.
    cbn. repeat split; auto. rewrite Hc, Rabs_R0. lra.
Qed.

(** * Further properties *)

(** ** Prime factorization *)

Lemma divide_out_spec (fuel : nat) (x d : Z) (fs : list Z) :
  (2 <= d)%Z -> (1 <= x)%Z -> (Z.to_nat x < fuel)%nat ->
  exists x' k,
    divide_out fuel x d fs = Some (x', fs ++ repeat d k)
    /\ x = (x' * d ^ Z.of_nat k)%Z /\ (1 <= x')%Z /\ (x' <= x)%Z
    /\ (x' mod d <> 0)%Z
    /\ ((d | x)%Z -> (1 <= k)%nat).
Proof.
  revert x fs. induction fuel as [|fuel IH]; intros x fs Hd Hx Hf; [lia|].
  cbn [divide_out]. destruct (x mod d =? 0)%Z eqn:E.
  - apply Z.eqb_eq in E.
    assert (Hdiv : x = (d * (x / d))%Z) by (apply Z_div_exact_full_2; lia).
    assert (Hq : (1 <= x / d)%Z) by nia.
    assert (Hlt : (x / d < x)%Z) by nia.
    destruct (IH (x / d)%Z (fs ++ [d]) Hd Hq ltac:(lia))
      as [x' [k [E' [Hx' [H1 [Hle [Hm _]]]]]]].
    exists x', (S k). split.
    + rewrite E'. f_equal. f_equal. rewrite <- app_assoc. reflexivity.
    + split; [|split; [exact H1 | split; [lia | split; [exact Hm | lia]]]].
      rewrite Nat2Z.inj_succ, Z.pow_succ_r by lia. rewrite Hdiv at 1. rewrite Hx'. ring.
  - apply Z.eqb_neq in E. exists x, O. split.
    + cbn [repeat]. now rewrite app_nil_r.
    + split; [cbn; ring|]. split; [exact Hx|]. split; [lia|]. split; [exact E|].
      intros Hdiv. exfalso. apply E. now apply Z.mod_divide; [lia|].
Qed.

Lemma product_app (a b : list Z) : product (a ++ b) = (product a * product b)%Z.
Proof.
  induction a as [|x a IH]; cbn [product fold_right app].
  - fold (product b). lia.
  - fold (product (a ++ b)). fold (product a). rewrite IH. ring.
Qed.

Lemma product_repeat (d : Z) (k : nat) : product (repeat d k) = (d ^ Z.of_nat k)%Z.
Proof.
  induction k as [|k IH].
  - reflexivity.
  - cbn [repeat product fold_right]. fold (product (repeat d k)).
    rewrite IH, Nat2Z.inj_succ, Z.pow_succ_r by lia. reflexivity.
Qed.

Lemma repeat_sorted (d : Z) (k : nat) : StronglySorted Z.le (repeat d k).
Proof.
  induction k as [|k IH]; cbn [repeat]; constructor; [exact IH|].
  apply Forall_forall. intros y Hy. apply repeat_spec in Hy. lia.
Qed.

(** A number with no divisor in [2, d) that divides something is prime
    as soon as it is [d] itself. *)
Lemma least_divisor_prime (x d : Z) :
  (2 <= d)%Z -> (d | x)%Z ->
  (forall e, (2 <= e < d)%Z -> ~ (e | x)%Z) -> Z.prime d.
Proof.
  intros Hd Hdiv Hno. split; [lia|].
  intros e He Hed. apply (Hno e); [lia|]. now apply Z.divide_trans with d.
Qed.

(** What is left when the square of the next trial divisor exceeds it. *)
Lemma cofactor_prime (x d : Z) :
  (2 <= d)%Z -> (1 < x)%Z -> (x < d * d)%Z ->
  (forall e, (2 <= e < d)%Z -> ~ (e | x)%Z) -> Z.prime x.
Proof.
  intros Hd Hx Hdd Hno. split; [lia|].
  intros e He [q Hq].
  destruct (Z_lt_le_dec e d) as [Hlt|Hge].
  - apply (Hno e); [lia|]. now exists q.
  - assert (Hq1 : (1 < q)%Z) by nia.
    assert (Hqd : (q < d)%Z).
    { destruct (Z_lt_le_dec q d) as [Hl|Hg]; [exact Hl|].
      assert (d * d <= q * e)%Z by (apply Z.mul_le_mono_nonneg; lia). lia. }
    apply (Hno q); [lia|]. exists e. lia.
Qed.

Lemma trial_division_spec (fuel : nat) (x d : Z) (fs : list Z) :
  (2 <= d)%Z -> (1 <= x)%Z -> (1 <= fuel)%nat -> (x < Z.of_nat fuel + d)%Z ->
  (forall e, (2 <= e < d)%Z -> ~ (e | x)%Z) ->
  exists x' fs2 d',
    trial_division fuel x d fs = Some (x', fs ++ fs2)
    /\ x = (x' * product fs2)%Z /\ (1 <= x')%Z
    /\ Forall Z.prime fs2
    /\ Forall (fun f => (d <= f < d')%Z) fs2
    /\ StronglySorted Z.le fs2
    /\ (d <= d')%Z /\ (x' < d' * d')%Z
    /\ (forall e, (2 <= e < d')%Z -> ~ (e | x')%Z).
Proof.
  revert x d fs. induction fuel as [|fuel IH]; intros x d fs Hd Hx Hf Hfd Hno; [lia|].
  cbn [trial_division]. destruct (d * d <=? x)%Z eqn:E.
  - apply Z.leb_le in E.
    destruct (divide_out_spec (S (Z.to_nat x)) x d fs Hd Hx ltac:(lia))
      as [x1 [k [E1 [Hx1 [H1 [Hle [Hm Hk]]]]]]].
    rewrite E1.
    assert (Hno1 : forall e, (2 <= e < d + 1)%Z -> ~ (e | x1)%Z).
    { intros e He Hdiv. destruct (Z.eq_dec e d) as [->|Hne].
      - apply Hm. apply Z.mod_divide; [lia | exact Hdiv].
      - apply (Hno e); [lia|]. rewrite Hx1. now apply Z.divide_mul_l. }
    destruct (IH x1 (d + 1)%Z (fs ++ repeat d k) ltac:(lia) H1 ltac:(nia) ltac:(lia) Hno1)
      as [x' [fs2 [d' [E2 [Hx2 [H2 [Hp [Hr [Hs [Hdd [Hsq Hno2]]]]]]]]]]].
    exists x', (repeat d k ++ fs2), d'. rewrite E2, <- app_assoc.
    split; [reflexivity|]. split.
    { rewrite product_app, product_repeat, Hx1, Hx2. ring. }
    split; [exact H2|]. split.
    { apply Forall_app. split; [|exact Hp]. apply Forall_forall. intros y Hy.
      destruct k as [|k]; [destruct Hy|].
      apply repeat_spec in Hy. subst y.
      apply (least_divisor_prime x d Hd); [|exact Hno].
      rewrite Hx1, Nat2Z.inj_succ, Z.pow_succ_r by lia.
      exists (x1 * d ^ Z.of_nat k)%Z. ring. }
    split.
    { apply Forall_app. split.
      - apply Forall_forall. intros y Hy. apply repeat_spec in Hy. lia.
      - eapply Forall_impl; [|exact Hr]. cbn. intros; lia. }
    split.
    { apply ss_app; [apply repeat_sorted | exact Hs|].
      intros a b Ha Hb. apply repeat_spec in Ha. subst a.
      rewrite Forall_forall in Hr. specialize (Hr b Hb). cbn in Hr. lia. }
    split; [lia|]. split; [exact Hsq | exact Hno2].
  - apply Z.leb_gt in E. exists x, [], d. rewrite app_nil_r.
    split; [reflexivity|]. split; [cbn; lia|]. split; [exact Hx|].
    repeat (split; [constructor|]). split; [lia|]. split; [exact E | exact Hno].
Qed.

Lemma prime_factors_spec (n : Z) :
  exists fs,
    _prime_factors n = Some fs
    /\ Forall Z.prime fs
    /\ StronglySorted Z.le fs
    /\ ((1 <= n)%Z -> product fs = n)
    /\ ((n <= 1)%Z -> fs = []).
Proof.
  unfold _prime_factors. destruct (Z_lt_le_dec n 1) as [Hn|Hn].
  - exists []. cbn [trial_division].
    replace (2 * 2 <=? n)%Z with false by (symmetry; apply Z.leb_gt; lia).
    replace (n >? 1)%Z with false by (symmetry; rewrite Z.gtb_ltb; apply Z.ltb_ge; lia).
    split; [reflexivity|]. split; [constructor|]. split; [constructor|].
    split; [lia | reflexivity].
  - destruct (trial_division_spec (S (Z.to_nat n)) n 2 [] ltac:(lia) Hn ltac:(lia) ltac:(lia))
      as [x [fs [d [E [Hx [H1 [Hp [Hr [Hs [Hd [Hsq Hno]]]]]]]]]]].
    { intros e He. lia. }
    rewrite E. cbn [app]. destruct (x >? 1)%Z eqn:Ex.
    + rewrite Z.gtb_ltb in Ex. apply Z.ltb_lt in Ex.
      assert (Hxd : (d <= x)%Z).
      { destruct (Z_lt_le_dec x d) as [Hl|Hg]; [|exact Hg].
        exfalso. apply (Hno x); [lia|]. exists 1%Z. lia. }
      exists (fs ++ [x]). split; [reflexivity|]. split.
      { apply Forall_app. split; [exact Hp|]. constructor; [|constructor].
        apply (cofactor_prime x d); auto; lia. }
      split.
      { apply ss_app; [exact Hs | repeat constructor|].
        intros a b Ha [<-|[]]. rewrite Forall_forall in Hr.
        specialize (Hr a Ha). cbn in Hr. lia. }
      split.
      { intros _. rewrite product_app. cbn [product fold_right]. rewrite Hx. ring. }
      intros Hle. exfalso. assert (product fs = 1)%Z by nia. nia.
    + rewrite Z.gtb_ltb in Ex. apply Z.ltb_ge in Ex.
      assert (x = 1)%Z by lia. subst x.
      exists fs. split; [reflexivity|]. split; [exact Hp|]. split; [exact Hs|].
      split; [intros _; lia|].
      intros Hle. assert (Hn1 : n = 1%Z) by lia.
      destruct fs as [|f fs]; [reflexivity|]. exfalso.
      apply Forall_inv in Hp. destruct Hp as [Hf _].
      assert (f | n)%Z.
      { rewrite Hx. cbn [product fold_right]. exists (fold_right Z.mul 1 fs)%Z. ring. }
      rewrite Hn1 in H. apply Z.divide_1_r_nonneg in H; lia.
Qed.


Lemma prime_divides_product (f : Z) (fs : list Z) :
  Z.prime f -> Forall Z.prime fs -> (f | product fs)%Z -> In f fs.
Proof.
  intros Hf. induction fs as [|a fs IH]; intros Hp Hd.
  - cbn in Hd. apply Z.divide_1_r_nonneg in Hd; destruct Hf; lia.
  - cbn [product fold_right] in Hd. fold (product fs) in Hd.
    inversion Hp as [|? ? Ha Hp']; subst.
    destruct (proj1 (Z.divide_prime_mul _ _ f Hf) Hd) as [H|H].
    + left. symmetry. destruct (Z.divide_prime_r f a Ha H) as [E|[E|[E|E]]];
        destruct Hf, Ha; lia.
    + right. now apply IH.
Qed.

Lemma In_divides_product (f : Z) (fs : list Z) : In f fs -> (f | product fs)%Z.
Proof.
  induction fs as [|a fs IH]; intros H; [destruct H|].
  cbn [product fold_right]. fold (product fs). destruct H as [->|H].
  - now apply Z.divide_mul_l.
  - apply Z.divide_mul_r. now apply IH.
Qed.

Lemma prime_factors_In (n : Z) (fs : list Z) :
  (1 <= n)%Z -> _prime_factors n = Some fs ->
  forall f, In f fs <-> Z.prime f /\ (f | n)%Z.
Proof.
  intros Hn E f. destruct (prime_factors_spec n) as [fs' [E' [Hp [_ [Hprod _]]]]].
  rewrite E in E'. injection E' as <-. specialize (Hprod Hn). split.
  - intros H. split; [now apply (proj1 (Forall_forall _ _) Hp)|].
    rewrite <- Hprod. now apply In_divides_product.
  - intros [Hf Hd]. rewrite <- Hprod in Hd. now apply prime_divides_product.
Qed.

(** X1. [_prime_factors] returns, for every integer [n], the list of the
    prime factors of [n] with multiplicity, in ascending order: every
    element is prime, the list is sorted, its product is [n] when
    [n >= 1] (its members are then exactly the prime divisors of [n]),
    and it is empty when [n <= 1]. *)
Theorem prime_factors_correct (n : Z) :
  exists fs,
    _prime_factors n = Some fs
    /\ Forall Z.prime fs
    /\ StronglySorted Z.le fs
    /\ ((1 <= n)%Z ->
        product fs = n /\ forall f, In f fs <-> Z.prime f /\ (f | n)%Z)
    /\ ((n <= 1)%Z -> fs = []).
Proof.
  destruct (prime_factors_spec n) as [fs [E [Hp [Hs [Hprod Hnil]]]]].
  exists fs. split; [exact E|]. split; [exact Hp|]. split; [exact Hs|].
  split; [|exact Hnil]. intros Hn. split; [now apply Hprod|].
  now apply prime_factors_In.
Qed.

(** ** The prime-limit filter *)

Lemma fold_max_ge (l : list Z) (a : Z) :
  (a <= fold_left Z.max l a)%Z /\ Forall (fun f => (f <= fold_left Z.max l a)%Z) l.
Proof.
  revert a. induction l as [|b l IH]; intros a; cbn [fold_left].
  - split; [lia | constructor].
  - destruct (IH (Z.max a b)) as [H1 H2]. split; [lia|].
    constructor; [lia | exact H2].
Qed.

Lemma fold_max_le (l : list Z) (a m : Z) :
  (a <= m)%Z -> Forall (fun f => (f <= m)%Z) l -> (fold_left Z.max l a <= m)%Z.
Proof.
  revert a. induction l as [|b l IH]; intros a Ha Hl; cbn [fold_left]; [exact Ha|].
  inversion Hl; subst. apply IH; [lia | assumption].
Qed.

Lemma exceeds_false (pf : list Z) (limit : Z) :
  exceeds pf limit = false <-> Forall (fun f => (f <= limit)%Z) pf.
Proof.
  destruct pf as [|a l]; cbn [exceeds].
  - split; [constructor | reflexivity].
  - rewrite Z.gtb_ltb, Z.ltb_ge. destruct (fold_max_ge l a) as [H1 H2]. split.
    + intros H. constructor; [lia|]. eapply Forall_impl; [|exact H2].
      cbn. intros; lia.
    + intros H. inversion H; subst. now apply fold_max_le.
Qed.

Lemma smoothb_spec (n limit : Z) :
  (1 <= n)%Z ->
  (smoothb n limit = true <-> forall f, Z.prime f -> (f | n)%Z -> (f <= limit)%Z).
Proof.
  intros Hn. unfold smoothb.
  destruct (prime_factors_spec n) as [fs [E _]]. rewrite E.
  pose proof (prime_factors_In n fs Hn E) as Hin.
  rewrite negb_true_iff, exceeds_false, Forall_forall. split.
  - intros H f Hf Hd. apply H. apply Hin. now split.
  - intros H f Hf. apply Hin in Hf. destruct Hf. now apply H.
Qed.

(** X2. The prime-limit filter of the JI generator: a number [n >= 1]
    passes the filter for [limit] (the code skips it when its list of
    prime factors is non-empty and the largest exceeds the limit) exactly
    when every prime that divides [n] is at most [limit]. *)
Theorem prime_limit_filter (n limit : Z) :
  (1 <= n)%Z ->
  (smoothb n limit = true <-> forall f, Z.prime f -> (f | n)%Z -> (f <= limit)%Z).
Proof. exact (smoothb_spec n limit). Qed.

(** 12 = 2 * 2 * 3 passes the filter of the limit 5. *)
Lemma prime_limit_filter_witness :
  smoothb 12 5 = true /\ forall f, Z.prime f -> (f | 12)%Z -> (f <= 5)%Z.
Proof.
  assert (H : smoothb 12 5 = true) by reflexivity.
  split; [exact H|]. apply (prime_limit_filter 12 5); [lia | exact H].
Defined.

(** * Binary64: the harmonic-grid fit score and the register pass *)

Section Float64.
Import PrimFloat SpecFloat FloatOps FloatAxioms.
Local Set Warnings "-inexact-float".

(** ** Comparisons and divisions that cannot raise *)

Lemma leb_false_eqb (x : float) : (x <=? 0)%float = false -> (x =? 0)%float = false.
Proof.
  rewrite leb_spec, eqb_spec. unfold SFleb, SFeqb.
  destruct (SFcompare (Prim2SF x) (Prim2SF 0)) as [[]|]; congruence.
Qed.

Lemma f64_fdiv_ok (a b : float) :
  (b =? 0)%float = false -> F64.fdiv a b = Ok (a / b)%float.
Proof. intros H. unfold F64.fdiv. now rewrite H. Qed.

(** [max(target, 1e-9)] is never zero. *)
Lemma max_eps_nonzero (t : float) : (F64.max t 1e-9 =? 0)%float = false.
Proof.
  unfold F64.max. destruct (t <? 1e-9)%float eqn:E; [reflexivity|].
  destruct (t =? 0)%float eqn:E0; [exfalso | reflexivity].
  rewrite ltb_spec in E. rewrite eqb_spec in E0.
  assert (Z0 : Prim2SF 0 = S754_zero false) by reflexivity.
  assert (Z1 : Prim2SF 1e-9 = S754_finite false 4835703278458517 (-82)) by reflexivity.
  rewrite Z0 in E0. rewrite Z1 in E.
  destruct (Prim2SF t) as [s | s | | s m e]; unfold SFeqb, SFcompare in E0;
    try discriminate E0; try (destruct s; discriminate E0).
  unfold SFltb, SFcompare in E. discriminate E.
Qed.

(** ** Finite floats are bounded *)

Lemma digits2_pos_bound (m : positive) : (Z.pos m < 2 ^ Z.pos (digits2_pos m))%Z.
Proof.
  induction m as [m IH | m IH |]; cbn [digits2_pos].
  - rewrite Pos2Z.inj_succ, Z.pow_succ_r by lia. lia.
  - rewrite Pos2Z.inj_succ, Z.pow_succ_r by lia. lia.
  - reflexivity.
Qed.

Lemma finite_bounds (x : float) (s : bool) (m : positive) (e : Z) :
  Prim2SF x = S754_finite s m e -> (Z.pos m < 2 ^ 53)%Z /\ (e <= 971)%Z.
Proof.
  intros H. pose proof (Prim2SF_valid x) as V. rewrite H in V.
  unfold valid_binary, bounded, canonical_mantissa, fexp, emin in V.
  apply andb_prop in V. destruct V as [V1 V2].
  apply Z.eqb_eq in V1. apply Z.leb_le in V2.
  unfold prec, emax in *. split; [|lia].
  pose proof (digits2_pos_bound m) as D.
  assert (Z.pos (digits2_pos m) <= 53)%Z by lia.
  assert (2 ^ Z.pos (digits2_pos m) <= 2 ^ 53)%Z by (apply Z.pow_le_mono_r; lia).
  lia.
Qed.

Lemma round_half_even_bounds (m : positive) (e : Z) :
  (Z.pos m < 2 ^ 53)%Z -> (e <= 971)%Z ->
  (0 <= F64.round_half_even m e < 2 ^ 1024 - 2 ^ 970)%Z.
Proof.
  intros Hm He. unfold F64.round_half_even.
  destruct (0 <=? e)%Z eqn:E.
  - apply Z.leb_le in E.
    assert (H1 : (0 < 2 ^ e)%Z) by (apply Z.pow_pos_nonneg; lia).
    assert (H2 : (2 ^ e <= 2 ^ 971)%Z) by (apply Z.pow_le_mono_r; lia).
    assert (H3 : (Z.pos m * 2 ^ e <= (2 ^ 53 - 1) * 2 ^ 971)%Z)
      by (apply Z.mul_le_mono_nonneg; lia).
    split; [lia|]. eapply Z.le_lt_trans; [exact H3|]. reflexivity.
  - apply Z.leb_gt in E.
    assert (Hd : (2 <= 2 ^ (- e))%Z).
    { change 2%Z with (2 ^ 1)%Z at 1. apply Z.pow_le_mono_r; lia. }
    assert (Hq0 : (0 <= Z.pos m / 2 ^ (- e))%Z) by (apply Z.div_pos; lia).
    assert (Hq1 : (Z.pos m / 2 ^ (- e) <= Z.pos m)%Z)
      by (apply Z.div_le_upper_bound; nia).
    assert (Hbig : (2 ^ 53 + 1 < 2 ^ 1024 - 2 ^ 970)%Z) by reflexivity.
    destruct (2 * (Z.pos m mod 2 ^ (- e)) ?= 2 ^ (- e))%Z;
      [destruct (Z.even _)| |]; lia.
Qed.

Lemma round_bound (q : float) (h : Z) :
  F64.round q = Ok h -> (Z.abs h < 2 ^ 1024 - 2 ^ 970)%Z.
Proof.
  unfold F64.round. destruct (Prim2SF q) as [s | s | | s m e] eqn:E; try discriminate.
  - intros H. injection H as <-. reflexivity.
  - intros H. injection H as <-.
    destruct (finite_bounds q s m e E) as [Hm He].
    pose proof (round_half_even_bounds m e Hm He). destruct s; lia.
Qed.

(** ** The loop of the fit score *)

Lemma peak_failure_kinds (f0 : float) (pk : F64.pydict) (e : exn) :
  F64.peak_failure f0 pk = Some e ->
  e = TypeError \/ e = OverflowError \/ e = ValueError.
Proof.
  unfold F64.peak_failure, F64.float_of, F64.int_to_float.
  destruct (F64.dict_get pk "hz" (F64.PyFloat 0)) as [f | z |].
  - destruct (Prim2SF (f / f0)); intros H; try discriminate H;
      injection H as <-; auto.
  - destruct (Z.abs z <? 2 ^ 1024 - 2 ^ 970)%Z.
    + destruct (Prim2SF _); intros H; try discriminate H; injection H as <-; auto.
    + intros H; injection H as <-; auto.
  - intros H; injection H as <-; auto.
Qed.

Lemma aligned_step_spec (f0 tol : float) (a : Z) (pk : F64.pydict) :
  (f0 <=? 0)%float = false ->
  match F64.peak_failure f0 pk with
  | Some e => F64.aligned_step f0 tol a pk = Raise e
  | None => exists a', F64.aligned_step f0 tol a pk = Ok a' /\ (a <= a' <= a + 1)%Z
  end.
Proof.
  intros Hf0. apply leb_false_eqb in Hf0.
  unfold F64.peak_failure, F64.aligned_step.
  destruct (F64.float_of (F64.dict_get pk "hz" (F64.PyFloat 0))) as [peak_hz | e];
    [|reflexivity].
  cbn [bind]. rewrite (f64_fdiv_ok peak_hz f0 Hf0). cbn [bind].
  destruct (F64.round (peak_hz / f0)) as [h | e] eqn:Er.
  - pose proof (round_bound _ _ Er) as Hb.
    unfold F64.round in Er.
    destruct (Prim2SF (peak_hz / f0)) as [s | s | | s m e]; try discriminate Er;
      cbn [bind];
      (destruct (h <? 1)%Z; [exists a; split; [reflexivity | lia]|]);
      unfold F64.int_to_float;
      (assert (Hlt : (Z.abs h <? 2 ^ 1024 - 2 ^ 970)%Z = true) by (apply Z.ltb_lt; exact Hb));
      rewrite Hlt; cbn [bind];
      rewrite f64_fdiv_ok by apply max_eps_nonzero; cbn [bind];
      match goal with |- context [if ?c then _ else _] => destruct c end;
      eexists; (split; [reflexivity | lia]).
  - unfold F64.round in Er.
    destruct (Prim2SF (peak_hz / f0)) as [s | s | | s m e0]; try discriminate Er;
      injection Er as <-; reflexivity.
Qed.

Lemma aligned_fold_spec (f0 tol : float) (l : list F64.pydict) (a : Z) :
  (f0 <=? 0)%float = false ->
  match F64.first_failure f0 l with
  | Some e => foldM (F64.aligned_step f0 tol) a l = Raise e
  | None =>
    exists a', foldM (F64.aligned_step f0 tol) a l = Ok a' /\ (a <= a' <= a + len l)%Z
  end.
Proof.
  intros Hf0. revert a. induction l as [|pk l IH]; intros a.
  - cbn. exists a. split; [reflexivity | unfold len; cbn; lia].
  - cbn [F64.first_failure foldM].
    pose proof (aligned_step_spec f0 tol a pk Hf0) as Hs.
    destruct (F64.peak_failure f0 pk) as [e|].
    + rewrite Hs. reflexivity.
    + destruct Hs as [a1 [E1 H1]]. rewrite E1. cbn [bind].
      specialize (IH a1). destruct (F64.first_failure f0 l) as [e|].
      * exact IH.
      * destruct IH as [a' [E' H']]. exists a'. split; [exact E'|].
        unfold len in *. cbn [length]. lia.
Qed.

Lemma first_failure_kinds (f0 : float) (l : list F64.pydict) (e : exn) :
  F64.first_failure f0 l = Some e ->
  e = TypeError \/ e = OverflowError \/ e = ValueError.
Proof.
  induction l as [|pk l IH]; cbn [F64.first_failure]; [discriminate|].
  destruct (F64.peak_failure f0 pk) as [e'|] eqn:E.
  - intros H. injection H as <-. exact (peak_failure_kinds f0 pk e' E).
  - exact IH.
Qed.

(** ** The final division *)

Lemma small_quotients :
  forallb (fun b => forallb (fun a => F64.unit_quotient (Z.of_nat a) (Z.of_nat b))
                            (seq 0 (S b)))
          (seq 1 12) = true.
Proof. vm_compute. reflexivity. Qed.

Lemma int_true_div_unit (a b : Z) :
  (0 <= a <= b)%Z -> (1 <= b <= 12)%Z ->
  exists v, F64.int_true_div a b = Ok v
            /\ (0 <=? v)%float = true /\ (v <=? 1)%float = true.
Proof.
  intros Ha Hb. pose proof small_quotients as H.
  rewrite forallb_forall in H.
  specialize (H (Z.to_nat b) ltac:(apply in_seq; lia)).
  rewrite forallb_forall in H.
  specialize (H (Z.to_nat a) ltac:(apply in_seq; lia)).
  rewrite !Z2Nat.id in H by lia. unfold F64.unit_quotient in H.
  destruct (F64.int_true_div a b) as [v|]; [|discriminate].
  apply andb_prop in H. exists v. split; [reflexivity | exact H].
Qed.

(** C9 (as the code has it).  In binary64, with [k_max] between 0 and the
    default 12 that every call site uses, the harmonic-grid fit score
    returns exactly 0.0 when the peak list is empty or [f0 <= 0].
    Otherwise the loop over the first [k] peaks stops at the first peak it
    cannot process, with [TypeError] when [float()] rejects the peak's
    [hz], [OverflowError] when [hz / f0] is infinite (or [hz] is an int too
    large for a float) and [ValueError] when [hz / f0] is NaN; when there
    is no such peak the function returns a float between 0 and 1.  It
    never raises [ZeroDivisionError]. *)
Theorem harmonic_fit_bounded_unless_round_fails
    (peaks : list F64.pydict) (f0 tol : float) (k_max : Z) :
  (0 <= k_max <= SUMMARY_PEAKS)%Z ->
  let r := F64._harmonic_grid_fit_score peaks f0 tol k_max in
  (peaks = [] \/ (f0 <=? 0)%float = true -> r = Ok 0%float)
  /\ (peaks <> [] -> (f0 <=? 0)%float = false ->
      match F64.first_failure f0 (Py.slice peaks 0 (Z.min k_max (len peaks))) with
      | Some e =>
        r = Raise e /\ (e = TypeError \/ e = OverflowError \/ e = ValueError)
      | None =>
        exists v, r = Ok v /\ (0 <=? v)%float = true /\ (v <=? 1)%float = true
      end).
Proof.
  intros Hk r. unfold SUMMARY_PEAKS in Hk. split.
  - intros [-> | H]; [reflexivity|].
    unfold r, F64._harmonic_grid_fit_score. destruct peaks; [reflexivity|].
    now rewrite H.
  - intros Hne Hf0. unfold r, F64._harmonic_grid_fit_score.
    destruct peaks as [|pk peaks]; [contradiction|]. rewrite Hf0.
    set (k := Z.min k_max (len (pk :: peaks))).
    assert (Hk0 : (0 <= k <= 12)%Z) by (unfold k, len; lia).
    pose proof (aligned_fold_spec f0 tol (Py.slice (pk :: peaks) 0 k) 0 Hf0) as Hfold.
    destruct (F64.first_failure f0 (Py.slice (pk :: peaks) 0 k)) as [e|] eqn:Ef.
    + rewrite Hfold. split; [reflexivity|].
      exact (first_failure_kinds f0 _ e Ef).
    + destruct Hfold as [a [Ea Ha]]. rewrite Ea. cbn [bind].
      assert (Hlen : (len (Py.slice (pk :: peaks) 0 k) <= k)%Z).
      { rewrite slice_0 by lia. unfold len. rewrite length_firstn. lia. }
      apply int_true_div_unit; lia.
Qed.

(** Three inputs on which the fit score raises: a subnormal [f0], a NaN
    [f0], and a peak whose [hz] is [None]. *)
Lemma harmonic_fit_raises :
  F64._harmonic_grid_fit_score [[("hz"%string, F64.PyFloat 440)]] 0x1p-1074 0.03 12
  = Raise OverflowError
  /\ F64._harmonic_grid_fit_score [[("hz"%string, F64.PyFloat 440)]] nan 0.03 12
     = Raise ValueError
  /\ F64._harmonic_grid_fit_score [[("hz"%string, F64.PyNone)]] 100 0.03 12
     = Raise TypeError.
Proof. repeat split; vm_compute; reflexivity. Qed.

(** A negative [k_max] drops peaks from the end of the list but divides
    by 1: the score of three aligned peaks with [k_max = -1] is 2. *)
Lemma negative_k_max_exceeds_one :
  F64._harmonic_grid_fit_score
    [[("hz"%string, F64.PyFloat 100)]; [("hz"%string, F64.PyFloat 200)];
     [("hz"%string, F64.PyFloat 300)]] 100 0.03 (-1)
  = Ok 2%float.
Proof. vm_compute. reflexivity. Qed.

(** Peaks at 100, 200 and 310 Hz against 100 Hz: two of the three are on
    the harmonic grid. *)
Lemma harmonic_fit_bounded_unless_round_fails_witness :
  exists v,
    F64._harmonic_grid_fit_score
      [[("hz"%string, F64.PyFloat 100)]; [("hz"%string, F64.PyFloat 200)];
       [("hz"%string, F64.PyFloat 310)]] 100 0.03 12 = Ok v
    /\ (0 <=? v)%float = true /\ (v <=? 1)%float = true.
Proof.
  destruct (harmonic_fit_bounded_unless_round_fails
              [[("hz"%string, F64.PyFloat 100)]; [("hz"%string, F64.PyFloat 200)];
               [("hz"%string, F64.PyFloat 310)]] 100 0.03 12) as [_ H].
  - unfold SUMMARY_PEAKS. lia.
  - apply H; [discriminate | reflexivity].
Defined.

(** ** The logarithm next to an octave boundary *)

Lemma round_near (x : R) (n : Z) : IZR n - 1 / 2 < x < IZR n + 1 / 2 -> Py.round x = n.
Proof.
  intros H. unfold Py.round. destruct (Rle_dec (IZR n) x) as [Hle | Hgt].
  - rewrite (floor_unique x n) by lra.
    destruct (Rlt_dec (x - IZR n) (1 / 2)); [reflexivity | lra].
  - rewrite (floor_unique x (n - 1)) by (rewrite minus_IZR; lra).
    rewrite minus_IZR.
    destruct (Rlt_dec (x - (IZR n - 1)) (1 / 2)); [lra|].
    destruct (Rlt_dec (1 / 2) (x - (IZR n - 1))); [lia | lra].
Qed.

Lemma half_pow_bounds (j : nat) : 0 < (/ 2) ^ j <= 1.
Proof.
  induction j as [|j IH]; [cbn; lra|]. cbn [pow]. lra.
Qed.

(** [log2 (1 - 2^-j) >= - 2 * 2^-j], by halving. *)
Lemma log2_one_minus (j : nat) :
  - 2 * (/ 2) ^ S j <= Py.log2 (1 - (/ 2) ^ S j).
Proof.
  induction j as [|j IH].
  - replace (1 - (/ 2) ^ 1) with (/ 2) by (cbn; lra).
    rewrite log2_inv, log2_2 by lra. cbn. lra.
  - set (v := (/ 2) ^ S j) in *.
    assert (Hv : 0 < v <= / 2).
    { unfold v. cbn [pow]. pose proof (half_pow_bounds j). lra. }
    replace ((/ 2) ^ S (S j)) with (v / 2) by (unfold v; cbn; lra).
    assert (H : Py.log2 (1 - v) <= Py.log2 ((1 - v / 2) * (1 - v / 2)))
      by (apply log2_le; nra).
    rewrite log2_mult in H by lra. lra.
Qed.

Lemma log2_one_minus_strict (j : nat) :
  - 2 * (/ 2) ^ S (S j) < Py.log2 (1 - (/ 2) ^ S (S j)).
Proof.
  pose proof (log2_one_minus j) as IH.
  set (v := (/ 2) ^ S j) in *.
  assert (Hv : 0 < v <= / 2).
  { unfold v. cbn [pow]. pose proof (half_pow_bounds j). lra. }
  replace ((/ 2) ^ S (S j)) with (v / 2) by (unfold v; cbn; lra).
  assert (H : Py.log2 (1 - v) < Py.log2 ((1 - v / 2) * (1 - v / 2)))
    by (apply log2_lt; nra).
  rewrite log2_mult in H by lra. lra.
Qed.

Lemma log2_4 : Py.log2 4 = 2.
Proof. replace 4 with (2 * 2) by lra. rewrite log2_mult, log2_2 by lra. lra. Qed.

Lemma log2_8 : Py.log2 8 = 3.
Proof. replace 8 with (2 * 4) by lra. rewrite log2_mult, log2_2, log2_4 by lra. lra. Qed.

(** Rounding a real of the binade [2, 4) to the nearest float. *)
Lemma R2F_binade (r : R) (n : Z) :
  2 <= r < 4 ->
  IZR n - 1 / 2 < r * powerRZ 2 51 < IZR n + 1 / 2 ->
  F64.R2F r = SF2Prim (binary_normalize prec emax n (-51) false).
Proof.
  intros Hr Hn. unfold F64.R2F.
  destruct (Req_dec_T r 0) as [E | _]; [lra|].
  rewrite Rabs_right by lra.
  assert (El : Py.floor (Py.log2 r) = 1%Z).
  { apply floor_unique. rewrite <- log2_2 at 1.
    replace (IZR 1 + 1) with (Py.log2 4) by (rewrite log2_4; lra).
    split; [apply log2_le; lra | apply log2_lt; lra]. }
  rewrite El. change (Z.max 1 (-1022)) with 1%Z.
  change (52 - 1)%Z with 51%Z. change (1 - 52)%Z with (-51)%Z.
  rewrite (round_near _ n Hn).
  destruct (Rlt_dec r 0); [lra | reflexivity].
Qed.

Lemma pow2_51 : powerRZ 2 51 = 2251799813685248.
Proof. unfold powerRZ. change (Pos.to_nat 51) with 51%nat. unfold pow. lra. Qed.

Lemma math_log2_one : F64.math_log2 1 = Ok 0%float.
Proof.
  unfold F64.math_log2, F64.F2R.
  assert (E : Prim2SF 1 = S754_finite false 4503599627370496 (-52)) by reflexivity.
  rewrite E.
  replace ((if false then -1 else 1) * IZR (Z.pos 4503599627370496) * powerRZ 2 (-52))
    with 1.
  2:{ unfold powerRZ. change (Pos.to_nat 52) with 52%nat. unfold pow. lra. }
  rewrite log2_1. unfold F64.R2F. destruct (Req_dec_T 0 0); [reflexivity | lra].
Qed.

(** The float just below 8 has a logarithm that rounds to 3. *)
Lemma math_log2_below_8 : F64.math_log2 0x1.fffffffffffffp+2 = Ok 3%float.
Proof.
  unfold F64.math_log2, F64.F2R.
  assert (E : Prim2SF 0x1.fffffffffffffp+2 = S754_finite false 9007199254740991 (-50))
    by reflexivity.
  rewrite E.
  replace ((if false then -1 else 1) * IZR (Z.pos 9007199254740991) * powerRZ 2 (-50))
    with (8 * (1 - (/ 2) ^ 53)).
  2:{ unfold powerRZ. change (Pos.to_nat 50) with 50%nat. unfold pow. lra. }
  pose proof (log2_one_minus_strict 51) as Hlow.
  assert (Hu : 0 < (/ 2) ^ 53 < / 2).
  { change 53%nat with (S (S 51)). cbn [pow]. pose proof (half_pow_bounds 51). lra. }
  assert (Hup : Py.log2 (1 - (/ 2) ^ 53) < 0)
    by (rewrite <- log2_1; apply log2_lt; lra).
  assert (El : Py.log2 (8 * (1 - (/ 2) ^ 53)) = 3 + Py.log2 (1 - (/ 2) ^ 53))
    by (rewrite log2_mult, log2_8 by lra; reflexivity).
  rewrite El. f_equal.
  rewrite (R2F_binade _ 6755399441055744); [reflexivity | lra |].
  rewrite pow2_51.
  assert (Ehalf : 2 * (/ 2) ^ 53 * 2251799813685248 = 1 / 2)
    by (unfold pow; lra).
  split; lra.
Qed.

(** ** The register pass at an octave boundary *)

Lemma assign_register_value (f_ref : float) (idx : Z) (b : F64.bar)
    (q l : float) (octave : Z) (p within : float) :
  F64.fdiv (F64.f0_hz b) f_ref = Ok q ->
  F64.math_log2 q = Ok l ->
  F64.math_floor l = Ok octave ->
  F64.pow2 octave = Ok p ->
  F64.fdiv (F64.f0_hz b) (f_ref * p)%float = Ok within ->
  F64.assign_register f_ref idx b
  = Ok (F64.mkBar (F64.bar_id b) (F64.instrument_id b) (F64.position_index b)
                  (F64.f0_hz b) octave within idx).
Proof.
  intros H1 H2 H3 H4 H5. unfold F64.assign_register.
  rewrite H1. cbn [bind]. rewrite H2. cbn [bind]. rewrite H3. cbn [bind].
  rewrite H4. cbn [bind]. rewrite H5. reflexivity.
Qed.

(** C1 (where the code breaks it).  Two bars whose f0 are 48000/420 Hz and
    the median (48000/42 + 48000/70)/2 Hz of two tracker frames.  The
    exact ratio of the two floats is below 8, so the octave of the exact
    ratio is 2; the binary64 quotient is the float just below 8, whose
    logarithm rounds to 3.0.  The register pass therefore assigns octave 3
    and a within-octave ratio of 0.9999999999999999, which is below 1. *)
Theorem register_ratio_below_one :
  let lo := 114.28571428571429%float in
  let hi := 914.2857142857142%float in
  F64.tuning_registers
    [F64.mkBar "b2" "bars" 2 hi 0 1 0; F64.mkBar "b1" "bars" 1 lo 0 1 0]
  = Ok (lo, [F64.mkBar "b1" "bars" 1 lo 0 1 1;
             F64.mkBar "b2" "bars" 2 hi 3 0.9999999999999999 2])
  /\ (0.9999999999999999 <? 1)%float = true
  /\ Py.floor (Py.log2 (F64.F2R hi / F64.F2R lo)) = 2%Z.
Proof.
  intros lo hi. split; [|split; [reflexivity|]].
  - unfold F64.tuning_registers.
    replace (Py.sort F64.bar_key_lt
               [F64.mkBar "b2" "bars" 2 hi 0 1 0; F64.mkBar "b1" "bars" 1 lo 0 1 0])
      with [F64.mkBar "b1" "bars" 1 lo 0 1 0; F64.mkBar "b2" "bars" 2 hi 0 1 0]
      by reflexivity.
    cbn [F64.f0_hz F64.assign_registers].
    rewrite (assign_register_value lo 1 (F64.mkBar "b1" "bars" 1 lo 0 1 0)
               1 0 0 1 1);
      [| reflexivity | exact math_log2_one | reflexivity | reflexivity | reflexivity].
    cbn [bind Z.add Pos.add].
    rewrite (assign_register_value lo 2 (F64.mkBar "b2" "bars" 2 hi 0 1 0)
               0x1.fffffffffffffp+2 3 3 8 0.9999999999999999);
      [| reflexivity | exact math_log2_below_8 | reflexivity | reflexivity | reflexivity].
    reflexivity.
  - unfold F64.F2R.
    assert (Eh : Prim2SF hi = S754_finite false 8042142191733028 (-43)) by reflexivity.
    assert (El : Prim2SF lo = S754_finite false 8042142191733029 (-46)) by reflexivity.
    rewrite Eh, El.
    assert (P43 : powerRZ 2 (-43) = 8 * powerRZ 2 (-46)).
    { unfold powerRZ. change (Pos.to_nat 43) with 43%nat.
      change (Pos.to_nat 46) with 46%nat. unfold pow. lra. }
    assert (P46 : 0 < powerRZ 2 (-46)) by apply powerRZ_2_pos.
    rewrite P43. set (u := powerRZ 2 (-46)) in *.
    replace ((if false then -1 else 1) * IZR (Z.pos 8042142191733028) * (8 * u)
             / ((if false then -1 else 1) * IZR (Z.pos 8042142191733029) * u))
      with (8 * (8042142191733028 / 8042142191733029)) by (field; lra).
    apply floor_unique. rewrite <- log2_4 at 1.
    replace (IZR 2 + 1) with (Py.log2 8) by (rewrite log2_8; lra).
    split; [apply log2_le; lra | apply log2_lt; lra].
Qed.

End Float64.
